(** * PyDune, [physics/turbulent_flow/andreotti2009.py]

    Linear theory of a turbulent flow over a sinusoidal bottom, convective
    boundary layer under a stratified free atmosphere.  This file embeds the
    module in Rocq and proves (or refutes) the statements its specification
    makes about it.

    Conventions of the embedding.

    - Python and NumPy floating-point numbers are read as real numbers, and
      complex floating-point numbers as pairs of reals; rounding, overflow
      and underflow are outside the model.  In [_q1] and in the right-hand
      side [b], a division by zero and the square root of a negative real
      are followed as the code computes them: Python's division raises
      [ZeroDivisionError], NumPy's gives [nan] or an infinity, and a result
      that holds such a value ends the embedding with the marker
      [NotFinite].  In the matrix [P] and in the forcings the divisions are
      those of the real numbers: statements that depend on them carry the
      side condition that keeps the divisors away from zero.
    - The closure functions [mu] and [mu_prime] are imported by the module
      from [fourriere2010_unbounded]; they are parameters here, taken to
      return a real number at every argument.
    - [scipy.integrate.solve_ivp] is a parameter as well: an arbitrary
      function from the description of an initial-value problem to a result
      object with a dense output, taken to return on every call (an
      exception raised inside the solver is outside the model).  Every call
      the module makes to it is recorded, in order, in a log.  Where a
      statement is about what the solver computes, the explicit
      Runge-Kutta methods of SciPy are modelled, for any coefficients.
    - NumPy routines the module calls ([piecewise], boolean-mask indexing,
      [dot], [tile], [transpose], [linalg.inv]) are modelled on lists, with
      the exceptions they raise.
    - Of the two closures [calculate_solution] returns,
      [interpolated_solution] is modelled at a scalar height, and
      [streamfunction_FA] on one-dimensional arrays of heights and of
      phases; the variables they capture are arguments here. *)

From Stdlib Require Import String DecimalString.
From Stdlib Require Import Reals Lra Psatz Bool Arith Lia List.
Import ListNotations.

Open Scope R_scope.

(** ** Complex numbers *)

Record complex : Type := mkC { Re : R; Im : R }.

Declare Scope complex_scope.
Delimit Scope complex_scope with C.
Bind Scope complex_scope with complex.

Definition RtoC (x : R) : complex := mkC x 0.
Definition C0 : complex := RtoC 0.
Definition C1 : complex := RtoC 1.
(** Python's [1j]. *)
Definition Ci : complex := mkC 0 1.

Definition Cadd (z w : complex) : complex := mkC (Re z + Re w) (Im z + Im w).
Definition Cneg (z : complex) : complex := mkC (- Re z) (- Im z).
Definition Csub (z w : complex) : complex := mkC (Re z - Re w) (Im z - Im w).
Definition Cmul (z w : complex) : complex :=
  mkC (Re z * Re w - Im z * Im w) (Re z * Im w + Im z * Re w).
Definition Cnorm2 (z : complex) : R := Re z * Re z + Im z * Im z.
Definition Cinv (z : complex) : complex :=
  mkC (Re z / Cnorm2 z) (- Im z / Cnorm2 z).
Definition Cdiv (z w : complex) : complex := Cmul z (Cinv w).

(** Principal square root, as [numpy.sqrt] computes it on a complex
    argument (the imaginary part of the result takes the sign of the
    imaginary part of the argument, a zero imaginary part counting as
    positive). *)
Definition Cmod (z : complex) : R := sqrt (Cnorm2 z).
Definition Csqrt (z : complex) : complex :=
  mkC (sqrt ((Cmod z + Re z) / 2))
      ((if Rlt_dec (Im z) 0 then -1 else 1) * sqrt ((Cmod z - Re z) / 2)).

Infix "+" := Cadd : complex_scope.
Infix "-" := Csub : complex_scope.
Infix "*" := Cmul : complex_scope.
Infix "/" := Cdiv : complex_scope.
Notation "- z" := (Cneg z) : complex_scope.

Definition Ceq_dec (z w : complex) : {z = w} + {z <> w}.
Proof.
  destruct z as [a b], w as [c d].
  destruct (Req_dec_T a c) as [-> | Hac].
  - destruct (Req_dec_T b d) as [-> | Hbd].
    + left; reflexivity.
    + right; intros H; injection H; exact Hbd.
  - right; intros H; injection H; intros _ Ha; exact (Hac Ha).
Defined.

(** Comparisons of reals, as the booleans Python computes. *)
Definition Rgtb (x y : R) : bool := if Rlt_dec y x then true else false.
Definition Rleb (x y : R) : bool := if Rle_dec x y then true else false.

(** Sum of a list of complex numbers, and the inner product of two lists
    (no conjugation: [numpy.dot]). *)
Definition Csum (l : list complex) : complex := fold_right Cadd C0 l.

Fixpoint zip_with {A B D : Type} (f : A -> B -> D) (l : list A) (m : list B) : list D :=
  match l, m with
  | a :: l', b :: m' => f a b :: zip_with f l' m'
  | _, _ => []
  end.

Definition dotp (r v : list complex) : complex := Csum (zip_with Cmul r v).

(** ** Python exceptions *)

(** The classes of the exceptions met here.  The last, [NotFinite], is not
    a Python exception: it marks a floating-point result that holds [nan]
    or an infinity, which the real numbers of the embedding do not have.
    The code goes on computing with such a value; the embedding stops
    there, with this marker. *)
Inductive exn_class : Type :=
| LinAlgError | ValueError | TypeError | ZeroDivisionError | NotFinite.

(** The values an exception carries in its [args]. *)
Inductive pyval : Type :=
| PyStr (s : string)
| PyFloat (x : R).

Record exn : Type := mkExn { exn_cls : exn_class; exn_args : list pyval }.

Definition result (A : Type) : Type := (exn + A)%type.

Definition zero_division : exn := mkExn ZeroDivisionError [PyStr "float division by zero"].
Definition not_finite : exn := mkExn NotFinite [].

(** ** Floating-point operations that leave the real numbers

    A floating-point value is read as [Some] real (or complex) number when
    it is finite, and as [None] when it is [nan] or an infinity. *)

(** [a / b] on Python floats: a zero divisor raises. *)
Definition py_div (a b : R) : result R :=
  if Req_dec_T b 0 then inl zero_division else inr (a / b).

(** [a / b] on NumPy reals: a zero divisor gives an infinity or [nan], with
    a warning and no exception. *)
Definition np_div (a b : R) : option R :=
  if Req_dec_T b 0 then None else Some (a / b).

(** [numpy.sqrt] on a real: [nan] below zero. *)
Definition np_sqrt (r : R) : option R :=
  if Rlt_dec r 0 then None else Some (sqrt r).

(** [a / b] on NumPy complex numbers: [nan] on a zero divisor. *)
Definition np_cdiv (a b : complex) : option complex :=
  if Ceq_dec b C0 then None else Some (a / b)%C.

(** The finite values of a list, when all are. *)
Fixpoint all_some {A : Type} (l : list (option A)) : option (list A) :=
  match l with
  | [] => Some []
  | None :: _ => None
  | Some a :: l' =>
      match all_some l' with
      | Some m => Some (a :: m)
      | None => None
      end
  end.

Definition string_of_nat (n : nat) : string := NilEmpty.string_of_uint (Nat.to_uint n).

(** ** NumPy arrays and the routines the module calls *)

(** The argument of [_q1]: a Python float, or a 1-d array. *)
Inductive scalar_or_array (A : Type) : Type :=
| Scalar (a : A)
| Array1 (l : list A).
Arguments Scalar {A} a.
Arguments Array1 {A} l.

Definition elements {A : Type} (x : scalar_or_array A) : list A :=
  match x with Scalar a => [a] | Array1 l => l end.

(** An array of the shape of [x] holding [l]. *)
Definition reshape_like {A B : Type} (x : scalar_or_array A) (d : B) (l : list B)
  : scalar_or_array B :=
  match x with Scalar _ => Scalar (hd d l) | Array1 _ => Array1 l end.

Definition array_map {A B : Type} (f : A -> B) (x : scalar_or_array A) : scalar_or_array B :=
  match x with Scalar a => Scalar (f a) | Array1 l => Array1 (map f l) end.

(** [x[cond]]: the entries of [x] where the mask holds, in order. *)
Fixpoint mask_select {A : Type} (x : list A) (cond : list bool) : list A :=
  match x, cond with
  | a :: x', c :: cond' => if c then a :: mask_select x' cond' else mask_select x' cond'
  | _, _ => []
  end.

Definition count_true (cond : list bool) : nat := length (filter (fun c => c) cond).

(** Writes the values of [vals], in order, at the places of [y] where the
    mask holds; [vals] has as many entries as the mask has [true]. *)
Fixpoint mask_put {A : Type} (y : list A) (cond : list bool) (vals : list A) : list A :=
  match y, cond with
  | a :: y', c :: cond' =>
      if c then
        match vals with
        | v :: vals' => v :: mask_put y' cond' vals'
        | [] => a :: mask_put y' cond' []
        end
      else a :: mask_put y' cond' vals
  | _, _ => y
  end.

Definition mask_assign_error (n_values n_true : nat) : exn :=
  mkExn ValueError
    [PyStr ("NumPy boolean array indexing assignment cannot assign "
            ++ string_of_nat n_values ++ " input values to the "
            ++ string_of_nat n_true ++ " output values where the mask is true")%string].

(** [y[cond] = v] for a boolean mask: a scalar or a one-entry array is
    written at every selected place; a longer (or empty) array must have
    exactly as many entries as the mask selects, or NumPy raises
    [ValueError]. *)
Definition mask_assign {A : Type} (y : list A) (cond : list bool) (v : scalar_or_array A)
  : result (list A) :=
  match v with
  | Scalar a => inr (mask_put y cond (repeat a (count_true cond)))
  | Array1 [a] => inr (mask_put y cond (repeat a (count_true cond)))
  | Array1 l =>
      if Nat.eqb (length l) (count_true cond)
      then inr (mask_put y cond l)
      else inl (mask_assign_error (length l) (count_true cond))
  end.

(** The loop of [numpy.piecewise]: [y] starts as zeros; for each condition
    and function, the function is called on [x[cond]] only when that
    selection is not empty, and its value is assigned to [y[cond]]; an
    exception of the function ends the loop. *)
Fixpoint piecewise_loop {A B : Type} (x : list A) (y : list B)
    (conds_funcs : list (list bool * (list A -> result (scalar_or_array B))))
  : result (list B) :=
  match conds_funcs with
  | [] => inr y
  | (cond, func) :: rest =>
      let vals := mask_select x cond in
      if Nat.ltb 0 (length vals) then
        match func vals with
        | inl e => inl e
        | inr v =>
            match mask_assign y cond v with
            | inl e => inl e
            | inr y' => piecewise_loop x y' rest
            end
        end
      else piecewise_loop x y rest
  end.

(** [numpy.piecewise(x, condlist, funclist)]; [zero] is the zero of the
    entries of the result. *)
Definition np_piecewise {A B : Type} (zero : B) (x : scalar_or_array A)
    (condlist : list (scalar_or_array bool))
    (funclist : list (list A -> result (scalar_or_array B)))
  : result (scalar_or_array B) :=
  let xs := elements x in
  match piecewise_loop xs (map (fun _ => zero) xs)
          (combine (map elements condlist) funclist) with
  | inl e => inl e
  | inr y => inr (reshape_like x zero y)
  end.

(** The array read as an array of complex numbers, when all its entries
    are finite. *)
Definition all_finite (y : scalar_or_array (option complex))
  : result (scalar_or_array complex) :=
  match y with
  | Scalar (Some z) => inr (Scalar z)
  | Scalar None => inl not_finite
  | Array1 l =>
      match all_some l with
      | Some zs => inr (Array1 zs)
      | None => inl not_finite
      end
  end.

(** Two-dimensional arrays: the number of columns and the rows. *)
Record array2 : Type := mkArray2 { ncols : nat; rows : list (list complex) }.

Definition column (j : nat) (a : array2) : list complex :=
  map (fun r => nth j r C0) (rows a).

Definition np_transpose (a : array2) : array2 :=
  mkArray2 (length (rows a)) (map (fun j => column j a) (seq 0 (ncols a))).

(** [numpy.tile(v, (reps, 1))]: [reps] rows, each a copy of [v]. *)
Definition np_tile_rows (v : list complex) (reps : nat) : array2 :=
  mkArray2 (length v) (repeat v reps).

Definition shapes_not_aligned : exn :=
  mkExn ValueError [PyStr "shapes not aligned"].
Definition operands_not_broadcast : exn :=
  mkExn ValueError [PyStr "operands could not be broadcast together"].

(** [a.dot(v)] for a 1-d [v]. *)
Definition np_dot_vec (a : array2) (v : list complex) : result (list complex) :=
  if Nat.eqb (ncols a) (length v)
  then inr (map (fun r => dotp r v) (rows a))
  else inl shapes_not_aligned.

(** [a.dot(b)] for a 2-d [b]: entry [(i, j)] is the inner product of row
    [i] of [a] and column [j] of [b]. *)
Definition np_dot_mat (a b : array2) : result array2 :=
  if Nat.eqb (ncols a) (length (rows b))
  then inr (mkArray2 (ncols b)
              (map (fun r => map (fun j => dotp r (column j b)) (seq 0 (ncols b))) (rows a)))
  else inl shapes_not_aligned.

(** Entrywise sum and difference of arrays of one shape (the only case
    that arises here; NumPy's broadcasting of unequal shapes is not
    modelled and is reported as the error it most often is). *)
Definition np_add_vec (v w : list complex) : result (list complex) :=
  if Nat.eqb (length v) (length w)
  then inr (zip_with Cadd v w) else inl operands_not_broadcast.

Definition np_sub_vec (v w : list complex) : result (list complex) :=
  if Nat.eqb (length v) (length w)
  then inr (zip_with Csub v w) else inl operands_not_broadcast.

Definition np_add_mat (a b : array2) : result array2 :=
  if (Nat.eqb (ncols a) (ncols b) && Nat.eqb (length (rows a)) (length (rows b)))%bool
  then inr (mkArray2 (ncols a) (zip_with (zip_with Cadd) (rows a) (rows b)))
  else inl operands_not_broadcast.

(** [[x[:j] + x[j+1:]]: the list without its entry of index [j]. *)
Fixpoint drop_nth {A : Type} (j : nat) (l : list A) : list A :=
  match j, l with
  | _, [] => []
  | O, _ :: l' => l'
  | S j', a :: l' => a :: drop_nth j' l'
  end.

Definition Csign (k : nat) : complex := if Nat.even k then C1 else Cneg C1.

(** Determinant of an [n] by [n] array given by its rows, by expansion
    along the first row. *)
Fixpoint det (n : nat) (m : list (list complex)) : complex :=
  match n with
  | O => C1
  | S n' =>
      match m with
      | [] => C0
      | r :: m' =>
          Csum (map (fun j => Cmul (Cmul (Csign j) (nth j r C0))
                                   (det n' (map (drop_nth j) m')))
                    (seq 0 n))
      end
  end.

(** The minor of [m] without row [i] and column [j]. *)
Definition minor (i j : nat) (m : list (list complex)) : list (list complex) :=
  map (drop_nth j) (drop_nth i m).

Definition singular_matrix : exn := mkExn LinAlgError [PyStr "Singular matrix"].
Definition not_square : exn :=
  mkExn LinAlgError [PyStr "Last 2 dimensions of the array must be square"].

(** [numpy.linalg.inv]: the array must be square; a singular one raises
    [LinAlgError("Singular matrix")]; otherwise the inverse is returned
    (here by cofactors: entry [(i, j)] is the cofactor [(j, i)] over the
    determinant).  This is the routine in exact arithmetic: NumPy raises
    when its factorisation meets a pivot that is exactly zero, which
    rounding can keep from happening on a singular array. *)
Definition np_linalg_inv (a : array2) : result array2 :=
  let n := length (rows a) in
  if negb (Nat.eqb (ncols a) n) then inl not_square
  else
    let d := det n (rows a) in
    if Ceq_dec d C0 then inl singular_matrix
    else inr (mkArray2 n
           (map (fun i => map (fun j =>
                   Cdiv (Cmul (Csign (i + j)) (det (pred n) (minor j i (rows a)))) d)
                 (seq 0 n)) (seq 0 n))).

(** [complex(a)]: the Python complex held by a 0-d or one-entry array. *)
Definition py_complex (a : scalar_or_array complex) : result complex :=
  match a with
  | Scalar z => inr z
  | Array1 [z] => inr z
  | Array1 _ =>
      inl (mkExn TypeError [PyStr "only length-1 arrays can be converted to Python scalars"])
  end.

(** ** The solver interface *)

(** The state of the system: a complex 4-vector. *)
Record vec4 : Type := mkVec4 { v_0 : complex; v_1 : complex; v_2 : complex; v_3 : complex }.

Definition vec4_list (x : vec4) : list complex := [v_0 x; v_1 x; v_2 x; v_3 x].

Definition vec4_zero : vec4 := mkVec4 C0 C0 C0 C0.

(** The three right-hand sides the module hands to [solve_ivp], by name. *)
Inductive field : Type := Fn_func | Fn_func1 | Fn_func_delta.

Definition field_eqb (f g : field) : bool :=
  match f, g with
  | Fn_func, Fn_func | Fn_func1, Fn_func1 | Fn_func_delta, Fn_func_delta => true
  | _, _ => false
  end.

(** The keyword arguments forwarded to [solve_ivp]. *)
Record solver_kwargs : Type := mkKwargs {
  kw_atol : R;
  kw_rtol : R;
  kw_method : string;
  kw_extra : list (string * pyval)
}.

(** One call [solve_ivp(fun, t_span, y0, args=(eta_H, eta_0, Kappa),
    dense_output=..., **kwargs)]. *)
Record ivp_call : Type := mkCall {
  ivp_fun : field;
  ivp_t_span : R * R;
  ivp_y0 : vec4;
  ivp_args : R * R * R;
  ivp_dense_output : bool;
  ivp_kwargs : solver_kwargs
}.

(** What the module reads of the object [solve_ivp] returns: the dense
    output [sol], a function of the height. *)
Record OdeResult : Type := mkOdeResult { sol : R -> vec4 }.

(** ** Computations that call the solver and may raise *)

(** A computation yields the calls it made to [solve_ivp], in order, and
    either the exception that ended it or its value. *)
Definition M (A : Type) : Type := (list ivp_call * result A)%type.

Definition ret {A : Type} (a : A) : M A := ([], inr a).

Definition bind {A B : Type} (m : M A) (k : A -> M B) : M B :=
  match m with
  | (log, inl e) => (log, inl e)
  | (log, inr a) => let (log', r) := k a in (log ++ log', r)
  end.

Definition lift {A : Type} (r : result A) : M A := ([], r).

Notation "x <- m ;; k" := (bind m (fun x => k))
  (at level 61, m at next level, right associativity).

Definition calls {A : Type} (m : M A) : list ivp_call := fst m.
Definition outcome {A : Type} (m : M A) : result A := snd m.

(** [out = []; for a in l: out.append(body(a))]. *)
Fixpoint for_each {A B : Type} (l : list A) (body : A -> M B) : M (list B) :=
  match l with
  | [] => ret []
  | a :: l' =>
      b <- body a ;;
      bs <- for_each l' body ;;
      ret (b :: bs)
  end.

Definition enumerate {A : Type} (l : list A) : list (nat * A) :=
  combine (seq 0 (length l)) l.

(** The argument [X] of the vector fields: a single state, of shape
    [(n,)], or a batch of states, of shape [(n, N)]. *)
Inductive state_array : Type :=
| Single (v : list complex)
| Batch (a : array2).

(** [numpy.squeeze] on the product [P.dot(X)] of a single state: that
    product has shape [(4,)], which has no axis of length one to remove. *)
Definition np_squeeze (v : list complex) : list complex := v.

Section Andreotti2009.

(** The closure imported from [fourriere2010_unbounded]:
    [mu(eta, eta_0, Kappa)] and [mu_prime(eta, eta_0, Kappa)]. *)
Variable mu : R -> R -> R -> R.
Variable mu_prime : R -> R -> R -> R.

(** [scipy.integrate.solve_ivp]. *)
Variable solve_ivp : ivp_call -> OdeResult.

Definition _P (eta eta_H eta_0 Kappa : R) : array2 :=
  let tp := 1 - eta / eta_H in
  let P1 := [C0; (- Ci)%C; RtoC (mu_prime eta eta_0 Kappa / (2 * tp)); C0] in
  let P2 := [(- Ci)%C; C0; C0; C0] in
  let P3 := [(Ci * RtoC (mu eta eta_0 Kappa)
              + RtoC (4 * tp / mu_prime eta eta_0 Kappa))%C;
             RtoC (mu_prime eta eta_0 Kappa); C0; Ci] in
  let P4 := [C0; ((- Ci) * RtoC (mu eta eta_0 Kappa))%C; Ci; C0] in
  mkArray2 4 [P1; P2; P3; P4].

Definition _S (eta eta_H eta_0 Kappa : R) : list complex :=
  [RtoC (Kappa * mu_prime eta eta_0 Kappa ^ 2 - mu_prime eta eta_0 Kappa / (2 * eta_H));
   C0; C0; C0].

Definition _S_delta (eta eta_H eta_0 Kappa : R) : list complex :=
  let tp := 1 - eta / eta_H in
  [RtoC (- eta * mu_prime eta eta_0 Kappa / (2 * eta_H ^ 2 * tp)); C0; C0; C0].

(** The first function of the [piecewise] call works on its argument [x];
    the second reads [eta_B] itself: Python floats when [eta_B] is a
    scalar, where [1/eta_B**2] raises [ZeroDivisionError] at zero, and a
    NumPy array otherwise, where it gives an infinity.  A result that holds
    [nan] or an infinity ends the embedding with [not_finite]. *)
Definition _q1 (eta_B : scalar_or_array R) : result (scalar_or_array complex) :=
  match
    np_piecewise (Some C0)
      (array_map (fun r => (RtoC r + mkC 0 0)%C) eta_B)
      [array_map (fun r => Rgtb r 1) eta_B; array_map (fun r => Rleb r 1) eta_B]
      [fun x =>
         inr (Array1 (map (fun z => option_map (fun w => (- Csqrt (C1 - w))%C)
                                      (np_cdiv C1 (z * z)%C)) x));
       fun x =>
         match eta_B with
         | Scalar r =>
             match py_div 1 (r ^ 2) with
             | inl e => inl e
             | inr q =>
                 inr (Scalar (option_map (fun s => (Ci * RtoC s)%C) (np_sqrt (q - 1))))
             end
         | Array1 l =>
             inr (Array1 (map (fun r =>
                     match np_div 1 (r ^ 2) with
                     | None => None
                     | Some q => option_map (fun s => (Ci * RtoC s)%C) (np_sqrt (q - 1))
                     end) l))
         end]
  with
  | inl e => inl e
  | inr y => all_finite y
  end.

Definition _func (eta : R) (X : state_array) (eta_H eta_0 Kappa : R) : result state_array :=
  match X with
  | Single v =>
      match np_dot_vec (_P eta eta_H eta_0 Kappa) v with
      | inl e => inl e
      | inr y => inr (Single (np_squeeze y))
      end
  | Batch a =>
      match np_dot_mat (_P eta eta_H eta_0 Kappa) a with
      | inl e => inl e
      | inr y => inr (Batch y)
      end
  end.

Definition _func1 (eta : R) (X : state_array) (eta_H eta_0 Kappa : R) : result state_array :=
  match X with
  | Single v =>
      match np_dot_vec (_P eta eta_H eta_0 Kappa) v with
      | inl e => inl e
      | inr y =>
          match np_add_vec (np_squeeze y) (_S eta eta_H eta_0 Kappa) with
          | inl e => inl e
          | inr z => inr (Single z)
          end
      end
  | Batch a =>
      match np_dot_mat (_P eta eta_H eta_0 Kappa) a with
      | inl e => inl e
      | inr y =>
          match np_add_mat y
                  (np_transpose (np_tile_rows (_S eta eta_H eta_0 Kappa) (ncols a))) with
          | inl e => inl e
          | inr z => inr (Batch z)
          end
      end
  end.

Definition _func_delta (eta : R) (X : state_array) (eta_H eta_0 Kappa : R)
  : result state_array :=
  match X with
  | Single v =>
      match np_dot_vec (_P eta eta_H eta_0 Kappa) v with
      | inl e => inl e
      | inr y =>
          match np_add_vec (np_squeeze y) (_S_delta eta eta_H eta_0 Kappa) with
          | inl e => inl e
          | inr z => inr (Single z)
          end
      end
  | Batch a =>
      match np_dot_mat (_P eta eta_H eta_0 Kappa) a with
      | inl e => inl e
      | inr y =>
          match np_add_mat y
                  (np_transpose (np_tile_rows (_S_delta eta eta_H eta_0 Kappa) (ncols a))) with
          | inl e => inl e
          | inr z => inr (Batch z)
          end
      end
  end.

(** The function a [field] names. *)
Definition field_fun (f : field) : R -> state_array -> R -> R -> R -> result state_array :=
  match f with
  | Fn_func => _func
  | Fn_func1 => _func1
  | Fn_func_delta => _func_delta
  end.

(** A call of [solve_ivp]: logged, and answered by the solver, which is
    taken to return. *)
Definition call_solve_ivp (c : ivp_call) : M OdeResult := ([c], inr (solve_ivp c)).

Definition _solve_system (eta_0 eta_H Kappa max_z : R) (dense_output : bool)
    (kwargs : solver_kwargs) : M (list OdeResult) :=
  let eta_span_tp := (0, max_z) in
  let X0_vec := [mkVec4 (RtoC (- mu_prime 0 eta_0 Kappa)) (RtoC 0 * Ci)%C C0 C0;
                 mkVec4 C0 (RtoC 0 * Ci)%C C1 C0;
                 mkVec4 C0 (RtoC 0 * Ci)%C C0 C1;
                 mkVec4 C0 C0 C0 C0] in
  for_each (enumerate X0_vec) (fun '(i, X0) =>
    if Nat.eqb i 0 then
      call_solve_ivp (mkCall Fn_func1 eta_span_tp X0 (eta_H, eta_0, Kappa) dense_output kwargs)
    else if Nat.eqb i 4 then
      call_solve_ivp (mkCall Fn_func_delta eta_span_tp X0 (eta_H, eta_0, Kappa) dense_output kwargs)
    else
      call_solve_ivp (mkCall Fn_func eta_span_tp X0 (eta_H, eta_0, Kappa) dense_output kwargs)).

(** [a[:, :-1]] and [a[:, -1]]. *)
Definition drop_last_column (a : array2) : array2 :=
  mkArray2 (pred (ncols a)) (map (@removelast complex) (rows a)).

Definition last_column (a : array2) : list complex :=
  map (fun r => last r C0) (rows a).

(** The local variables of [calculate_solution] once the boundary
    conditions are defined (its body down to the comment
    [# Applying boundary condition]). *)
Record matching : Type := mkMatching {
  mt_max_z : R;
  mt_Results : list OdeResult;
  mt_To_apply : array2;
  mt_b : list complex
}.

(** The local variables of [calculate_solution] when it returns; the two
    closures it returns read [Results] and [coeffs] from them. *)
Record frame : Type := mkFrame {
  fr_matching : matching;
  fr_pars : list complex;
  fr_coeffs : list complex
}.

Definition effective_max_z (max_z : option R) (eta_H : R) : R :=
  match max_z with None => 0.9999 * eta_H | Some z => z end.

(** [kwargs] holds the keyword arguments that reach [solve_ivp]; the key
    [dense_output], which [_solve_system] would take for its own parameter,
    is taken not to be among them.  The divisions [1/max_z] and
    [1/(eta_H*Fr**2)] are those of Python floats. *)
Definition boundary_conditions (eta_0 eta_H eta_B Fr : R) (max_z : option R)
    (Kappa atol rtol : R) (method : string) (kwargs : list (string * pyval)) : M matching :=
  let max_z := effective_max_z max_z eta_H in
  Results <- _solve_system eta_0 eta_H 0.4 max_z true (mkKwargs atol rtol method kwargs) ;;
  (* Defining boundary conditions *)
  let To_apply :=
    np_transpose (mkArray2 3 (map (fun X => tl (vec4_list (sol X max_z))) Results)) in
  inv_z <- lift (py_div 1 max_z) ;;
  q <- lift (_q1 (Scalar eta_B)) ;;
  q1 <- lift (py_complex q) ;;
  inv_F <- lift (py_div 1 (eta_H * Fr ^ 2)) ;;
  let b := [(Ci * RtoC (mu max_z eta_0 Kappa))%C;
            RtoC inv_z;
            (RtoC (mu max_z eta_0 Kappa ^ 2) * (q1 + RtoC inv_F))%C] in
  ret (mkMatching max_z Results To_apply b).

(** The rest of [calculate_solution], which calls the solver no more:
    [pars = np.dot(np.linalg.inv(To_apply[:, :-1]), b - To_apply[:, -1])]
    and the coefficients. *)
Definition apply_boundary_condition (m : matching) : result frame :=
  match np_linalg_inv (drop_last_column (mt_To_apply m)) with
  | inl e => inl e
  | inr inv =>
      match np_sub_vec (mt_b m) (last_column (mt_To_apply m)) with
      | inl e => inl e
      | inr rhs =>
          match np_dot_vec inv rhs with
          | inl e => inl e
          | inr pars =>
              let coeffs := [C1;
                             (nth 1 pars C0 / nth 0 pars C0)%C;
                             (nth 2 pars C0 / nth 0 pars C0)%C;
                             (C1 / nth 0 pars C0)%C] in
              inr (mkFrame m pars coeffs)
          end
      end
  end.

Definition calculate_solution (eta_0 eta_H eta_B Fr : R) (max_z : option R)
    (Kappa atol rtol : R) (method : string) (kwargs : list (string * pyval)) : M frame :=
  m <- boundary_conditions eta_0 eta_H eta_B Fr max_z Kappa atol rtol method kwargs ;;
  lift (apply_boundary_condition m).

Definition vec4_add (x y : vec4) : vec4 :=
  mkVec4 (v_0 x + v_0 y)%C (v_1 x + v_1 y)%C (v_2 x + v_2 y)%C (v_3 x + v_3 y)%C.

Definition vec4_scale (c : complex) (x : vec4) : vec4 :=
  mkVec4 (v_0 x * c)%C (v_1 x * c)%C (v_2 x * c)%C (v_3 x * c)%C.

(** The closure [interpolated_solution], at a scalar height: the sum over
    the solutions of each dense output times its coefficient. *)
Definition interpolated_solution (fr : frame) (eta : R) : vec4 :=
  fold_right vec4_add vec4_zero
    (zip_with (fun X c => vec4_scale c (sol X eta))
       (mt_Results (fr_matching fr)) (fr_coeffs fr)).

End Andreotti2009.

(** ** The stream function above the boundary layer *)

(** [numpy.exp] at a complex number. *)
Definition Cexp (z : complex) : complex :=
  mkC (exp (Re z) * cos (Im z)) (exp (Re z) * sin (Im z)).

Section FreeAtmosphere.

Variable mu : R -> R -> R -> R.

(** [streamfunction_FA] calls [mu(eta_H, eta_0)] with two arguments: the
    third takes the default the imported function declares. *)
Variable mu_default_Kappa : R.

(** The closure [streamfunction_FA], on one-dimensional arrays of heights
    and of phases; [eta_0] and [eta_H] are the arguments of the enclosing
    call, [coeffs] is read from its frame.  The result has one row for each
    height and one column for each phase. *)
Definition streamfunction_FA (eta_0 eta_H : R) (fr : frame)
    (eta_FA k_x : list R) (k_xi : R) : list (list R) :=
  let mu_H := mu eta_H eta_0 mu_default_Kappa in
  let W := (Ci * RtoC mu_H * last (fr_coeffs fr) C0)%C in
  let Psi_b := map (fun e => mu_H * (e / eta_H - 1)) eta_FA in
  let Psi1 := (W / (- Ci * RtoC eta_H))%C in
  map (fun p => map (fun k => Re (RtoC p + RtoC k_xi * Cexp (Ci * RtoC k) * Psi1)%C) k_x)
      Psi_b.

End FreeAtmosphere.

(** ** Explicit Runge-Kutta solvers

    [solve_ivp] belongs to SciPy, not to the module.  Its explicit methods
    ([RK23], [RK45], and [DOP853], the default of [calculate_solution]) are
    Runge-Kutta schemes with a dense output.  They are modelled here for
    any coefficients and any control of the step size:
    - a step of size [h] from [(t, y)] evaluates the field stage after
      stage, [K_i = fun(t + c_i*h, y + h * sum_(j<i) a_ij*K_j)], the stages
      the dense output adds included;
    - the state after the step is [y + h * sum_i b_i*K_i];
    - on the step, the dense output at [t + theta*h] is
      [y + h * sum_i w_i(theta)*K_i];
    - the sizes of the steps taken, which the error control chooses, are
      any function of the problem. *)
Record rk_scheme : Type := mkRk {
  rk_stages : nat;
  rk_C : nat -> R;
  rk_A : nat -> nat -> R;
  rk_B : nat -> R;
  rk_dense : nat -> R -> R;
  rk_steps : ivp_call -> list R
}.

(** The field of a call at a state, as the solver evaluates it. *)
Definition eval_field (mu mu_prime : R -> R -> R -> R) (c : ivp_call) (t : R) (y : vec4)
  : vec4 :=
  let '(eta_H, eta_0, Kappa) := ivp_args c in
  match field_fun mu mu_prime (ivp_fun c) t (Single (vec4_list y)) eta_H eta_0 Kappa with
  | inr (Single [d0; d1; d2; d3]) => mkVec4 d0 d1 d2 d3
  | _ => y
  end.

(** [w_i*K_0 + w_(i+1)*K_1 + ...]. *)
Fixpoint weighted_sum (w : nat -> R) (i : nat) (K : list vec4) : vec4 :=
  match K with
  | [] => vec4_zero
  | k :: K' => vec4_add (vec4_scale (RtoC (w i)) k) (weighted_sum w (S i) K')
  end.

(** The stages of one step: [n] more stages after the [i] held in [K]. *)
Fixpoint rk_stage_loop (f : R -> vec4 -> vec4) (rk : rk_scheme) (t h : R) (y : vec4)
    (n i : nat) (K : list vec4) : list vec4 :=
  match n with
  | O => K
  | S n' =>
      let dy := vec4_scale (RtoC h) (weighted_sum (rk_A rk i) 0 K) in
      rk_stage_loop f rk t h y n' (S i) (K ++ [f (t + rk_C rk i * h) (vec4_add y dy)])
  end.

(** What the dense output keeps of a step: where it starts, its size, the
    state it starts from and its stages. *)
Record rk_segment : Type := mkSegment {
  seg_t : R;
  seg_h : R;
  seg_y : vec4;
  seg_K : list vec4
}.

Fixpoint rk_segments (f : R -> vec4 -> vec4) (rk : rk_scheme) (t : R) (y : vec4)
    (hs : list R) : list rk_segment :=
  match hs with
  | [] => []
  | h :: hs' =>
      let K := rk_stage_loop f rk t h y (rk_stages rk) 0 [] in
      mkSegment t h y K
      :: rk_segments f rk (t + h)
           (vec4_add y (vec4_scale (RtoC h) (weighted_sum (rk_B rk) 0 K))) hs'
  end.

(** The segment read at [t]: the first that ends at [t] or after, the last
    one beyond the span. *)
Fixpoint rk_find_segment (t : R) (segs : list rk_segment) : option rk_segment :=
  match segs with
  | [] => None
  | s :: rest =>
      match rest with
      | [] => Some s
      | _ :: _ =>
          if Rle_dec t (seg_t s + seg_h s) then Some s else rk_find_segment t rest
      end
  end.

Definition rk_dense_output (rk : rk_scheme) (s : rk_segment) (t : R) : vec4 :=
  let theta := (t - seg_t s) / seg_h s in
  vec4_add (seg_y s)
    (vec4_scale (RtoC (seg_h s)) (weighted_sum (fun i => rk_dense rk i theta) 0 (seg_K s))).

Definition rk_solve_ivp (mu mu_prime : R -> R -> R -> R) (rk : rk_scheme) (c : ivp_call)
  : OdeResult :=
  let segs := rk_segments (eval_field mu mu_prime c) rk (fst (ivp_t_span c)) (ivp_y0 c)
                (rk_steps rk c) in
  mkOdeResult (fun t =>
    match rk_find_segment t segs with
    | Some s => rk_dense_output rk s t
    | None => ivp_y0 c
    end).

(** ** A sample environment, for closed examples

    A logarithmic eddy-viscosity profile stands for the imported closure.
    Two elementary solvers stand for [solve_ivp]: one explicit Euler step
    over the whole span with a linear dense output, and the scheme of Heun
    (two stages) taking two steps of half the span. *)

Definition mu_log (eta eta_0 Kappa : R) : R := (1 / Kappa) * ln (1 + eta / eta_0).
Definition mu_prime_log (eta eta_0 Kappa : R) : R := (1 / Kappa) * (1 / (eta + eta_0)).

Definition euler_solve_ivp (mu mu_prime : R -> R -> R -> R) (c : ivp_call) : OdeResult :=
  let '(eta_H, eta_0, Kappa) := ivp_args c in
  let t0 := fst (ivp_t_span c) in
  mkOdeResult (fun t =>
    match field_fun mu mu_prime (ivp_fun c) t0 (Single (vec4_list (ivp_y0 c)))
            eta_H eta_0 Kappa with
    | inr (Single [d0; d1; d2; d3]) =>
        vec4_add (ivp_y0 c) (vec4_scale (RtoC (t - t0)) (mkVec4 d0 d1 d2 d3))
    | _ => ivp_y0 c
    end).

Definition heun_scheme : rk_scheme :=
  mkRk 2
    (fun i => match i with O => 0 | _ => 1 end)
    (fun i j => match i, j with 1%nat, O => 1 | _, _ => 0 end)
    (fun _ => 1 / 2)
    (fun i theta => match i with O => theta - theta ^ 2 / 2 | _ => theta ^ 2 / 2 end)
    (fun c => let h := (snd (ivp_t_span c) - fst (ivp_t_span c)) / 2 in [h; h]).

(** ** Notions used in the statements *)

(** The calls [_solve_system] makes, in order. *)
Definition solve_system_calls (mu_prime : R -> R -> R -> R)
    (eta_0 eta_H Kappa max_z : R) (dense_output : bool) (kwargs : solver_kwargs)
  : list ivp_call :=
  [mkCall Fn_func1 (0, max_z) (mkVec4 (RtoC (- mu_prime 0 eta_0 Kappa)) C0 C0 C0)
     (eta_H, eta_0, Kappa) dense_output kwargs;
   mkCall Fn_func (0, max_z) (mkVec4 C0 C0 C1 C0) (eta_H, eta_0, Kappa) dense_output kwargs;
   mkCall Fn_func (0, max_z) (mkVec4 C0 C0 C0 C1) (eta_H, eta_0, Kappa) dense_output kwargs;
   mkCall Fn_func (0, max_z) vec4_zero (eta_H, eta_0, Kappa) dense_output kwargs].

(** The value of [_q1] at a scalar. *)
Definition q1_value (eta_B : R) : complex :=
  if Rlt_dec 1 eta_B then RtoC (- sqrt (1 - 1 / eta_B ^ 2))
  else (Ci * RtoC (sqrt (1 / eta_B ^ 2 - 1)))%C.

(** The closure constant a call hands to the vector field. *)
Definition ivp_Kappa (c : ivp_call) : R := snd (ivp_args c).

(** Parameters in the domain of the model: positive roughness height,
    boundary-layer height and stability parameter, a cutoff height strictly
    inside the layer, a non-zero Froude number. *)
Definition valid_parameters (eta_0 eta_H eta_B Fr max_z : R) : Prop :=
  0 < eta_0 /\ 0 < eta_H /\ 0 < max_z < eta_H /\ 0 < eta_B /\ Fr <> 0.

Definition det3 (a11 a12 a13 a21 a22 a23 a31 a32 a33 : complex) : complex :=
  (a11 * (a22 * a33 - a23 * a32) - a12 * (a21 * a33 - a23 * a31)
   + a13 * (a21 * a32 - a22 * a31))%C.

(** [X.sol(max_z)[1:]]. *)
Definition tail3 (X : OdeResult) (max_z : R) : list complex := tl (vec4_list (sol X max_z)).

(** The determinant of the square array [To_apply[:, :-1]]. *)
Definition matching_det (m : matching) : complex :=
  det (length (rows (drop_last_column (mt_To_apply m))))
      (rows (drop_last_column (mt_To_apply m))).

(** The matching system as the specification words it: of five solutions,
    the active columns are those of the two homogeneous solutions and of
    the solution forced by [S_delta], and the column taken to the right-hand
    side is that of the forced solution. *)
Definition spec_matching_system (Results : list OdeResult) (max_z : R)
  : option (array2 * list complex) :=
  match Results with
  | [forced; homogeneous_1; homogeneous_2; _; forced_delta] =>
      Some (np_transpose (mkArray2 3 [tail3 homogeneous_1 max_z;
                                      tail3 homogeneous_2 max_z;
                                      tail3 forced_delta max_z]),
            tail3 forced max_z)
  | _ => None
  end.

(** The parameters the specification calls invalid. *)
Definition invalid_parameters (eta_0 eta_H max_z : R) : Prop :=
  eta_H <= 0 \/ eta_0 <= 0 \/ eta_H <= max_z.

(** What the specification asks on invalid parameters: an exception, and
    no call of the solver. *)
Definition rejected_before_integration {A : Type} (run : M A) : Prop :=
  calls run = [] /\ exists e, outcome run = inl e.

(** A sufficient sign of a severely ill-conditioned array: one column is
    within [eps] of zero, every entry of it having modulus at most [eps],
    while some entry of the array has modulus at least one.  The 2-norm
    condition number of a square array of [n] rows is then at least
    [1 / (sqrt(n) * eps)]. *)
Definition nearly_singular (eps : R) (a : array2) : Prop :=
  (exists j, (j < ncols a)%nat
             /\ Forall (fun z => Cnorm2 z <= eps * eps) (column j a))
  /\ (exists r z, In r (rows a) /\ In z r /\ 1 <= Cnorm2 z).

(** What the specification asks of a matching failure: an exception whose
    arguments hold the condition number and the parameters. *)
Definition reports_conditioning (e : exn) (params : list R) : Prop :=
  exists cond, In (PyFloat cond) (exn_args e)
               /\ Forall (fun p => In (PyFloat p) (exn_args e)) params.

(** Derivatives of complex- and vector-valued functions of the height,
    component by component. *)
Definition complex_derivative (x : R -> complex) (t : R) (d : complex) : Prop :=
  derivable_pt_lim (fun s => Re (x s)) t (Re d)
  /\ derivable_pt_lim (fun s => Im (x s)) t (Im d).

Definition vec4_derivative (X : R -> vec4) (t : R) (D : vec4) : Prop :=
  complex_derivative (fun s => v_0 (X s)) t (v_0 D)
  /\ complex_derivative (fun s => v_1 (X s)) t (v_1 D)
  /\ complex_derivative (fun s => v_2 (X s)) t (v_2 D)
  /\ complex_derivative (fun s => v_3 (X s)) t (v_3 D).

(** [X] is an exact solution of the initial-value problem a call hands to
    the solver: it starts from [y0] and, at every height of the span, its
    derivative is the value of the vector field. *)
Definition solves_ivp (mu mu_prime : R -> R -> R -> R) (c : ivp_call) (X : R -> vec4) : Prop :=
  X (fst (ivp_t_span c)) = ivp_y0 c
  /\ forall t, fst (ivp_t_span c) <= t <= snd (ivp_t_span c) ->
       exists D,
         field_fun mu mu_prime (ivp_fun c) t (Single (vec4_list (X t)))
           (fst (fst (ivp_args c))) (snd (fst (ivp_args c))) (snd (ivp_args c))
         = inr (Single (vec4_list D))
         /\ vec4_derivative X t D.

(** Every entry of the array has real and imaginary parts within [B]. *)
Definition entries_bounded (B : R) (a : array2) : Prop :=
  Forall (Forall (fun z => Rabs (Re z) <= B /\ Rabs (Im z) <= B)) (rows a).

Definition vec4_norm2 (x : vec4) : R :=
  Cnorm2 (v_0 x) + Cnorm2 (v_1 x) + Cnorm2 (v_2 x) + Cnorm2 (v_3 x).

(** The sum of the absolute values of the real and imaginary parts. *)
Definition vec4_norm1 (x : vec4) : R :=
  Rabs (Re (v_0 x)) + Rabs (Im (v_0 x)) + Rabs (Re (v_1 x)) + Rabs (Im (v_1 x))
  + Rabs (Re (v_2 x)) + Rabs (Im (v_2 x)) + Rabs (Re (v_3 x)) + Rabs (Im (v_3 x)).

(** The product [P(eta) . x] on a state, and the difference of states. *)
Definition P_times (mu mu_prime : R -> R -> R -> R) (eta eta_H eta_0 Kappa : R) (x : vec4)
  : vec4 :=
  let P := rows (_P mu mu_prime eta eta_H eta_0 Kappa) in
  mkVec4 (dotp (nth 0 P []) (vec4_list x)) (dotp (nth 1 P []) (vec4_list x))
         (dotp (nth 2 P []) (vec4_list x)) (dotp (nth 3 P []) (vec4_list x)).

Definition vec4_sub (x y : vec4) : vec4 :=
  mkVec4 (v_0 x - v_0 y)%C (v_1 x - v_1 y)%C (v_2 x - v_2 y)%C (v_3 x - v_3 y)%C.

(** At the height [t], the derivative of [X] is the value at [X(t)] of the
    vector field a call hands to the solver. *)
Definition satisfies_field_at (mu mu_prime : R -> R -> R -> R) (c : ivp_call)
    (X : R -> vec4) (t : R) : Prop :=
  exists D,
    field_fun mu mu_prime (ivp_fun c) t (Single (vec4_list (X t)))
      (fst (fst (ivp_args c))) (snd (fst (ivp_args c))) (snd (ivp_args c))
    = inr (Single (vec4_list D))
    /\ vec4_derivative X t D.

(** * Properties *)

(** ** Complex arithmetic *)

Lemma complex_eq (z w : complex) : Re z = Re w -> Im z = Im w -> z = w.
Proof. destruct z, w; simpl; intros -> ->; reflexivity. Qed.

Lemma complex_eq_inv (z w : complex) : z = w -> Re z = Re w /\ Im z = Im w.
Proof. intros ->; split; reflexivity. Qed.

Lemma Cnorm2_pos (z : complex) : z <> C0 -> 0 < Cnorm2 z.
Proof.
  destruct z as [a b]; unfold Cnorm2, C0, RtoC; simpl; intros H.
  destruct (Req_dec_T a 0) as [-> | Ha].
  - destruct (Req_dec_T b 0) as [-> | Hb]; [congruence | nra].
  - nra.
Qed.

Lemma complex_field_theory :
  field_theory C0 C1 Cadd Cmul Csub Cneg Cdiv Cinv eq.
Proof.
  constructor.
  - constructor; intros; apply complex_eq; simpl; ring.
  - intros H; apply complex_eq_inv in H; simpl in H; lra.
  - reflexivity.
  - intros p Hp; pose proof (Cnorm2_pos p Hp) as Hn.
    destruct p as [a b]; unfold Cnorm2 in *; simpl in *.
    apply complex_eq; simpl; unfold Cnorm2; simpl; field; lra.
Qed.

Add Field complex_field : complex_field_theory.

Lemma Csqrt_real (r : R) : 0 <= r -> Csqrt (RtoC r) = RtoC (sqrt r).
Proof.
  intros Hr; unfold Csqrt, Cmod, Cnorm2, RtoC; simpl.
  replace (r * r + 0 * 0) with (r * r) by ring.
  rewrite sqrt_square by exact Hr.
  destruct (Rlt_dec 0 0) as [H | _]; [lra | ].
  replace ((r + r) / 2) with r by field.
  replace ((r - r) / 2) with 0 by field.
  rewrite sqrt_0; apply complex_eq; simpl; ring.
Qed.

Lemma RtoC_plus_0j (r : R) : (RtoC r + mkC 0 0)%C = RtoC r.
Proof. apply complex_eq; simpl; ring. Qed.

Lemma zero_times_1j : (RtoC 0 * Ci)%C = C0.
Proof. apply complex_eq; simpl; ring. Qed.

Lemma Ci_times_real (r : R) : (Ci * RtoC r)%C = mkC 0 r.
Proof. apply complex_eq; simpl; ring. Qed.

(** [1 - 1/x**2] at a real, non-zero [x] held in a complex number. *)
Lemma one_minus_inv_square (r : R) :
  r <> 0 -> (C1 - C1 / (RtoC r * RtoC r))%C = RtoC (1 - 1 / r ^ 2).
Proof.
  intros Hr; apply complex_eq; simpl; unfold Cnorm2; simpl; field; nra.
Qed.

Lemma Rgtb_true (x y : R) : y < x -> Rgtb x y = true.
Proof. intros H; unfold Rgtb; destruct (Rlt_dec y x); [reflexivity | contradiction]. Qed.

Lemma Rgtb_false (x y : R) : x <= y -> Rgtb x y = false.
Proof. intros H; unfold Rgtb; destruct (Rlt_dec y x); [lra | reflexivity]. Qed.

Lemma Rleb_true (x y : R) : x <= y -> Rleb x y = true.
Proof. intros H; unfold Rleb; destruct (Rle_dec x y); [reflexivity | contradiction]. Qed.

Lemma Rleb_false (x y : R) : y < x -> Rleb x y = false.
Proof. intros H; unfold Rleb; destruct (Rle_dec x y); [lra | reflexivity]. Qed.

(** ** Boolean masks *)

Lemma mask_select_length {A : Type} (x : list A) (cond : list bool) :
  length x = length cond -> length (mask_select x cond) = count_true cond.
Proof.
  revert cond; induction x as [| a x IH]; intros [| c cond] Hlen;
    simpl in *; try discriminate; auto.
  injection Hlen as Hlen. unfold count_true in *.
  destruct c; simpl; rewrite IH; auto.
Qed.

Lemma count_true_le (cond : list bool) : (count_true cond <= length cond)%nat.
Proof. unfold count_true; apply filter_length_le. Qed.

Lemma count_true_pos {A : Type} (p : A -> bool) (l : list A) :
  (exists a, In a l /\ p a = true) -> (0 < count_true (map p l))%nat.
Proof.
  intros [a [Hin Hp]]. induction l as [| b l IH]; [contradiction | ].
  unfold count_true in *; simpl. destruct Hin as [-> | Hin].
  - rewrite Hp; simpl; lia.
  - destruct (p b); simpl; auto with arith.
Qed.

Lemma count_true_lt {A : Type} (p : A -> bool) (l : list A) :
  (exists a, In a l /\ p a = false) -> (count_true (map p l) < length l)%nat.
Proof.
  intros [a [Hin Hp]]. induction l as [| b l IH]; [contradiction | ].
  unfold count_true in *; simpl. destruct Hin as [-> | Hin].
  - rewrite Hp. pose proof (filter_length_le (fun c : bool => c) (map p l)) as Hle.
    rewrite length_map in Hle. lia.
  - specialize (IH Hin). destruct (p b); simpl; lia.
Qed.

Lemma count_true_all {A : Type} (p : A -> bool) (l : list A) :
  (forall a, In a l -> p a = true) -> count_true (map p l) = length l.
Proof.
  induction l as [| b l IH]; intros H; [reflexivity | ].
  unfold count_true in *; simpl. rewrite (H b) by (left; reflexivity); simpl.
  rewrite IH; [reflexivity | intros a Ha; apply H; right; exact Ha].
Qed.

Lemma count_true_none {A : Type} (p : A -> bool) (l : list A) :
  (forall a, In a l -> p a = false) -> count_true (map p l) = 0%nat.
Proof.
  induction l as [| b l IH]; intros H; [reflexivity | ].
  unfold count_true in *; simpl. rewrite (H b) by (left; reflexivity); simpl.
  apply IH; intros a Ha; apply H; right; exact Ha.
Qed.

(** Assigning as many values as the mask selects succeeds. *)
Lemma mask_assign_fits {A : Type} (y : list A) (cond : list bool) (l : list A) :
  length l = count_true cond -> exists y', mask_assign y cond (Array1 l) = inr y'.
Proof.
  intros Hlen. unfold mask_assign.
  destruct l as [| a [| b l]]; try (eexists; reflexivity).
  all: rewrite Hlen, Nat.eqb_refl; eexists; reflexivity.
Qed.

(** Assigning two or more values to a different number of places raises. *)
Lemma mask_assign_mismatch {A : Type} (y : list A) (cond : list bool) (l : list A) :
  (2 <= length l)%nat -> length l <> count_true cond ->
  mask_assign y cond (Array1 l) = inl (mask_assign_error (length l) (count_true cond)).
Proof.
  intros H2 Hne. unfold mask_assign.
  destruct l as [| a [| b l]]; simpl in H2; try lia.
  apply Nat.eqb_neq in Hne. rewrite Hne. reflexivity.
Qed.

Lemma mask_put_all {A : Type} (y l : list A) :
  length y = length l -> mask_put y (map (fun _ => true) y) l = l.
Proof.
  revert l; induction y as [| a y IH]; intros [| b l] H; simpl in *;
    try discriminate; auto.
  rewrite IH; auto.
Qed.

Lemma mask_select_all {A : Type} (x : list A) :
  mask_select x (map (fun _ => true) x) = x.
Proof. induction x as [| a x IH]; simpl; [reflexivity | now rewrite IH]. Qed.


(** ** The radiation condition [_q1] *)

Lemma py_div_nonzero (a b : R) : b <> 0 -> py_div a b = inr (a / b).
Proof. intros H. unfold py_div. destruct (Req_dec_T b 0); [contradiction | reflexivity]. Qed.

Lemma py_div_zero (a : R) : py_div a 0 = inl zero_division.
Proof. unfold py_div. destruct (Req_dec_T 0 0) as [_ | H]; [reflexivity | contradiction]. Qed.

Lemma np_div_nonzero (a b : R) : b <> 0 -> np_div a b = Some (a / b).
Proof. intros H. unfold np_div. destruct (Req_dec_T b 0); [contradiction | reflexivity]. Qed.

Lemma np_sqrt_nonneg (r : R) : 0 <= r -> np_sqrt r = Some (sqrt r).
Proof. intros H. unfold np_sqrt. destruct (Rlt_dec r 0); [lra | reflexivity]. Qed.

Lemma np_sqrt_negative (r : R) : r < 0 -> np_sqrt r = None.
Proof. intros H. unfold np_sqrt. destruct (Rlt_dec r 0); [reflexivity | lra]. Qed.

Lemma all_some_map_Some {A : Type} (l : list A) : all_some (map Some l) = Some l.
Proof. induction l as [| a l IH]; cbn [map all_some]; [reflexivity | now rewrite IH]. Qed.

(** [1/r^2 - 1] is not negative for a non-zero [r] between [-1] and [1],
    and is negative outside. *)
Lemma inv_square_minus_one_nonneg (r : R) :
  r <> 0 -> -1 <= r <= 1 -> 0 <= 1 / r ^ 2 - 1.
Proof.
  intros Hr Hb.
  assert (Hpos : 0 < r ^ 2) by nra.
  assert (1 <= / r ^ 2); [ | lra].
  rewrite <- Rinv_1 at 1. apply Rinv_le_contravar; nra.
Qed.

Lemma inv_square_minus_one_negative (r : R) :
  r < -1 \/ 1 < r -> 1 / r ^ 2 - 1 < 0.
Proof.
  intros Hb.
  assert (Hpos : 1 < r ^ 2) by nra.
  assert (/ r ^ 2 < 1); [ | lra].
  rewrite <- Rinv_1. apply Rinv_lt_contravar; nra.
Qed.

(** The value of the first function of [_q1] at a real above one. *)
Lemma q1_first_function (r : R) :
  1 < r ->
  option_map (fun w => (- Csqrt (C1 - w))%C)
    (np_cdiv C1 ((RtoC r + mkC 0 0) * (RtoC r + mkC 0 0))%C)
  = Some (RtoC (- sqrt (1 - 1 / r ^ 2))).
Proof.
  intros H. unfold np_cdiv.
  destruct (Ceq_dec _ C0) as [H0 | _].
  { apply complex_eq_inv in H0. destruct H0 as [H0 _].
    cbn [Re Im Cmul Cadd RtoC C0] in H0. nra. }
  cbn [option_map]. f_equal.
  rewrite RtoC_plus_0j, one_minus_inv_square by lra.
  rewrite Csqrt_real.
  - apply complex_eq; simpl; ring.
  - assert (Hsq : 1 < r ^ 2) by nra.
    assert (0 < / r ^ 2 < 1); [ | lra].
    split.
    + apply Rinv_0_lt_compat; lra.
    + rewrite <- Rinv_1. apply Rinv_lt_contravar; lra.
Qed.

Ltac q1_scalar_run :=
  unfold _q1, np_piecewise;
  cbn [elements array_map map combine piecewise_loop mask_select].

(** On a scalar above one, [numpy.piecewise] calls the first function only. *)
Lemma q1_scalar_above (eta_B : R) :
  1 < eta_B ->
  _q1 (Scalar eta_B) = inr (Scalar (RtoC (- sqrt (1 - 1 / eta_B ^ 2)))).
Proof.
  intros H. q1_scalar_run.
  rewrite (Rgtb_true eta_B 1 H), (Rleb_false eta_B 1 H).
  cbn [mask_select length Nat.ltb Nat.leb map].
  rewrite (q1_first_function eta_B H).
  reflexivity.
Qed.

(** On a non-zero scalar between [-1] and [1], it calls the second
    function only, whose square root has a non-negative argument. *)
Lemma q1_scalar_below (eta_B : R) :
  eta_B <= 1 -> -1 <= eta_B -> eta_B <> 0 ->
  _q1 (Scalar eta_B) = inr (Scalar (Ci * RtoC (sqrt (1 / eta_B ^ 2 - 1)))%C).
Proof.
  intros H Hm Hne. q1_scalar_run.
  rewrite (Rgtb_false eta_B 1 H), (Rleb_true eta_B 1 H).
  cbn [mask_select length Nat.ltb Nat.leb].
  rewrite py_div_nonzero by nra.
  rewrite np_sqrt_nonneg by (apply inv_square_minus_one_nonneg; [exact Hne | lra]).
  reflexivity.
Qed.

(** At zero, the division [1/eta_B**2] of Python floats raises. *)
Lemma q1_scalar_zero : _q1 (Scalar 0) = inl zero_division.
Proof.
  q1_scalar_run.
  rewrite (Rgtb_false 0 1), (Rleb_true 0 1) by lra.
  cbn [mask_select length Nat.ltb Nat.leb].
  replace (0 ^ 2) with 0 by ring. rewrite py_div_zero. reflexivity.
Qed.

(** Below [-1], [numpy.sqrt] is called on a negative real: the result is
    [nan]. *)
Lemma q1_scalar_nan (eta_B : R) : eta_B < -1 -> _q1 (Scalar eta_B) = inl not_finite.
Proof.
  intros H. q1_scalar_run.
  rewrite (Rgtb_false eta_B 1), (Rleb_true eta_B 1) by lra.
  cbn [mask_select length Nat.ltb Nat.leb].
  rewrite py_div_nonzero by nra.
  rewrite np_sqrt_negative by (apply inv_square_minus_one_negative; left; exact H).
  reflexivity.
Qed.

(** A mixed array: the second function returns an entry for every entry of
    [eta_B], and they do not fit the places the second mask selects. *)
Lemma q1_array_mixed (l : list R) :
  (exists r, In r l /\ 1 < r) -> (exists r, In r l /\ r <= 1) ->
  _q1 (Array1 l)
  = inl (mask_assign_error (length l) (count_true (map (fun r => Rleb r 1) l))).
Proof.
  intros [r1 [Hin1 Hr1]] [r2 [Hin2 Hr2]].
  unfold _q1, np_piecewise. cbn [elements array_map map combine piecewise_loop].
  set (xs := map (fun r : R => (RtoC r + mkC 0 0)%C) l).
  set (c1 := map (fun r : R => Rgtb r 1) l).
  set (c2 := map (fun r : R => Rleb r 1) l).
  assert (Hc1 : (0 < count_true c1)%nat).
  { apply count_true_pos; exists r1; split; [exact Hin1 | apply Rgtb_true; exact Hr1]. }
  assert (Hc2 : (0 < count_true c2)%nat).
  { apply count_true_pos; exists r2; split; [exact Hin2 | apply Rleb_true; exact Hr2]. }
  assert (Hc2' : (count_true c2 < length l)%nat).
  { apply count_true_lt; exists r1; split; [exact Hin1 | apply Rleb_false; exact Hr1]. }
  assert (Hs1 : length (mask_select xs c1) = count_true c1).
  { apply mask_select_length; unfold xs, c1; now rewrite !length_map. }
  assert (Hs2 : length (mask_select xs c2) = count_true c2).
  { apply mask_select_length; unfold xs, c2; now rewrite !length_map. }
  rewrite Hs1, Hs2.
  destruct (Nat.ltb_spec 0 (count_true c1)) as [_ | Hf]; [ | lia].
  destruct (Nat.ltb_spec 0 (count_true c2)) as [_ | Hf]; [ | lia].
  match goal with |- context [mask_assign ?y c1 (Array1 ?v)] =>
    destruct (mask_assign_fits y c1 v) as [y' Hy'];
      [rewrite length_map; exact Hs1 | rewrite Hy']
  end.
  rewrite mask_assign_mismatch; rewrite ?length_map; [reflexivity | lia | lia].
Qed.

(** An array with every entry at most one, none zero or below [-1]: the
    second function alone is called, and its value is the entrywise one. *)
Lemma q1_array_all_below (l : list R) :
  (forall r, In r l -> r <= 1) ->
  (forall r, In r l -> -1 <= r /\ r <> 0) ->
  _q1 (Array1 l) = inr (Array1 (map (fun r => (Ci * RtoC (sqrt (1 / r ^ 2 - 1)))%C) l)).
Proof.
  intros Hall Hdom.
  unfold _q1, np_piecewise. cbn [elements array_map map combine piecewise_loop].
  set (xs := map (fun r : R => (RtoC r + mkC 0 0)%C) l).
  set (c1 := map (fun r : R => Rgtb r 1) l).
  set (c2 := map (fun r : R => Rleb r 1) l).
  set (h := fun r : R =>
              match np_div 1 (r ^ 2) with
              | Some q => option_map (fun s : R => (Ci * RtoC s)%C) (np_sqrt (q - 1))
              | None => None
              end).
  assert (Hh : map h l = map Some (map (fun r => (Ci * RtoC (sqrt (1 / r ^ 2 - 1)))%C) l)).
  { rewrite map_map. apply map_ext_in. intros r Hr. unfold h.
    destruct (Hdom r Hr) as [Hm Hne].
    rewrite np_div_nonzero by nra.
    rewrite np_sqrt_nonneg
      by (apply inv_square_minus_one_nonneg; [exact Hne | split; [exact Hm | apply Hall, Hr]]).
    reflexivity. }
  assert (Hc1 : count_true c1 = 0%nat).
  { apply count_true_none; intros a Ha; apply Rgtb_false, Hall, Ha. }
  assert (Hc2 : count_true c2 = length l).
  { apply count_true_all; intros a Ha; apply Rleb_true, Hall, Ha. }
  assert (Hs1 : length (mask_select xs c1) = count_true c1).
  { apply mask_select_length; unfold xs, c1; now rewrite !length_map. }
  assert (Hs2 : length (mask_select xs c2) = count_true c2).
  { apply mask_select_length; unfold xs, c2; now rewrite !length_map. }
  rewrite Hs1, Hs2, Hc1, Hc2. cbn [Nat.ltb Nat.leb].
  rewrite Hh.
  destruct l as [| a l]; [reflexivity | ].
  cbn [length Nat.ltb Nat.leb].
  assert (Hc2m : c2 = map (fun _ => true) (map (fun _ : complex => Some C0) xs)).
  { unfold c2, xs. rewrite !map_map. apply map_ext_in.
    intros r Hr; apply Rleb_true, Hall, Hr. }
  unfold mask_assign.
  destruct l as [| a' l'].
  - cbn [map]. rewrite Hc2. cbn [length repeat]. unfold c2; cbn [map].
    rewrite (Rleb_true a 1) by (apply Hall; left; reflexivity). reflexivity.
  - cbn [map length]. rewrite Hc2. cbn [length]. rewrite !length_map, Nat.eqb_refl.
    rewrite Hc2m. cbn [reshape_like all_finite].
    rewrite mask_put_all.
    + change (Some (Ci * RtoC (sqrt (1 / a ^ 2 - 1)))%C
              :: Some (Ci * RtoC (sqrt (1 / a' ^ 2 - 1)))%C
              :: map Some (map (fun r => (Ci * RtoC (sqrt (1 / r ^ 2 - 1)))%C) l'))
        with (map Some (map (fun r => (Ci * RtoC (sqrt (1 / r ^ 2 - 1)))%C) (a :: a' :: l'))).
      rewrite all_some_map_Some. reflexivity.
    + unfold xs. cbn [length map]. now rewrite !length_map.
Qed.

(** An array with every entry above one: the first function alone is
    called, on the whole array. *)
Lemma q1_array_all_above (l : list R) :
  (forall r, In r l -> 1 < r) ->
  _q1 (Array1 l) = inr (Array1 (map (fun r => RtoC (- sqrt (1 - 1 / r ^ 2))) l)).
Proof.
  intros Hall.
  unfold _q1, np_piecewise. cbn [elements array_map map combine piecewise_loop].
  set (xs := map (fun r : R => (RtoC r + mkC 0 0)%C) l).
  set (c1 := map (fun r : R => Rgtb r 1) l).
  set (c2 := map (fun r : R => Rleb r 1) l).
  assert (Hc2 : count_true c2 = 0%nat).
  { apply count_true_none; intros a Ha; apply Rleb_false, Hall, Ha. }
  assert (Hc1 : count_true c1 = length l).
  { apply count_true_all; intros a Ha; apply Rgtb_true, Hall, Ha. }
  assert (Hs2 : length (mask_select xs c2) = count_true c2).
  { apply mask_select_length; unfold xs, c2; now rewrite !length_map. }
  assert (Hc1m : c1 = map (fun _ => true) xs).
  { unfold c1, xs. rewrite map_map. apply map_ext_in.
    intros r Hr; apply Rgtb_true, Hall, Hr. }
  assert (Hc1z : c1 = map (fun _ => true) (map (fun _ : complex => Some C0) xs)).
  { rewrite Hc1m, map_map; reflexivity. }
  assert (Hval : map (fun z : complex =>
                        option_map (fun w => (- Csqrt (C1 - w))%C) (np_cdiv C1 (z * z)%C)) xs
                 = map Some (map (fun r => RtoC (- sqrt (1 - 1 / r ^ 2))) l)).
  { unfold xs. rewrite !map_map. apply map_ext_in.
    intros r Hr; apply q1_first_function, Hall, Hr. }
  rewrite Hs2, Hc2.
  replace (mask_select xs c1) with xs by (rewrite Hc1m, mask_select_all; reflexivity).
  rewrite Hval. unfold xs at 1. rewrite length_map.
  destruct l as [| a l]; [reflexivity | ].
  cbn [length Nat.ltb Nat.leb].
  unfold mask_assign.
  destruct l as [| a' l'].
  - cbn [map]. rewrite Hc1. cbn [length repeat]. unfold c1; cbn [map].
    rewrite (Rgtb_true a 1) by (apply Hall; left; reflexivity). reflexivity.
  - cbn [map length]. rewrite Hc1. cbn [length]. rewrite !length_map, Nat.eqb_refl.
    rewrite Hc1z. cbn [reshape_like Nat.ltb Nat.leb all_finite].
    rewrite mask_put_all.
    + change (Some (RtoC (- sqrt (1 - 1 / a ^ 2)))
              :: Some (RtoC (- sqrt (1 - 1 / a' ^ 2)))
              :: map Some (map (fun r => RtoC (- sqrt (1 - 1 / r ^ 2))) l'))
        with (map Some (map (fun r => RtoC (- sqrt (1 - 1 / r ^ 2))) (a :: a' :: l'))).
      rewrite all_some_map_Some. reflexivity.
    + unfold xs. cbn [length map]. now rewrite !length_map.
Qed.

(** On an array of positive entries that lie all above one, or all at most
    one, [_q1] returns the array of its values at the entries. *)
Lemma q1_array_unmixed (l : list R) :
  (forall r, In r l -> 0 < r) ->
  (forall r, In r l -> 1 < r) \/ (forall r, In r l -> r <= 1) ->
  exists ys, _q1 (Array1 l) = inr (Array1 ys)
             /\ Forall2 (fun r y => _q1 (Scalar r) = inr (Scalar y)) l ys.
Proof.
  intros Hpos [Hall | Hall].
  - rewrite q1_array_all_above by exact Hall. eexists; split; [reflexivity | ].
    clear Hpos. induction l as [| r l IH]; [constructor | ].
    cbn [map]. constructor.
    + apply q1_scalar_above, Hall; left; reflexivity.
    + apply IH; intros r' Hr'; apply Hall; right; exact Hr'.
  - rewrite q1_array_all_below;
      [ | exact Hall | intros r Hr; specialize (Hpos r Hr); lra].
    eexists; split; [reflexivity | ].
    induction l as [| r l IH]; [constructor | ].
    cbn [map]. constructor.
    + assert (0 < r) by (apply Hpos; left; reflexivity).
      apply q1_scalar_below; [apply Hall; left; reflexivity | lra | lra].
    + apply IH; intros r' Hr'; [apply Hpos | apply Hall]; right; exact Hr'.
Qed.

(** Continuity of [_q1] at the branch boundary. *)
Lemma q1_continuous_at_1 (eps : R) :
  0 < eps ->
  exists delta, 0 < delta /\
    forall eta_B, Rabs (eta_B - 1) < delta ->
      exists q, _q1 (Scalar eta_B) = inr (Scalar q)
                /\ Rabs (Re q) < eps /\ Rabs (Im q) < eps.
Proof.
  intros Heps.
  exists (Rmin (1 / 2) (eps * eps / 10)). split.
  { apply Rmin_glb_lt; [lra | ]. apply Rdiv_lt_0_compat; nra. }
  intros eta_B Hd.
  assert (Hd1 : Rabs (eta_B - 1) < 1 / 2) by (eapply Rlt_le_trans; [exact Hd | apply Rmin_l]).
  assert (Hd2 : Rabs (eta_B - 1) < eps * eps / 10) by (eapply Rlt_le_trans; [exact Hd | apply Rmin_r]).
  apply Rabs_def2 in Hd1. apply Rabs_def2 in Hd2.
  assert (Hpos : 0 < eta_B ^ 2) by nra.
  assert (Hu : / eta_B ^ 2 * eta_B ^ 2 = 1) by (apply Rinv_l; lra).
  assert (Hu0 : 0 < / eta_B ^ 2) by (apply Rinv_0_lt_compat; exact Hpos).
  assert (Hu4 : / eta_B ^ 2 < 4) by nra.
  assert (Hsq : sqrt (eps * eps) = eps) by (apply sqrt_square; lra).
  destruct (Rlt_dec 1 eta_B) as [Hgt | Hle].
  - exists (RtoC (- sqrt (1 - 1 / eta_B ^ 2))). split; [apply q1_scalar_above; exact Hgt | ].
    cbn [Re Im RtoC]. split; [ | rewrite Rabs_R0; exact Heps].
    rewrite Rabs_Ropp, Rabs_pos_eq by apply sqrt_pos.
    rewrite <- Hsq. apply sqrt_lt_1_alt. unfold Rdiv; rewrite Rmult_1_l.
    assert (He : 1 - / eta_B ^ 2 = / eta_B ^ 2 * ((eta_B - 1) * (eta_B + 1))) by nra.
    assert (Hb : 0 <= (eta_B - 1) * (eta_B + 1) < eps * eps) by nra.
    assert (Hu1 : / eta_B ^ 2 <= 1) by nra.
    rewrite He. nra.
  - apply Rnot_lt_le in Hle.
    exists (Ci * RtoC (sqrt (1 / eta_B ^ 2 - 1)))%C.
    split; [apply q1_scalar_below; [exact Hle | lra | lra] | ].
    rewrite Ci_times_real; cbn [Re Im]. split.
    + rewrite Rabs_R0; exact Heps.
    + rewrite Rabs_pos_eq by apply sqrt_pos.
      rewrite <- Hsq. apply sqrt_lt_1_alt. unfold Rdiv; rewrite Rmult_1_l.
      assert (He : / eta_B ^ 2 - 1 = / eta_B ^ 2 * ((1 - eta_B) * (1 + eta_B))) by nra.
      assert (Hb : 0 <= (1 - eta_B) * (1 + eta_B) < eps * eps / 4) by nra.
      rewrite He. nra.
Qed.

(** C5 (as amended).  For a real scalar [eta_B] that is not zero and not
    below [-1]: above one, [_q1] returns the real, non-positive number
    [-sqrt(1 - 1/eta_B^2)]; at most one, it returns
    [i*sqrt(1/eta_B^2 - 1)], whose real part is zero; at [eta_B = 1] both
    formulas and [_q1] itself give zero, and [_q1] is continuous there. *)
Theorem q1_scalar_branches (eta_B : R) (Hdom : -1 <= eta_B /\ eta_B <> 0) :
  (1 < eta_B ->
     _q1 (Scalar eta_B) = inr (Scalar (RtoC (- sqrt (1 - 1 / eta_B ^ 2))))
     /\ - sqrt (1 - 1 / eta_B ^ 2) <= 0)
  /\ (eta_B <= 1 ->
     _q1 (Scalar eta_B) = inr (Scalar (Ci * RtoC (sqrt (1 / eta_B ^ 2 - 1)))%C)
     /\ Re (Ci * RtoC (sqrt (1 / eta_B ^ 2 - 1)))%C = 0)
  /\ (- sqrt (1 - 1 / 1 ^ 2) = 0 /\ sqrt (1 / 1 ^ 2 - 1) = 0
      /\ _q1 (Scalar 1) = inr (Scalar C0))
  /\ (forall eps, 0 < eps ->
        exists delta, 0 < delta /\
          forall x, Rabs (x - 1) < delta ->
            exists q, _q1 (Scalar x) = inr (Scalar q)
                      /\ Rabs (Re q) < eps /\ Rabs (Im q) < eps).
Proof.
  destruct Hdom as [Hm Hne].
  assert (Hz1 : 1 - 1 / 1 ^ 2 = 0) by field.
  assert (Hz2 : 1 / 1 ^ 2 - 1 = 0) by field.
  repeat split.
  - apply q1_scalar_above; assumption.
  - pose proof (sqrt_pos (1 - 1 / eta_B ^ 2)); lra.
  - apply q1_scalar_below; assumption.
  - rewrite Ci_times_real; reflexivity.
  - rewrite Hz1, sqrt_0; ring.
  - rewrite Hz2, sqrt_0; reflexivity.
  - rewrite q1_scalar_below by lra. rewrite Hz2, sqrt_0, Ci_times_real. reflexivity.
  - apply q1_continuous_at_1.
Qed.

Lemma q1_scalar_branches_witness :
  _q1 (Scalar (-0.5)) = inr (Scalar (Ci * RtoC (sqrt (1 / (-0.5) ^ 2 - 1)))%C)
  /\ Re (Ci * RtoC (sqrt (1 / (-0.5) ^ 2 - 1)))%C = 0.
Proof.
  assert (Hdom : -1 <= -0.5 /\ -0.5 <> 0) by lra.
  assert (Hle : -0.5 <= 1) by lra.
  exact (proj1 (proj2 (q1_scalar_branches (-0.5) Hdom)) Hle).
Defined.

(** C5, counterexample.  At [eta_B = 0], which is at most one, [_q1]
    raises [ZeroDivisionError] and returns no value; at [eta_B = -2] its
    result is [nan], not a complex number: the second branch of the claim
    fails at both. *)
Lemma q1_fails_at_zero_and_below_minus_one :
  0 <= 1
  /\ _q1 (Scalar 0) = inl zero_division
  /\ _q1 (Scalar 0) <> inr (Scalar (Ci * RtoC (sqrt (1 / 0 ^ 2 - 1)))%C)
  /\ -2 <= 1
  /\ _q1 (Scalar (-2)) = inl not_finite
  /\ _q1 (Scalar (-2)) <> inr (Scalar (Ci * RtoC (sqrt (1 / (-2) ^ 2 - 1)))%C).
Proof.
  assert (H2 : -2 < -1) by lra.
  split; [lra | ]. split; [exact q1_scalar_zero | ].
  split; [rewrite q1_scalar_zero; discriminate | ].
  split; [lra | ]. split; [exact (q1_scalar_nan (-2) H2) | ].
  rewrite (q1_scalar_nan (-2) H2); discriminate.
Qed.

(** C6.  On the array [[2.0, 0.5]], which mixes an entry above one with an
    entry below, [_q1] raises [ValueError]: the second function of the
    [piecewise] call reads the whole of [eta_B] instead of its argument, and
    returns two values for the one place its mask selects.  Applied to each
    entry separately, [_q1] returns a value. *)
Theorem q1_mixed_array_raises :
  _q1 (Array1 [2; 1 / 2]) = inl (mask_assign_error 2 1)
  /\ _q1 (Scalar 2) = inr (Scalar (RtoC (- sqrt (1 - 1 / 2 ^ 2))))
  /\ _q1 (Scalar (1 / 2)) = inr (Scalar (Ci * RtoC (sqrt (1 / (1 / 2) ^ 2 - 1)))%C).
Proof.
  split; [ | split].
  - rewrite q1_array_mixed.
    + cbn [map length]. rewrite (Rleb_false 2 1), (Rleb_true (1 / 2) 1) by lra.
      reflexivity.
    + exists 2; split; [left; reflexivity | lra].
    + exists (1 / 2); split; [right; left; reflexivity | lra].
  - apply q1_scalar_above; lra.
  - apply q1_scalar_below; lra.
Qed.

(** ** Three by three systems *)

Lemma det_3x3 (a11 a12 a13 a21 a22 a23 a31 a32 a33 : complex) :
  det 3 [[a11; a12; a13]; [a21; a22; a23]; [a31; a32; a33]]
  = det3 a11 a12 a13 a21 a22 a23 a31 a32 a33.
Proof.
  unfold det3.
  cbn [det map seq nth drop_nth Csum fold_right Csign Nat.even].
  ring.
Qed.

Lemma inv_3x3_solves (a11 a12 a13 a21 a22 a23 a31 a32 a33 r1 r2 r3 : complex) :
  let A := mkArray2 3 [[a11; a12; a13]; [a21; a22; a23]; [a31; a32; a33]] in
  det3 a11 a12 a13 a21 a22 a23 a31 a32 a33 <> C0 ->
  exists inv pars,
    np_linalg_inv A = inr inv
    /\ np_dot_vec inv [r1; r2; r3] = inr pars
    /\ length pars = 3%nat
    /\ np_dot_vec A pars = inr [r1; r2; r3].
Proof.
  intros A Hdet. unfold np_linalg_inv.
  cbn [A rows ncols length Nat.eqb negb].
  rewrite det_3x3.
  destruct (Ceq_dec _ C0) as [H0 | _]; [contradiction | ].
  eexists; eexists. split; [reflexivity | ].
  unfold np_dot_vec. cbn [ncols rows length Nat.eqb map seq].
  split; [reflexivity | ]. split; [reflexivity | ].
  subst A. cbn [ncols rows length Nat.eqb map].
  f_equal.
  cbn [dotp zip_with Csum fold_right pred minor drop_nth det map seq nth Csign Nat.even Nat.add].
  unfold det3 in *.
  apply f_equal2; [field; exact Hdet | ].
  apply f_equal2; [field; exact Hdet | ].
  apply f_equal2; [field; exact Hdet | reflexivity].
Qed.

Lemma inv_3x3_singular (a11 a12 a13 a21 a22 a23 a31 a32 a33 : complex) :
  det3 a11 a12 a13 a21 a22 a23 a31 a32 a33 = C0 ->
  np_linalg_inv (mkArray2 3 [[a11; a12; a13]; [a21; a22; a23]; [a31; a32; a33]])
  = inl singular_matrix.
Proof.
  intros Hdet. unfold np_linalg_inv.
  cbn [rows ncols length Nat.eqb negb].
  rewrite det_3x3.
  destruct (Ceq_dec _ C0) as [_ | H0]; [reflexivity | contradiction].
Qed.

(** The matching data of four solutions: [To_apply[:, :-1]] holds the
    columns of the first three, [To_apply[:, -1]] that of the fourth. *)
Lemma to_apply_of_four (X1 X2 X3 X4 : OdeResult) (z : R) :
  let T := np_transpose
             (mkArray2 3 (map (fun X => tl (vec4_list (sol X z))) [X1; X2; X3; X4])) in
  drop_last_column T = np_transpose (mkArray2 3 [tail3 X1 z; tail3 X2 z; tail3 X3 z])
  /\ last_column T = tail3 X4 z.
Proof. split; reflexivity. Qed.

(** The two ways [apply_boundary_condition] ends on the data of four
    solutions and a right-hand side of three entries. *)
Lemma apply_boundary_condition_cases (z : R) (X1 X2 X3 X4 : OdeResult) (b1 b2 b3 : complex) :
  let m := mkMatching z [X1; X2; X3; X4]
             (np_transpose
                (mkArray2 3 (map (fun X => tl (vec4_list (sol X z))) [X1; X2; X3; X4])))
             [b1; b2; b3] in
  (matching_det m = C0 -> apply_boundary_condition m = inl singular_matrix)
  /\ (matching_det m <> C0 ->
      exists fr, apply_boundary_condition m = inr fr
                 /\ fr_matching fr = m
                 /\ np_dot_vec (drop_last_column (mt_To_apply m)) (fr_pars fr)
                    = np_sub_vec (mt_b m) (last_column (mt_To_apply m))).
Proof.
  intros m. unfold matching_det, apply_boundary_condition.
  cbn [m mt_To_apply mt_b].
  destruct (to_apply_of_four X1 X2 X3 X4 z) as [-> ->].
  unfold tail3, np_transpose, column.
  cbn [rows ncols map seq nth length vec4_list tl].
  rewrite det_3x3. split; intros Hdet.
  - rewrite inv_3x3_singular by exact Hdet. reflexivity.
  - destruct (inv_3x3_solves _ _ _ _ _ _ _ _ _
                (b1 - v_1 (sol X4 z))%C (b2 - v_2 (sol X4 z))%C (b3 - v_3 (sol X4 z))%C Hdet)
      as [inv [pars [Hinv [Hpars [Hlen Hsolve]]]]].
    rewrite Hinv. unfold np_sub_vec. cbn [length Nat.eqb zip_with].
    rewrite Hpars. eexists; split; [reflexivity | ].
    split; [reflexivity | ]. cbn [fr_pars]. exact Hsolve.
Qed.

Lemma apply_boundary_condition_matching (m : matching) (fr : frame) :
  apply_boundary_condition m = inr fr -> fr_matching fr = m.
Proof.
  unfold apply_boundary_condition.
  destruct (np_linalg_inv _) as [e | inv]; [discriminate | ].
  destruct (np_sub_vec _ _) as [e | rhs]; [discriminate | ].
  destruct (np_dot_vec _ _) as [e | pars]; [discriminate | ].
  intros H; injection H as <-; reflexivity.
Qed.

(** The two ways [apply_boundary_condition] ends, read on what
    [numpy.linalg.inv] does: an exception of the inverse ends it as it is,
    and on this square array it can only be "Singular matrix"; once the
    inverse is returned, so are the coefficients. *)
Lemma apply_boundary_condition_inv (z : R) (X1 X2 X3 X4 : OdeResult) (b1 b2 b3 : complex) :
  let m := mkMatching z [X1; X2; X3; X4]
             (np_transpose
                (mkArray2 3 (map (fun X => tl (vec4_list (sol X z))) [X1; X2; X3; X4])))
             [b1; b2; b3] in
  (forall e, np_linalg_inv (drop_last_column (mt_To_apply m)) = inl e ->
     apply_boundary_condition m = inl e /\ e = singular_matrix)
  /\ (forall inv, np_linalg_inv (drop_last_column (mt_To_apply m)) = inr inv ->
      exists fr, apply_boundary_condition m = inr fr
                 /\ fr_matching fr = m /\ length (fr_coeffs fr) = 4%nat).
Proof.
  intros m. unfold apply_boundary_condition.
  cbn [m mt_To_apply mt_b].
  destruct (to_apply_of_four X1 X2 X3 X4 z) as [-> ->].
  unfold tail3, np_transpose, column.
  cbn [rows ncols map seq nth length vec4_list tl].
  split.
  - intros e He. rewrite He. split; [reflexivity | ].
    revert He. unfold np_linalg_inv. cbn [rows ncols length Nat.eqb negb].
    destruct (Ceq_dec _ C0) as [_ | _]; intros He; [ | discriminate He].
    injection He as <-. reflexivity.
  - intros inv Hinv. rewrite Hinv.
    revert Hinv. unfold np_linalg_inv. cbn [rows ncols length Nat.eqb negb].
    destruct (Ceq_dec _ C0) as [_ | _]; intros Hinv; [discriminate Hinv | ].
    injection Hinv as <-.
    unfold np_sub_vec, np_dot_vec. cbn [length Nat.eqb zip_with ncols].
    eexists. split; [reflexivity | ]. split; reflexivity.
Qed.

Section Solver.

Variable mu : R -> R -> R -> R.
Variable mu_prime : R -> R -> R -> R.
Variable solve_ivp : ivp_call -> OdeResult.

Lemma solve_system_run (eta_0 eta_H Kappa max_z : R) (d : bool) (kw : solver_kwargs) :
  _solve_system mu_prime solve_ivp eta_0 eta_H Kappa max_z d kw
  = (solve_system_calls mu_prime eta_0 eta_H Kappa max_z d kw,
     inr (map solve_ivp (solve_system_calls mu_prime eta_0 eta_H Kappa max_z d kw))).
Proof.
  unfold _solve_system, solve_system_calls, enumerate; simpl.
  rewrite zero_times_1j. reflexivity.
Qed.

Lemma q1_scalar_value (eta_B : R) :
  0 < eta_B -> _q1 (Scalar eta_B) = inr (Scalar (q1_value eta_B)).
Proof.
  intros Hpos. unfold q1_value. destruct (Rlt_dec 1 eta_B) as [H | H].
  - apply q1_scalar_above; exact H.
  - apply q1_scalar_below; lra.
Qed.

(** The calls [boundary_conditions] makes are those of [_solve_system],
    whatever follows them. *)
Lemma boundary_conditions_calls (eta_0 eta_H eta_B Fr : R) (max_z : option R)
    (Kappa atol rtol : R) (method : string) (kwargs : list (string * pyval)) :
  calls (boundary_conditions mu mu_prime solve_ivp eta_0 eta_H eta_B Fr max_z Kappa
           atol rtol method kwargs)
  = solve_system_calls mu_prime eta_0 eta_H 0.4 (effective_max_z max_z eta_H) true
      (mkKwargs atol rtol method kwargs).
Proof.
  unfold boundary_conditions. rewrite solve_system_run.
  unfold calls, bind, lift, ret.
  destruct (py_div 1 (effective_max_z max_z eta_H)) as [e | inv_z]; [reflexivity | ].
  destruct (_q1 (Scalar eta_B)) as [e | q]; [reflexivity | ].
  destruct (py_complex q) as [e | q1]; [reflexivity | ].
  destruct (py_div 1 (eta_H * Fr ^ 2)) as [e | inv_F]; [reflexivity | ].
  cbn [fst]. rewrite !app_nil_r. reflexivity.
Qed.

Lemma boundary_conditions_run (eta_0 eta_H eta_B Fr : R) (max_z : option R)
    (Kappa atol rtol : R) (method : string) (kwargs : list (string * pyval)) :
  valid_parameters eta_0 eta_H eta_B Fr (effective_max_z max_z eta_H) ->
  let z := effective_max_z max_z eta_H in
  let cs := solve_system_calls mu_prime eta_0 eta_H 0.4 z true
              (mkKwargs atol rtol method kwargs) in
  let Results := map solve_ivp cs in
  boundary_conditions mu mu_prime solve_ivp eta_0 eta_H eta_B Fr max_z Kappa atol rtol
    method kwargs
  = (cs,
     inr (mkMatching z Results
            (np_transpose (mkArray2 3 (map (fun X => tl (vec4_list (sol X z))) Results)))
            [(Ci * RtoC (mu z eta_0 Kappa))%C;
             RtoC (1 / z);
             (RtoC (mu z eta_0 Kappa ^ 2)
              * (q1_value eta_B + RtoC (1 / (eta_H * Fr ^ 2))))%C])).
Proof.
  intros [H0 [HH [Hz [HB HF]]]] z cs Results. unfold boundary_conditions.
  fold z. rewrite solve_system_run. fold cs.
  rewrite py_div_nonzero by (unfold z; lra).
  rewrite q1_scalar_value by exact HB.
  rewrite py_div_nonzero by (apply Rmult_integral_contrapositive_currified;
                             [lra | apply pow_nonzero; exact HF]).
  reflexivity.
Qed.

Lemma calculate_solution_run (eta_0 eta_H eta_B Fr : R) (max_z : option R)
    (Kappa atol rtol : R) (method : string) (kwargs : list (string * pyval)) (m : matching) :
  outcome (boundary_conditions mu mu_prime solve_ivp eta_0 eta_H eta_B Fr max_z Kappa
             atol rtol method kwargs) = inr m ->
  calculate_solution mu mu_prime solve_ivp eta_0 eta_H eta_B Fr max_z Kappa atol rtol
    method kwargs
  = (calls (boundary_conditions mu mu_prime solve_ivp eta_0 eta_H eta_B Fr max_z Kappa
              atol rtol method kwargs),
     apply_boundary_condition m).
Proof.
  unfold calculate_solution, outcome, calls.
  destruct (boundary_conditions _ _ _ _ _ _ _ _ _ _ _ _ _) as [log r]; simpl.
  intros ->. simpl. rewrite app_nil_r. reflexivity.
Qed.

Lemma calculate_solution_calls (eta_0 eta_H eta_B Fr : R) (max_z : option R)
    (Kappa atol rtol : R) (method : string) (kwargs : list (string * pyval)) :
  calls (calculate_solution mu mu_prime solve_ivp eta_0 eta_H eta_B Fr max_z Kappa
           atol rtol method kwargs)
  = solve_system_calls mu_prime eta_0 eta_H 0.4 (effective_max_z max_z eta_H) true
      (mkKwargs atol rtol method kwargs).
Proof.
  rewrite <- (boundary_conditions_calls eta_0 eta_H eta_B Fr max_z Kappa).
  unfold calculate_solution, calls, bind, lift.
  destruct (boundary_conditions _ _ _ _ _ _ _ _ _ _ _ _ _) as [log [e | m]];
    cbn [fst]; [reflexivity | apply app_nil_r].
Qed.

Lemma calculate_solution_outcome (eta_0 eta_H eta_B Fr : R) (max_z : option R)
    (Kappa atol rtol : R) (method : string) (kwargs : list (string * pyval)) (m : matching) :
  outcome (boundary_conditions mu mu_prime solve_ivp eta_0 eta_H eta_B Fr max_z Kappa
             atol rtol method kwargs) = inr m ->
  outcome (calculate_solution mu mu_prime solve_ivp eta_0 eta_H eta_B Fr max_z Kappa
             atol rtol method kwargs) = apply_boundary_condition m.
Proof.
  intros H. rewrite (calculate_solution_run _ _ _ _ _ _ _ _ _ _ m H). reflexivity.
Qed.

(** C1.  Whatever the parameters, [_solve_system] calls the solver four
    times and returns four results: the list of initial conditions has four
    entries, so the loop index never reaches [4] and the branch that hands
    [_func_delta] to the solver is never taken.  The fourth call integrates
    the homogeneous field [_func] from the zero state; there is no fifth
    member, and no member produced by the [S_delta] forcing. *)
Theorem solve_system_has_no_fifth_member
    (eta_0 eta_H Kappa max_z : R) (dense_output : bool) (kwargs : solver_kwargs) :
  let run := _solve_system mu_prime solve_ivp eta_0 eta_H Kappa max_z dense_output kwargs in
  length (calls run) = 4%nat
  /\ Forall (fun c => ivp_fun c <> Fn_func_delta) (calls run)
  /\ nth_error (calls run) 3
     = Some (mkCall Fn_func (0, max_z) vec4_zero (eta_H, eta_0, Kappa) dense_output kwargs)
  /\ nth_error (calls run) 4 = None
  /\ exists Results, outcome run = inr Results
                     /\ length Results = 4%nat /\ nth_error Results 4 = None.
Proof.
  intros run. unfold run. rewrite solve_system_run.
  unfold calls, outcome, solve_system_calls. cbn [fst snd].
  repeat split.
  - repeat constructor; cbn [ivp_fun]; discriminate.
  - eexists; split; [reflexivity | split; reflexivity].
Qed.

(** C3.  On valid parameters and for every [Kappa]: the calls
    [calculate_solution] makes to the solver are those of [_solve_system]
    run with the closure constant [0.4], so each carries [0.4] (and the
    first starts from [-mu_prime(0, eta_0, 0.4)]), while the right-hand
    side [b] is built on [mu(max_z, eta_0, Kappa)]; when [Kappa] differs
    from [0.4], no call carries the constant [b] is built with. *)
Theorem Kappa_not_forwarded (eta_0 eta_H eta_B Fr : R) (max_z : option R)
    (Kappa atol rtol : R) (method : string) (kwargs : list (string * pyval))
    (Hvalid : valid_parameters eta_0 eta_H eta_B Fr (effective_max_z max_z eta_H)) :
  let z := effective_max_z max_z eta_H in
  let run := calculate_solution mu mu_prime solve_ivp eta_0 eta_H eta_B Fr max_z Kappa
               atol rtol method kwargs in
  calls run
  = solve_system_calls mu_prime eta_0 eta_H 0.4 z true (mkKwargs atol rtol method kwargs)
  /\ Forall (fun c => ivp_Kappa c = 0.4) (calls run)
  /\ (exists m,
        outcome (boundary_conditions mu mu_prime solve_ivp eta_0 eta_H eta_B Fr max_z Kappa
                   atol rtol method kwargs) = inr m
        /\ mt_b m = [(Ci * RtoC (mu z eta_0 Kappa))%C;
                     RtoC (1 / z);
                     (RtoC (mu z eta_0 Kappa ^ 2)
                      * (q1_value eta_B + RtoC (1 / (eta_H * Fr ^ 2))))%C])
  /\ (Kappa <> 0.4 -> Forall (fun c => ivp_Kappa c <> Kappa) (calls run)).
Proof.
  intros z run. unfold run. rewrite calculate_solution_calls. fold z.
  split; [reflexivity | ]. split; [ | split].
  - repeat constructor.
  - rewrite boundary_conditions_run by exact Hvalid. eexists; split; reflexivity.
  - intros HK. repeat constructor; unfold ivp_Kappa; cbn [ivp_args snd]; congruence.
Qed.

(** C4.  On valid parameters, the right-hand side [calculate_solution]
    builds is [b = [i*mu(max_z, eta_0, Kappa), 1/max_z,
    mu(max_z, eta_0, Kappa)^2 * (q1 + 1/(eta_H*Fr^2))]], where [q1] is the
    value of [_q1] at [eta_B]; it is the [b] of every frame
    [calculate_solution] returns. *)
Theorem boundary_right_hand_side (eta_0 eta_H eta_B Fr : R) (max_z : option R)
    (Kappa atol rtol : R) (method : string) (kwargs : list (string * pyval))
    (Hvalid : valid_parameters eta_0 eta_H eta_B Fr (effective_max_z max_z eta_H)) :
  let z := effective_max_z max_z eta_H in
  exists m q1,
    outcome (boundary_conditions mu mu_prime solve_ivp eta_0 eta_H eta_B Fr max_z Kappa
               atol rtol method kwargs) = inr m
    /\ _q1 (Scalar eta_B) = inr (Scalar q1)
    /\ mt_b m = [(Ci * RtoC (mu z eta_0 Kappa))%C;
                 RtoC (1 / z);
                 (RtoC (mu z eta_0 Kappa ^ 2) * (q1 + RtoC (1 / (eta_H * Fr ^ 2))))%C]
    /\ forall fr,
         outcome (calculate_solution mu mu_prime solve_ivp eta_0 eta_H eta_B Fr max_z Kappa
                    atol rtol method kwargs) = inr fr ->
         fr_matching fr = m.
Proof.
  intros z. rewrite boundary_conditions_run by exact Hvalid. fold z.
  eexists; exists (q1_value eta_B). split; [reflexivity | ].
  split; [apply q1_scalar_value; destruct Hvalid as [_ [_ [_ [HB _]]]]; exact HB | ].
  split; [reflexivity | ].
  intros fr Hfr.
  erewrite calculate_solution_outcome in Hfr
    by (rewrite boundary_conditions_run by exact Hvalid; reflexivity).
  apply apply_boundary_condition_matching in Hfr. exact Hfr.
Qed.

(** C2 (as amended).  On valid parameters, [To_apply] holds one column per
    solution returned by [_solve_system], the last three components of its
    dense output at [max_z]; the square array [To_apply[:, :-1]] inverted by
    [calculate_solution] holds the columns of the forced solution and of the
    two homogeneous solutions, and [To_apply[:, -1]], taken to the
    right-hand side, is the column of the last solution returned; when the
    square array is not singular, [calculate_solution] returns, and its
    [pars] solve [To_apply[:, :-1] . pars = b - To_apply[:, -1]]. *)
Theorem matching_system_columns (eta_0 eta_H eta_B Fr : R) (max_z : option R)
    (Kappa atol rtol : R) (method : string) (kwargs : list (string * pyval))
    (Hvalid : valid_parameters eta_0 eta_H eta_B Fr (effective_max_z max_z eta_H)) :
  let z := effective_max_z max_z eta_H in
  let kw := mkKwargs atol rtol method kwargs in
  let forced :=
    solve_ivp (mkCall Fn_func1 (0, z) (mkVec4 (RtoC (- mu_prime 0 eta_0 0.4)) C0 C0 C0)
                 (eta_H, eta_0, 0.4) true kw) in
  let homogeneous_1 :=
    solve_ivp (mkCall Fn_func (0, z) (mkVec4 C0 C0 C1 C0) (eta_H, eta_0, 0.4) true kw) in
  let homogeneous_2 :=
    solve_ivp (mkCall Fn_func (0, z) (mkVec4 C0 C0 C0 C1) (eta_H, eta_0, 0.4) true kw) in
  exists m last_solution,
    outcome (boundary_conditions mu mu_prime solve_ivp eta_0 eta_H eta_B Fr max_z Kappa
               atol rtol method kwargs) = inr m
    /\ mt_Results m = [forced; homogeneous_1; homogeneous_2; last_solution]
    /\ mt_To_apply m
       = np_transpose (mkArray2 3 (map (fun X => tail3 X z) (mt_Results m)))
    /\ drop_last_column (mt_To_apply m)
       = np_transpose (mkArray2 3 [tail3 forced z; tail3 homogeneous_1 z;
                                   tail3 homogeneous_2 z])
    /\ last_column (mt_To_apply m) = tail3 last_solution z
    /\ (matching_det m <> C0 ->
        exists fr,
          outcome (calculate_solution mu mu_prime solve_ivp eta_0 eta_H eta_B Fr max_z
                     Kappa atol rtol method kwargs) = inr fr
          /\ fr_matching fr = m
          /\ np_dot_vec (drop_last_column (mt_To_apply m)) (fr_pars fr)
             = np_sub_vec (mt_b m) (last_column (mt_To_apply m))).
Proof.
  intros z kw forced homogeneous_1 homogeneous_2.
  pose proof (boundary_conditions_run eta_0 eta_H eta_B Fr max_z Kappa atol rtol
                method kwargs Hvalid) as Hrun.
  cbv zeta in Hrun. fold z kw in Hrun.
  unfold solve_system_calls in Hrun. cbn [map] in Hrun.
  fold forced homogeneous_1 homogeneous_2 in Hrun.
  eexists; eexists. rewrite Hrun at 1. cbn [outcome snd mt_Results mt_To_apply mt_b].
  split; [reflexivity | ]. split; [reflexivity | ]. split; [reflexivity | ].
  split; [reflexivity | ]. split; [reflexivity | ].
  intros Hdet.
  erewrite calculate_solution_outcome by (rewrite Hrun; reflexivity).
  exact (proj2 (apply_boundary_condition_cases z _ _ _ _ _ _ _) Hdet).
Qed.

(** C8 (as amended).  [calculate_solution] checks none of its parameters:
    whatever they are, it goes straight to [_solve_system], which hands the
    forced problem over [[0, max_z]] to the solver as its first call; it
    never ends on an exception without having called the solver. *)
Theorem no_parameter_validation (eta_0 eta_H eta_B Fr : R) (max_z : option R)
    (Kappa atol rtol : R) (method : string) (kwargs : list (string * pyval)) :
  let run := calculate_solution mu mu_prime solve_ivp eta_0 eta_H eta_B Fr max_z Kappa
               atol rtol method kwargs in
  hd_error (calls run)
  = Some (mkCall Fn_func1 (0, effective_max_z max_z eta_H)
            (mkVec4 (RtoC (- mu_prime 0 eta_0 0.4)) C0 C0 C0)
            (eta_H, eta_0, 0.4) true (mkKwargs atol rtol method kwargs))
  /\ ~ rejected_before_integration run.
Proof.
  intros run. unfold rejected_before_integration, run.
  rewrite calculate_solution_calls.
  split; [reflexivity | ].
  intros [Hnil _]. discriminate Hnil.
Qed.

Lemma singular_matrix_reports_nothing (params : list R) :
  ~ reports_conditioning singular_matrix params.
Proof.
  intros [cond [Hin _]]. cbn in Hin. destruct Hin as [H | []]. discriminate H.
Qed.

(** C9 (as amended).  On valid parameters, [calculate_solution] computes no
    condition number and reports none.  An exception of [numpy.linalg.inv]
    on [To_apply[:, :-1]] ends the call as it is: it is the
    [LinAlgError("Singular matrix")] NumPy raises by itself, whose only
    argument is that message.  Whenever [numpy.linalg.inv] returns, however
    close to singular the array, [calculate_solution] returns its
    coefficients. *)
Theorem matching_failure_is_singular_matrix (eta_0 eta_H eta_B Fr : R) (max_z : option R)
    (Kappa atol rtol : R) (method : string) (kwargs : list (string * pyval))
    (Hvalid : valid_parameters eta_0 eta_H eta_B Fr (effective_max_z max_z eta_H)) :
  let run := calculate_solution mu mu_prime solve_ivp eta_0 eta_H eta_B Fr max_z Kappa
               atol rtol method kwargs in
  exists m,
    outcome (boundary_conditions mu mu_prime solve_ivp eta_0 eta_H eta_B Fr max_z Kappa
               atol rtol method kwargs) = inr m
    /\ (forall e,
          np_linalg_inv (drop_last_column (mt_To_apply m)) = inl e ->
          outcome run = inl e
          /\ e = singular_matrix
          /\ forall params, ~ reports_conditioning e params)
    /\ (forall inv,
          np_linalg_inv (drop_last_column (mt_To_apply m)) = inr inv ->
          exists fr, outcome run = inr fr /\ length (fr_coeffs fr) = 4%nat)
    /\ exn_args singular_matrix = [PyStr "Singular matrix"].
Proof.
  intros run.
  pose proof (boundary_conditions_run eta_0 eta_H eta_B Fr max_z Kappa atol rtol
                method kwargs Hvalid) as Hrun.
  cbv zeta in Hrun. unfold solve_system_calls in Hrun. cbn [map] in Hrun.
  eexists. rewrite Hrun at 1. cbn [outcome snd].
  split; [reflexivity | ].
  unfold run. erewrite calculate_solution_outcome by (rewrite Hrun; reflexivity).
  split; [ | split; [ | reflexivity]].
  - intros e He.
    destruct (proj1 (apply_boundary_condition_inv _ _ _ _ _ _ _ _) e He) as [Happ ->].
    split; [exact Happ | ]. split; [reflexivity | exact singular_matrix_reports_nothing].
  - intros inv Hinv.
    destruct (proj2 (apply_boundary_condition_inv _ _ _ _ _ _ _ _) inv Hinv)
      as [fr [Hfr [_ Hlen]]].
    exists fr; split; [exact Hfr | exact Hlen].
Qed.

End Solver.

(** ** The sample environment *)

(** With the Euler solver, the determinant of [To_apply[:, :-1]] is
    [i * max_z * mu_prime(0, eta_0, 0.4) * (1 + max_z^2)]. *)
Lemma euler_matching_det (mu mu_prime : R -> R -> R -> R)
    (eta_0 eta_H eta_B Fr : R) (max_z : option R)
    (Kappa atol rtol : R) (method : string) (kwargs : list (string * pyval)) :
  valid_parameters eta_0 eta_H eta_B Fr (effective_max_z max_z eta_H) ->
  let z := effective_max_z max_z eta_H in
  exists m,
    outcome (boundary_conditions mu mu_prime (euler_solve_ivp mu mu_prime)
               eta_0 eta_H eta_B Fr max_z Kappa atol rtol method kwargs) = inr m
    /\ matching_det m = mkC 0 (z * mu_prime 0 eta_0 0.4 * (1 + z * z)).
Proof.
  intros Hvalid z. rewrite boundary_conditions_run by exact Hvalid. fold z.
  eexists; split; [reflexivity | ].
  unfold matching_det, solve_system_calls, drop_last_column. cbn [map mt_To_apply].
  unfold tail3, euler_solve_ivp, np_transpose, column.
  cbn [ivp_args ivp_t_span fst ivp_fun ivp_y0 field_fun sol].
  unfold _func1, _func, _P, _S, np_dot_vec, np_add_vec, np_squeeze.
  cbn [ncols rows length vec4_list Nat.eqb map zip_with seq nth tl removelast
       vec4_add vec4_scale v_0 v_1 v_2 v_3 vec4_zero].
  rewrite det_3x3. unfold det3, dotp.
  cbn [zip_with Csum fold_right vec4_list].
  apply complex_eq; cbn [Re Im Cadd Cmul Csub Cneg C0 C1 Ci RtoC v_0 v_1 v_2 v_3]; ring.
Qed.

(** The scenario of the specification: [eta_0 = 1e-5], [eta_H = 1000],
    [eta_B = 0.5], [Fr = 1], the default cutoff height. *)
Lemma scenario_valid : valid_parameters 1e-5 1000 0.5 1 (effective_max_z None 1000).
Proof. unfold valid_parameters, effective_max_z. lra. Qed.

Lemma scenario_det_nonzero :
  mkC 0 (effective_max_z None 1000 * mu_prime_log 0 1e-5 0.4
         * (1 + effective_max_z None 1000 * effective_max_z None 1000)) <> C0.
Proof.
  unfold effective_max_z, mu_prime_log. intros H.
  apply complex_eq_inv in H. destruct H as [_ H]. cbn [Im C0 RtoC] in H. lra.
Qed.

(** C2, counterexample.  In the scenario of the specification, with the
    Euler solver: the solutions number four, so the system the
    specification words (columns of solutions 2, 3 and 5; solution 1 to the
    right-hand side) does not exist, and the column the code takes to the
    right-hand side is not that of the forced solution. *)
Lemma spec_matching_system_differs :
  exists m,
    outcome (boundary_conditions mu_log mu_prime_log (euler_solve_ivp mu_log mu_prime_log)
               1e-5 1000 0.5 1 None 0.4 1e-10 1e-10 "DOP853" []) = inr m
    /\ spec_matching_system (mt_Results m) (mt_max_z m)
       <> Some (drop_last_column (mt_To_apply m), last_column (mt_To_apply m))
    /\ last_column (mt_To_apply m) <> tail3 (hd (mkOdeResult (fun _ => vec4_zero)) (mt_Results m)) (mt_max_z m).
Proof.
  rewrite boundary_conditions_run by exact scenario_valid.
  eexists; split; [reflexivity | ].
  cbn [mt_Results mt_To_apply mt_max_z]. unfold solve_system_calls. cbn [map hd].
  split; [cbn [spec_matching_system]; discriminate | ].
  unfold last_column, tail3, euler_solve_ivp, np_transpose, column.
  cbn [ivp_args ivp_t_span fst ivp_fun ivp_y0 field_fun sol].
  unfold _func1, _func, _P, _S, np_dot_vec, np_add_vec, np_squeeze, dotp.
  cbn [ncols rows length vec4_list Nat.eqb map zip_with seq nth tl last
       vec4_add vec4_scale v_0 v_1 v_2 v_3 vec4_zero Csum fold_right].
  intros H. apply (f_equal (fun l => Im (hd C0 l))) in H.
  cbn [hd Re Im Cadd Cmul Csub Cneg C0 C1 Ci RtoC] in H.
  unfold effective_max_z, mu_prime_log in H. lra.
Qed.

Lemma matching_system_columns_witness :
  exists fr,
    outcome (calculate_solution mu_log mu_prime_log (euler_solve_ivp mu_log mu_prime_log)
               1e-5 1000 0.5 1 None 0.4 1e-10 1e-10 "DOP853" []) = inr fr
    /\ np_dot_vec (drop_last_column (mt_To_apply (fr_matching fr))) (fr_pars fr)
       = np_sub_vec (mt_b (fr_matching fr)) (last_column (mt_To_apply (fr_matching fr))).
Proof.
  destruct (matching_system_columns mu_log mu_prime_log (euler_solve_ivp mu_log mu_prime_log)
              1e-5 1000 0.5 1 None 0.4 1e-10 1e-10 "DOP853" [] scenario_valid)
    as [m [last_solution [Hm [_ [_ [_ [_ Hsolve]]]]]]].
  destruct (euler_matching_det mu_log mu_prime_log 1e-5 1000 0.5 1 None 0.4 1e-10 1e-10
              "DOP853" [] scenario_valid) as [m' [Hm' Hdet]].
  rewrite Hm in Hm'. injection Hm' as <-.
  destruct Hsolve as [fr [Hfr [Hfm Hpars]]].
  - rewrite Hdet. exact scenario_det_nonzero.
  - exists fr. rewrite Hfm. split; [exact Hfr | exact Hpars].
Defined.

Lemma Kappa_not_forwarded_witness :
  Forall (fun c => ivp_Kappa c <> 1)
    (calls (calculate_solution mu_log mu_prime_log (euler_solve_ivp mu_log mu_prime_log)
              1e-5 1000 0.5 1 None 1 1e-10 1e-10 "DOP853" [])).
Proof.
  assert (H : 1 <> 0.4) by lra.
  exact (proj2 (proj2 (proj2
           (Kappa_not_forwarded mu_log mu_prime_log (euler_solve_ivp mu_log mu_prime_log)
              1e-5 1000 0.5 1 None 1 1e-10 1e-10 "DOP853" [] scenario_valid))) H).
Defined.

Lemma boundary_right_hand_side_witness :
  exists m q1,
    outcome (boundary_conditions mu_log mu_prime_log (euler_solve_ivp mu_log mu_prime_log)
               1e-5 1000 0.5 1 None 0.4 1e-10 1e-10 "DOP853" []) = inr m
    /\ _q1 (Scalar 0.5) = inr (Scalar q1)
    /\ mt_b m = [(Ci * RtoC (mu_log (effective_max_z None 1000) 1e-5 0.4))%C;
                 RtoC (1 / effective_max_z None 1000);
                 (RtoC (mu_log (effective_max_z None 1000) 1e-5 0.4 ^ 2)
                  * (q1 + RtoC (1 / (1000 * 1 ^ 2))))%C].
Proof.
  destruct (boundary_right_hand_side mu_log mu_prime_log
              (euler_solve_ivp mu_log mu_prime_log)
              1e-5 1000 0.5 1 None 0.4 1e-10 1e-10 "DOP853" [] scenario_valid)
    as [m [q1 [Hm [Hq [Hb _]]]]].
  exists m, q1. split; [exact Hm | split; [exact Hq | exact Hb]].
Defined.

(** C8, counterexample.  With [eta_0 = 1], [eta_H = 1] and [max_z = 2], a
    cutoff height above the boundary-layer height, [calculate_solution]
    hands the forced problem over [[0, 2]] to the solver: the parameters
    are not rejected before the integration. *)
Lemma invalid_parameters_not_rejected :
  invalid_parameters 1 1 2
  /\ hd_error (calls (calculate_solution mu_log mu_prime_log
                        (euler_solve_ivp mu_log mu_prime_log)
                        1 1 0.5 1 (Some 2) 0.4 1e-10 1e-10 "DOP853" []))
     = Some (mkCall Fn_func1 (0, 2) (mkVec4 (RtoC (- mu_prime_log 0 1 0.4)) C0 C0 C0)
               (1, 1, 0.4) true (mkKwargs 1e-10 1e-10 "DOP853" []))
  /\ ~ rejected_before_integration
         (calculate_solution mu_log mu_prime_log (euler_solve_ivp mu_log mu_prime_log)
            1 1 0.5 1 (Some 2) 0.4 1e-10 1e-10 "DOP853" []).
Proof.
  split; [unfold invalid_parameters; lra | ].
  unfold rejected_before_integration. rewrite calculate_solution_calls.
  split; [reflexivity | ]. intros [Hnil _]. discriminate Hnil.
Qed.

(** A cutoff height of [1e-30]: valid, and so low that the forced
    solution, whose last three components start from zero, has not left a
    neighbourhood of zero at [max_z]. *)
Lemma tiny_span_valid :
  valid_parameters 1e-5 1000 0.5 1 (effective_max_z (Some 1e-30) 1000).
Proof. unfold valid_parameters, effective_max_z. lra. Qed.

(** C9, counterexample.  With the parameters of the scenario and the
    cutoff height [max_z = 1e-30], with the Euler solver: the first column
    of [To_apply[:, :-1]] is within [1e-24] of zero while the array has an
    entry of modulus one, so its condition number exceeds [1e23]; yet
    [calculate_solution] returns, with no error and nothing reported. *)
Lemma ill_conditioned_matching_not_reported :
  exists m fr,
    outcome (boundary_conditions mu_log mu_prime_log (euler_solve_ivp mu_log mu_prime_log)
               1e-5 1000 0.5 1 (Some 1e-30) 0.4 1e-10 1e-10 "DOP853" []) = inr m
    /\ nearly_singular 1e-24 (drop_last_column (mt_To_apply m))
    /\ outcome (calculate_solution mu_log mu_prime_log (euler_solve_ivp mu_log mu_prime_log)
                  1e-5 1000 0.5 1 (Some 1e-30) 0.4 1e-10 1e-10 "DOP853" []) = inr fr.
Proof.
  destruct (euler_matching_det mu_log mu_prime_log 1e-5 1000 0.5 1 (Some 1e-30) 0.4
              1e-10 1e-10 "DOP853" [] tiny_span_valid) as [m [Hm Hdet]].
  pose proof Hm as Hm'.
  rewrite boundary_conditions_run in Hm' by exact tiny_span_valid.
  cbn [outcome snd] in Hm'. injection Hm' as Hm'.
  unfold solve_system_calls in Hm'. cbn [map] in Hm'.
  assert (Hnz : matching_det m <> C0).
  { rewrite Hdet. unfold effective_max_z, mu_prime_log. intros H.
    apply complex_eq_inv in H. destruct H as [_ H]. cbn [Im C0 RtoC] in H. lra. }
  rewrite <- Hm' in Hnz.
  destruct (proj2 (apply_boundary_condition_cases _ _ _ _ _ _ _ _) Hnz) as [fr [Hfr _]].
  exists m, fr. split; [exact Hm | ]. split.
  - rewrite <- Hm'. cbn [mt_To_apply]. clear.
    unfold nearly_singular, drop_last_column, np_transpose, column, dotp.
    cbn [ncols rows length map seq nth removelast pred vec4_list v_0 v_1 v_2 v_3
         zip_with Csum fold_right].
    assert (Hm1 : mu_prime_log 0 1e-5 0.4 = 250000) by (unfold mu_prime_log; lra).
    assert (Hm0 : mu_log 0 1e-5 0.4 = 0).
    { unfold mu_log. replace (1 + 0 / 1e-5) with 1 by lra. rewrite ln_1. lra. }
    rewrite Hm1, Hm0.
    split.
    + exists 0%nat. split; [lia | ].
      cbn [nth].
      repeat (apply Forall_cons || apply Forall_nil).
      all: unfold Cnorm2; cbn [Re Im Cadd Cmul Csub Cneg C0 C1 Ci RtoC]; lra.
    + eexists; eexists. split; [right; left; reflexivity | ].
      split; [right; left; reflexivity | ].
      unfold Cnorm2; cbn [Re Im Cadd Cmul Csub Cneg C0 C1 Ci RtoC]. lra.
  - rewrite (calculate_solution_outcome _ _ _ _ _ _ _ _ _ _ _ _ _ m Hm).
    rewrite <- Hm'. exact Hfr.
Qed.

Lemma matching_failure_is_singular_matrix_witness :
  exists m,
    outcome (boundary_conditions mu_log mu_prime_log (euler_solve_ivp mu_log mu_prime_log)
               1e-5 1000 0.5 1 None 0.4 1e-10 1e-10 "DOP853" []) = inr m
    /\ forall inv,
         np_linalg_inv (drop_last_column (mt_To_apply m)) = inr inv ->
         exists fr,
           outcome (calculate_solution mu_log mu_prime_log
                      (euler_solve_ivp mu_log mu_prime_log)
                      1e-5 1000 0.5 1 None 0.4 1e-10 1e-10 "DOP853" []) = inr fr
           /\ length (fr_coeffs fr) = 4%nat.
Proof.
  destruct (matching_failure_is_singular_matrix mu_log mu_prime_log
              (euler_solve_ivp mu_log mu_prime_log)
              1e-5 1000 0.5 1 None 0.4 1e-10 1e-10 "DOP853" [] scenario_valid)
    as [m [Hm [_ [Hreturns _]]]].
  exists m. split; [exact Hm | exact Hreturns].
Defined.

(** ** The vector fields on a batch of states *)

Lemma nth_map_seq {A : Type} (f : nat -> A) (n j : nat) (d : A) :
  (j < n)%nat -> nth j (map f (seq 0 n)) d = f j.
Proof.
  intros Hj. rewrite (nth_indep _ d (f 0%nat)) by (rewrite length_map, length_seq; exact Hj).
  rewrite map_nth, seq_nth by exact Hj. reflexivity.
Qed.

Lemma nth_repeat_lt {A : Type} (a d : A) (n j : nat) :
  (j < n)%nat -> nth j (repeat a n) d = a.
Proof.
  revert j; induction n as [| n IH]; intros [| j] Hj; simpl; try lia; auto.
  apply IH; lia.
Qed.

Lemma nth_zip_with_Cadd (l m : list complex) (j : nat) :
  (j < length l)%nat -> (j < length m)%nat ->
  nth j (zip_with Cadd l m) C0 = (nth j l C0 + nth j m C0)%C.
Proof.
  revert m j; induction l as [| a l IH]; intros [| b m] [| j] Hl Hm;
    simpl in *; try lia; auto.
  apply IH; lia.
Qed.

Section Fields.

Variable mu : R -> R -> R -> R.
Variable mu_prime : R -> R -> R -> R.

(** C10.  Each vector field accepts a batch of [N] states, an array of four
    rows and [N] columns, and returns an array of the same shape; column
    [j] of the result is the value of the field on the single state held
    in column [j] of the batch, the forcing being added to every column. *)
Theorem batch_columns (f : field) (eta eta_H eta_0 Kappa : R) (N : nat)
    (X : list (list complex))
    (Hrows : length X = 4%nat) (Hcols : Forall (fun r => length r = N) X) :
  exists Y,
    field_fun mu mu_prime f eta (Batch (mkArray2 N X)) eta_H eta_0 Kappa = inr (Batch Y)
    /\ ncols Y = N /\ length (rows Y) = 4%nat
    /\ forall j, (j < N)%nat ->
         field_fun mu mu_prime f eta (Single (column j (mkArray2 N X))) eta_H eta_0 Kappa
         = inr (Single (column j Y)).
Proof.
  destruct X as [| r0 [| r1 [| r2 [| r3 [| r4 X]]]]]; simpl in Hrows; try discriminate.
  apply Forall_cons_iff in Hcols as [H0 Hcols].
  apply Forall_cons_iff in Hcols as [H1 Hcols].
  apply Forall_cons_iff in Hcols as [H2 Hcols].
  apply Forall_cons_iff in Hcols as [H3 _].
  destruct f; cbn [field_fun]; unfold _func, _func1, _func_delta, np_dot_mat, np_dot_vec,
    np_add_mat, np_add_vec, np_squeeze, np_transpose, np_tile_rows, _P, _S, _S_delta, column.
  all: cbn [ncols rows length Nat.eqb andb map seq zip_with nth repeat].
  all: rewrite ?length_map, ?length_seq, ?repeat_length, ?Nat.eqb_refl; cbn [andb].
  all: eexists; split; [reflexivity | ]; cbn [ncols rows length map].
  all: split; [reflexivity | ]; split; [reflexivity | ].
  all: intros j Hj.
  all: rewrite ?nth_zip_with_Cadd by (rewrite ?length_map, ?length_seq, ?repeat_length; lia).
  all: rewrite ?nth_map_seq by exact Hj.
  all: rewrite ?map_repeat, ?nth_repeat_lt by lia.
  all: reflexivity.
Qed.

End Fields.

Lemma batch_columns_witness :
  exists Y,
    field_fun mu_log mu_prime_log Fn_func1 1
      (Batch (mkArray2 2 [[C1; C0]; [C0; C1]; [C0; C0]; [Ci; Ci]])) 1000 1e-5 0.4
    = inr (Batch Y)
    /\ field_fun mu_log mu_prime_log Fn_func1 1 (Single [C0; C1; C0; Ci]) 1000 1e-5 0.4
       = inr (Single (column 1 Y)).
Proof.
  assert (Hcols : Forall (fun r : list complex => length r = 2%nat)
                    [[C1; C0]; [C0; C1]; [C0; C0]; [Ci; Ci]]).
  { repeat (apply Forall_cons; [reflexivity | ]). apply Forall_nil. }
  destruct (batch_columns mu_log mu_prime_log Fn_func1 1 1000 1e-5 0.4 2
              [[C1; C0]; [C0; C1]; [C0; C0]; [Ci; Ci]] eq_refl Hcols)
    as [Y [HY [_ [_ Hcol]]]].
  exists Y. split; [exact HY | exact (Hcol 1%nat (le_n 2))].
Defined.

(** ** Uniqueness of the zero solution *)

Lemma derivable_pt_lim_linear (a c : R) : derivable_pt_lim (fun s => a * s) c a.
Proof.
  intros eps Heps. exists (mkposreal 1 Rlt_0_1). intros h Hh _.
  replace ((a * (c + h) - a * c) / h - a) with 0 by (field; exact Hh).
  rewrite Rabs_R0; exact Heps.
Qed.

(** A non-negative function that starts at zero and whose derivative is
    at most [L] times the function stays at zero. *)
Lemma gronwall_zero (N N' : R -> R) (L T : R) :
  (forall t, 0 <= t <= T -> derivable_pt_lim N t (N' t)) ->
  (forall t, 0 <= t <= T -> N' t <= L * N t) ->
  (forall t, 0 <= t <= T -> 0 <= N t) ->
  N 0 = 0 ->
  forall t, 0 <= t <= T -> N t = 0.
Proof.
  intros Hder Hle Hpos H0 t [Ht0 HtT].
  destruct (Req_dec_T t 0) as [-> | Hne]; [exact H0 | ].
  assert (Ht : 0 < t) by lra.
  set (h := fun s => N s * exp (- L * s)).
  set (h' := fun s => N' s * exp (- L * s) + N s * (exp (- L * s) * (- L))).
  assert (Hh : forall c, 0 <= c <= t -> derivable_pt_lim h c (h' c)).
  { intros c Hc. unfold h, h'.
    apply (derivable_pt_lim_mult N (fun s => exp (- L * s))).
    - apply Hder; lra.
    - apply (derivable_pt_lim_comp (fun s => - L * s) exp).
      + apply derivable_pt_lim_linear.
      + apply derivable_pt_lim_exp. }
  destruct (MVT_cor2 h h' 0 t Ht Hh) as [c [Heq Hc]].
  assert (Hh'c : h' c <= 0).
  { unfold h'. pose proof (exp_pos (- L * c)) as He.
    assert (Hc' : 0 <= c <= T) by lra.
    specialize (Hle c Hc'). nra. }
  assert (Hht : h t <= 0).
  { assert (h 0 = 0) by (unfold h; rewrite H0; ring). nra. }
  unfold h in Hht. pose proof (exp_pos (- L * t)) as He.
  assert (HNt : 0 <= N t) by (apply Hpos; lra).
  nra.
Qed.


Lemma derivable_pt_lim_Cnorm2 (x : R -> complex) (t : R) (d : complex) :
  complex_derivative x t d ->
  derivable_pt_lim (fun s => Cnorm2 (x s)) t (2 * (Re (x t) * Re d + Im (x t) * Im d)).
Proof.
  intros [Hre Him]. unfold Cnorm2.
  replace (2 * (Re (x t) * Re d + Im (x t) * Im d))
    with ((Re d * Re (x t) + Re (x t) * Re d) + (Im d * Im (x t) + Im (x t) * Im d))
    by ring.
  apply (derivable_pt_lim_plus (fun s => Re (x s) * Re (x s)) (fun s => Im (x s) * Im (x s))).
  - apply (derivable_pt_lim_mult (fun s => Re (x s)) (fun s => Re (x s))); exact Hre.
  - apply (derivable_pt_lim_mult (fun s => Im (x s)) (fun s => Im (x s))); exact Him.
Qed.

Lemma derivable_pt_lim_norm2 (X : R -> vec4) (t : R) (D : vec4) :
  vec4_derivative X t D ->
  derivable_pt_lim (fun s => vec4_norm2 (X s)) t
    (2 * (Re (v_0 (X t)) * Re (v_0 D) + Im (v_0 (X t)) * Im (v_0 D)
          + Re (v_1 (X t)) * Re (v_1 D) + Im (v_1 (X t)) * Im (v_1 D)
          + Re (v_2 (X t)) * Re (v_2 D) + Im (v_2 (X t)) * Im (v_2 D)
          + Re (v_3 (X t)) * Re (v_3 D) + Im (v_3 (X t)) * Im (v_3 D))).
Proof.
  intros [H0 [H1 [H2 H3]]]. unfold vec4_norm2.
  apply derivable_pt_lim_Cnorm2 in H0, H1, H2, H3.
  match goal with |- derivable_pt_lim _ _ ?l =>
    replace l with
      (2 * (Re (v_0 (X t)) * Re (v_0 D) + Im (v_0 (X t)) * Im (v_0 D))
       + 2 * (Re (v_1 (X t)) * Re (v_1 D) + Im (v_1 (X t)) * Im (v_1 D))
       + 2 * (Re (v_2 (X t)) * Re (v_2 D) + Im (v_2 (X t)) * Im (v_2 D))
       + 2 * (Re (v_3 (X t)) * Re (v_3 D) + Im (v_3 (X t)) * Im (v_3 D))) by ring
  end.
  apply (derivable_pt_lim_plus
           (fun s => Cnorm2 (v_0 (X s)) + Cnorm2 (v_1 (X s)) + Cnorm2 (v_2 (X s)))
           (fun s => Cnorm2 (v_3 (X s)))); [ | exact H3].
  apply (derivable_pt_lim_plus
           (fun s => Cnorm2 (v_0 (X s)) + Cnorm2 (v_1 (X s)))
           (fun s => Cnorm2 (v_2 (X s)))); [ | exact H2].
  apply (derivable_pt_lim_plus
           (fun s => Cnorm2 (v_0 (X s))) (fun s => Cnorm2 (v_1 (X s)))); assumption.
Qed.

Lemma Rabs_le_between (x b : R) : Rabs x <= b -> - b <= x <= b.
Proof. unfold Rabs; destruct (Rcase_abs x); lra. Qed.

Lemma product_bound (a p B : R) : Rabs a <= B -> - (B * Rabs p) <= a * p <= B * Rabs p.
Proof.
  intros Ha. apply Rabs_le_between. rewrite Rabs_mult.
  apply Rmult_le_compat_r; [apply Rabs_pos | exact Ha].
Qed.

(** A bounded entry times a complex number. *)
Lemma Cmul_bound (a x : complex) (B : R) :
  Rabs (Re a) <= B /\ Rabs (Im a) <= B ->
  Rabs (Re (a * x)%C) <= B * (Rabs (Re x) + Rabs (Im x))
  /\ Rabs (Im (a * x)%C) <= B * (Rabs (Re x) + Rabs (Im x)).
Proof.
  intros [Hre Him]. cbn [Re Im Cmul].
  pose proof (product_bound (Re a) (Re x) B Hre).
  pose proof (product_bound (Im a) (Im x) B Him).
  pose proof (product_bound (Re a) (Im x) B Hre).
  pose proof (product_bound (Im a) (Re x) B Him).
  split; apply Rabs_le; lra.
Qed.

(** A row of four bounded entries times a state. *)
Lemma dotp_bound (a0 a1 a2 a3 : complex) (x : vec4) (B : R) :
  Forall (fun z => Rabs (Re z) <= B /\ Rabs (Im z) <= B) [a0; a1; a2; a3] ->
  Rabs (Re (dotp [a0; a1; a2; a3] (vec4_list x))) <= B * vec4_norm1 x
  /\ Rabs (Im (dotp [a0; a1; a2; a3] (vec4_list x))) <= B * vec4_norm1 x.
Proof.
  intros H.
  apply Forall_cons_iff in H as [H0 H]. apply Forall_cons_iff in H as [H1 H].
  apply Forall_cons_iff in H as [H2 H]. apply Forall_cons_iff in H as [H3 _].
  destruct (Cmul_bound a0 (v_0 x) B H0) as [R0 I0].
  destruct (Cmul_bound a1 (v_1 x) B H1) as [R1 I1].
  destruct (Cmul_bound a2 (v_2 x) B H2) as [R2 I2].
  destruct (Cmul_bound a3 (v_3 x) B H3) as [R3 I3].
  apply Rabs_le_between in R0, R1, R2, R3, I0, I1, I2, I3.
  unfold dotp, vec4_norm1. cbn [vec4_list zip_with Csum fold_right].
  cbn [Re Im Cadd C0 RtoC].
  split; apply Rabs_le; lra.
Qed.

Lemma norm1_square (x : vec4) : vec4_norm1 x * vec4_norm1 x <= 8 * vec4_norm2 x.
Proof.
  unfold vec4_norm1, vec4_norm2, Cnorm2.
  assert (Hsq : forall r, r * r = Rabs r * Rabs r).
  { intros r. rewrite <- Rabs_mult. symmetry. apply Rabs_pos_eq. nra. }
  rewrite (Hsq (Re (v_0 x))), (Hsq (Im (v_0 x))), (Hsq (Re (v_1 x))), (Hsq (Im (v_1 x))),
    (Hsq (Re (v_2 x))), (Hsq (Im (v_2 x))), (Hsq (Re (v_3 x))), (Hsq (Im (v_3 x))).
  generalize (Rabs (Re (v_0 x))) (Rabs (Im (v_0 x))) (Rabs (Re (v_1 x)))
    (Rabs (Im (v_1 x))) (Rabs (Re (v_2 x))) (Rabs (Im (v_2 x)))
    (Rabs (Re (v_3 x))) (Rabs (Im (v_3 x))).
  intros a b c d e f g h.
  assert (H2 : forall u v, (u + v) * (u + v) <= 2 * (u * u + v * v)).
  { intros u v. pose proof (Rle_0_sqr (u - v)) as Hs. unfold Rsqr in Hs. lra. }
  pose proof (H2 (a + b + c + d) (e + f + g + h)).
  pose proof (H2 (a + b) (c + d)). pose proof (H2 (e + f) (g + h)).
  pose proof (H2 a b). pose proof (H2 c d). pose proof (H2 e f). pose proof (H2 g h).
  lra.
Qed.

Lemma vec4_list_inj (x y : vec4) : vec4_list x = vec4_list y -> x = y.
Proof.
  destruct x as [a0 a1 a2 a3], y as [b0 b1 b2 b3]; unfold vec4_list; cbn [v_0 v_1 v_2 v_3].
  intros H; injection H as -> -> -> ->; reflexivity.
Qed.

Lemma norm2_zero (x : vec4) : vec4_norm2 x = 0 -> x = vec4_zero.
Proof.
  destruct x as [[a0 b0] [a1 b1] [a2 b2] [a3 b3]].
  unfold vec4_norm2, Cnorm2, vec4_zero, C0, RtoC; cbn [v_0 v_1 v_2 v_3 Re Im].
  intros H.
  assert (a0 = 0) by nra. assert (b0 = 0) by nra.
  assert (a1 = 0) by nra. assert (b1 = 0) by nra.
  assert (a2 = 0) by nra. assert (b2 = 0) by nra.
  assert (a3 = 0) by nra. assert (b3 = 0) by nra.
  subst; reflexivity.
Qed.

Lemma norm2_nonneg (x : vec4) : 0 <= vec4_norm2 x.
Proof. unfold vec4_norm2, Cnorm2. nra. Qed.

Section ZeroSolution.

Variable mu : R -> R -> R -> R.
Variable mu_prime : R -> R -> R -> R.

(** The homogeneous field on a single state: the product [P(eta) . X]. *)
Lemma func_single (eta eta_H eta_0 Kappa : R) (x : vec4) :
  _func mu mu_prime eta (Single (vec4_list x)) eta_H eta_0 Kappa
  = inr (Single (map (fun r => dotp r (vec4_list x))
                   (rows (_P mu mu_prime eta eta_H eta_0 Kappa)))).
Proof. reflexivity. Qed.

(** The homogeneous field vanishes at the zero state. *)
Lemma func_zero (eta eta_H eta_0 Kappa : R) :
  _func mu mu_prime eta (Single (vec4_list vec4_zero)) eta_H eta_0 Kappa
  = inr (Single (vec4_list vec4_zero)).
Proof.
  rewrite func_single. unfold _P, dotp, vec4_zero.
  cbn [rows map vec4_list v_0 v_1 v_2 v_3 zip_with Csum fold_right].
  do 2 f_equal. unfold vec4_list; cbn [v_0 v_1 v_2 v_3].
  repeat (apply f_equal2; [ring | ]). reflexivity.
Qed.

(** Where [P] is bounded, a solution of the homogeneous system that starts
    from the zero state stays there. *)
Lemma homogeneous_zero_unique (eta_H eta_0 Kappa T B : R) (X : R -> vec4) :
  (forall t, 0 <= t <= T -> entries_bounded B (_P mu mu_prime t eta_H eta_0 Kappa)) ->
  X 0 = vec4_zero ->
  (forall t, 0 <= t <= T ->
     exists D, _func mu mu_prime t (Single (vec4_list (X t))) eta_H eta_0 Kappa
               = inr (Single (vec4_list D))
               /\ vec4_derivative X t D) ->
  forall t, 0 <= t <= T -> X t = vec4_zero.
Proof.
  intros HB H0 Hode t Ht.
  apply norm2_zero.
  set (Dk := fun (k : nat) (s : R) =>
               dotp (nth k (rows (_P mu mu_prime s eta_H eta_0 Kappa)) []) (vec4_list (X s))).
  set (N' := fun s =>
    2 * (Re (v_0 (X s)) * Re (Dk 0%nat s) + Im (v_0 (X s)) * Im (Dk 0%nat s)
         + Re (v_1 (X s)) * Re (Dk 1%nat s) + Im (v_1 (X s)) * Im (Dk 1%nat s)
         + Re (v_2 (X s)) * Re (Dk 2%nat s) + Im (v_2 (X s)) * Im (Dk 2%nat s)
         + Re (v_3 (X s)) * Re (Dk 3%nat s) + Im (v_3 (X s)) * Im (Dk 3%nat s))).
  apply (gronwall_zero (fun s => vec4_norm2 (X s)) N' (16 * B) T); try assumption.
  - (* the derivative of the squared norm *)
    intros s Hs. destruct (Hode s Hs) as [D [HD Hder]].
    rewrite func_single in HD.
    assert (HDs : D = mkVec4 (Dk 0%nat s) (Dk 1%nat s) (Dk 2%nat s) (Dk 3%nat s)).
    { apply vec4_list_inj. symmetry.
      exact (f_equal (fun r => match r with inr (Single l) => l | _ => [] end) HD). }
    apply derivable_pt_lim_norm2 in Hder. rewrite HDs in Hder. exact Hder.
  - (* its bound *)
    intros s Hs. specialize (HB s Hs). unfold entries_bounded in HB.
    unfold N', Dk. unfold _P in *. cbn [rows nth] in *.
    apply Forall_cons_iff in HB as [HB0 HB]. apply Forall_cons_iff in HB as [HB1 HB].
    apply Forall_cons_iff in HB as [HB2 HB]. apply Forall_cons_iff in HB as [HB3 _].
    destruct (dotp_bound _ _ _ _ (X s) B HB0) as [R0 I0].
    destruct (dotp_bound _ _ _ _ (X s) B HB1) as [R1 I1].
    destruct (dotp_bound _ _ _ _ (X s) B HB2) as [R2 I2].
    destruct (dotp_bound _ _ _ _ (X s) B HB3) as [R3 I3].
    pose proof (norm1_square (X s)) as Hsq.
    assert (HBpos : 0 <= B).
    { apply Forall_cons_iff in HB0 as [[Hb _] _].
      eapply Rle_trans; [apply Rabs_pos | exact Hb]. }
    set (S1 := vec4_norm1 (X s)) in *.
    assert (HS1 : S1 = Rabs (Re (v_0 (X s))) + Rabs (Im (v_0 (X s)))
                       + Rabs (Re (v_1 (X s))) + Rabs (Im (v_1 (X s)))
                       + Rabs (Re (v_2 (X s))) + Rabs (Im (v_2 (X s)))
                       + Rabs (Re (v_3 (X s))) + Rabs (Im (v_3 (X s)))) by reflexivity.
    pose proof (product_bound _ (Re (v_0 (X s))) _ R0).
    pose proof (product_bound _ (Im (v_0 (X s))) _ I0).
    pose proof (product_bound _ (Re (v_1 (X s))) _ R1).
    pose proof (product_bound _ (Im (v_1 (X s))) _ I1).
    pose proof (product_bound _ (Re (v_2 (X s))) _ R2).
    pose proof (product_bound _ (Im (v_2 (X s))) _ I2).
    pose proof (product_bound _ (Re (v_3 (X s))) _ R3).
    pose proof (product_bound _ (Im (v_3 (X s))) _ I3).
    assert (Hsum : B * S1 * S1 <= 8 * B * vec4_norm2 (X s)) by nra.
    rewrite HS1 in Hsum at 2.
    lra.
  - intros s _. apply norm2_nonneg.
  - rewrite H0. unfold vec4_norm2, vec4_zero, Cnorm2, C0, RtoC. cbn [v_0 v_1 v_2 v_3 Re Im]. ring.
Qed.

End ZeroSolution.

Lemma scale_add_zero (c : complex) :
  vec4_add vec4_zero (vec4_scale c vec4_zero) = vec4_zero.
Proof.
  unfold vec4_add, vec4_scale, vec4_zero. cbn [v_0 v_1 v_2 v_3].
  apply (f_equal4 mkVec4); ring.
Qed.

Lemma weighted_sum_zero (w : nat -> R) (i : nat) (K : list vec4) :
  Forall (eq vec4_zero) K -> weighted_sum w i K = vec4_zero.
Proof.
  revert i. induction K as [| k K IH]; intros i HK; cbn [weighted_sum]; [reflexivity | ].
  apply Forall_cons_iff in HK as [<- HK]. rewrite (IH _ HK).
  unfold vec4_add, vec4_scale, vec4_zero. cbn [v_0 v_1 v_2 v_3].
  apply (f_equal4 mkVec4); ring.
Qed.

Section Placeholder.

Variable mu : R -> R -> R -> R.
Variable mu_prime : R -> R -> R -> R.

Lemma zero_solves_homogeneous (t_span : R * R) (args : R * R * R) (d : bool)
    (kw : solver_kwargs) :
  solves_ivp mu mu_prime (mkCall Fn_func t_span vec4_zero args d kw) (fun _ => vec4_zero).
Proof.
  split; [reflexivity | ]. intros t _. exists vec4_zero.
  cbn [ivp_fun field_fun]. split; [apply func_zero | ].
  unfold vec4_derivative, complex_derivative.
  repeat split; apply derivable_pt_lim_const.
Qed.

Lemma eval_field_zero (c : ivp_call) (t : R) :
  ivp_fun c = Fn_func -> eval_field mu mu_prime c t vec4_zero = vec4_zero.
Proof.
  intros Hf. unfold eval_field. destruct (ivp_args c) as [[eta_H eta_0] Kappa].
  rewrite Hf. cbn [field_fun]. rewrite func_zero. reflexivity.
Qed.

(** An explicit Runge-Kutta solver never leaves the zero state of a field
    that vanishes there: every stage is zero, so is the state after every
    step, and so is the dense output. *)
Lemma rk_stage_loop_zero (f : R -> vec4 -> vec4) (rk : rk_scheme) (t h : R) (n i : nat)
    (K : list vec4) :
  (forall s, f s vec4_zero = vec4_zero) ->
  Forall (eq vec4_zero) K ->
  Forall (eq vec4_zero) (rk_stage_loop f rk t h vec4_zero n i K).
Proof.
  intros Hf. revert i K. induction n as [| n IH]; intros i K HK; cbn [rk_stage_loop].
  - exact HK.
  - apply IH. apply Forall_app. split; [exact HK | ].
    constructor; [ | constructor].
    rewrite (weighted_sum_zero _ _ _ HK), scale_add_zero, Hf. reflexivity.
Qed.

Lemma rk_segments_zero (f : R -> vec4 -> vec4) (rk : rk_scheme) (t : R) (hs : list R) :
  (forall s, f s vec4_zero = vec4_zero) ->
  Forall (fun s => seg_y s = vec4_zero /\ Forall (eq vec4_zero) (seg_K s))
    (rk_segments f rk t vec4_zero hs).
Proof.
  intros Hf. revert t. induction hs as [| h hs IH]; intros t; cbn [rk_segments].
  - constructor.
  - pose proof (rk_stage_loop_zero f rk t h (rk_stages rk) 0 [] Hf (Forall_nil _)) as HK.
    constructor.
    + cbn [seg_y seg_K]. split; [reflexivity | exact HK].
    + rewrite (weighted_sum_zero _ _ _ HK), scale_add_zero. apply IH.
Qed.

Lemma rk_find_segment_In (t : R) (segs : list rk_segment) (s : rk_segment) :
  rk_find_segment t segs = Some s -> In s segs.
Proof.
  induction segs as [| a segs IH]; cbn [rk_find_segment]; [discriminate | ].
  destruct segs as [| b segs].
  - intros H; injection H as <-. left; reflexivity.
  - destruct (Rle_dec t (seg_t a + seg_h a)).
    + intros H; injection H as <-. left; reflexivity.
    + intros H. right. apply IH, H.
Qed.

Lemma rk_placeholder_zero (rk : rk_scheme) (t_span : R * R) (args : R * R * R) (d : bool)
    (kw : solver_kwargs) (t : R) :
  sol (rk_solve_ivp mu mu_prime rk (mkCall Fn_func t_span vec4_zero args d kw)) t
  = vec4_zero.
Proof.
  unfold rk_solve_ivp. cbn [sol ivp_y0 ivp_t_span].
  set (c := mkCall Fn_func t_span vec4_zero args d kw).
  pose proof (rk_segments_zero (eval_field mu mu_prime c) rk (fst t_span) (rk_steps rk c)
                (fun s => eval_field_zero c s eq_refl)) as Hsegs.
  destruct (rk_find_segment t _) as [s | ] eqn:Hfind; [ | reflexivity].
  apply rk_find_segment_In in Hfind.
  rewrite Forall_forall in Hsegs. destruct (Hsegs s Hfind) as [Hy HK].
  unfold rk_dense_output. rewrite Hy, (weighted_sum_zero _ _ _ HK).
  apply scale_add_zero.
Qed.

(** C7.  The fourth problem [_solve_system] hands to the solver starts from
    the zero state and is driven by the homogeneous field [_func], over
    [[0, max_z]].  Where the matrix [P] is bounded on that interval (as it
    is for valid parameters: [max_z < eta_H] keeps [1 - eta/eta_H] away
    from zero), the zero function solves it and every solution of it is
    identically the zero vector on [[0, max_z]].  So is what the code
    computes: with any explicit Runge-Kutta solver, the fourth dense
    output [_solve_system] returns is the zero vector at every height. *)
Theorem placeholder_solution_is_zero (rk : rk_scheme) (eta_0 eta_H Kappa max_z : R)
    (dense_output : bool) (kwargs : solver_kwargs) (B : R)
    (Hbounded : forall t, 0 <= t <= max_z ->
                  entries_bounded B (_P mu mu_prime t eta_H eta_0 Kappa)) :
  let run := _solve_system mu_prime (rk_solve_ivp mu mu_prime rk) eta_0 eta_H Kappa max_z
               dense_output kwargs in
  exists c,
    nth_error (calls run) 3 = Some c
    /\ ivp_fun c = Fn_func /\ ivp_y0 c = vec4_zero /\ ivp_t_span c = (0, max_z)
    /\ solves_ivp mu mu_prime c (fun _ => vec4_zero)
    /\ (forall X, solves_ivp mu mu_prime c X ->
          forall t, 0 <= t <= max_z -> X t = vec4_zero)
    /\ (exists Results fourth,
          outcome run = inr Results /\ nth_error Results 3 = Some fourth
          /\ forall t, sol fourth t = vec4_zero).
Proof.
  intros run. unfold run. rewrite solve_system_run.
  unfold calls, outcome, solve_system_calls. cbn [fst snd nth_error map].
  eexists. split; [reflexivity | ]. cbn [ivp_fun ivp_y0 ivp_t_span].
  split; [reflexivity | ]. split; [reflexivity | ]. split; [reflexivity | ].
  split; [apply zero_solves_homogeneous | ].
  split.
  - intros X [H0 Hode]. cbn [ivp_t_span ivp_y0 ivp_fun ivp_args fst snd field_fun] in *.
    apply (homogeneous_zero_unique mu mu_prime eta_H eta_0 Kappa max_z B X Hbounded H0 Hode).
  - eexists; eexists. split; [reflexivity | ]. split; [reflexivity | ].
    intros t. apply rk_placeholder_zero.
Qed.

End Placeholder.

(** The logarithmic profile is bounded on the integration interval of the
    scenario. *)
Lemma ln_one_plus_le (x : R) : 0 <= x -> 0 <= ln (1 + x) <= x.
Proof.
  intros Hx. split.
  - rewrite <- ln_1. destruct (Req_dec_T x 0) as [-> | Hne].
    + rewrite Rplus_0_r. lra.
    + left. apply ln_increasing; lra.
  - destruct (Req_dec_T x 0) as [-> | Hne].
    + rewrite Rplus_0_r, ln_1. lra.
    + rewrite <- (ln_exp x) at 2. left. apply ln_increasing; [lra | ].
      apply exp_ineq1. lra.
Qed.

Lemma product_in_box (a b A B : R) :
  0 <= a <= A -> 0 <= b <= B -> 0 <= a * b <= A * B.
Proof.
  intros [Ha0 HaA] [Hb0 HbB]. split.
  - apply Rmult_le_pos; assumption.
  - apply Rmult_le_compat; assumption.
Qed.

Lemma scenario_P_bounded (t : R) :
  0 <= t <= 999.9 ->
  entries_bounded 2e9 (_P mu_log mu_prime_log t 1000 1e-5 0.4).
Proof.
  intros Ht. unfold entries_bounded, _P, mu_log, mu_prime_log. cbn [rows].
  assert (Htp : 0.0001 <= 1 - t / 1000 <= 1) by lra.
  assert (Hi : 0 < / (t + 1e-5) <= 100000).
  { split; [apply Rinv_0_lt_compat; lra | ].
    replace 100000 with (/ 1e-5) by lra. apply Rinv_le_contravar; lra. }
  assert (Hln : 0 <= ln (1 + t / 1e-5) <= 1e8).
  { pose proof (ln_one_plus_le (t / 1e-5)) as H.
    assert (0 <= t / 1e-5 <= 1e8) by lra. lra. }
  assert (Hp : 0 <= 1 / 0.4 * (1 / (t + 1e-5)) <= 250000) by lra.
  assert (Hm : 0 <= 1 / 0.4 * ln (1 + t / 1e-5) <= 2e9) by lra.
  assert (Hi2 : 0 <= / (2 * (1 - t / 1000)) <= 5000).
  { split; [left; apply Rinv_0_lt_compat; lra | ].
    replace 5000 with (/ 0.0002) by lra. apply Rinv_le_contravar; lra. }
  assert (Hq1 : 0 <= 1 / 0.4 * (1 / (t + 1e-5)) / (2 * (1 - t / 1000)) <= 2e9).
  { pose proof (product_in_box _ _ _ _ Hp Hi2) as H. unfold Rdiv at 1. lra. }
  assert (Hq2 : 0 <= 4 * (1 - t / 1000) / (1 / 0.4 * (1 / (t + 1e-5))) <= 2e9).
  { replace (1 / 0.4) with (5 / 2) by lra.
    replace (4 * (1 - t / 1000) / (5 / 2 * (1 / (t + 1e-5))))
      with (8 / 5 * ((1 - t / 1000) * (t + 1e-5))) by (field; lra).
    assert (Ha : 0 <= 1 - t / 1000 <= 1) by lra.
    assert (Hb : 0 <= t + 1e-5 <= 1000) by lra.
    pose proof (product_in_box _ _ _ _ Ha Hb) as H. lra. }
  revert Hp Hm Hq1 Hq2.
  generalize (1 / 0.4 * (1 / (t + 1e-5)) / (2 * (1 - t / 1000))).
  generalize (4 * (1 - t / 1000) / (1 / 0.4 * (1 / (t + 1e-5)))).
  generalize (1 / 0.4 * (1 / (t + 1e-5))).
  generalize (1 / 0.4 * ln (1 + t / 1e-5)).
  intros m p q2 q1 Hp Hm Hq1 Hq2.
  repeat (apply Forall_cons || apply Forall_nil).
  all: cbn [Re Im Cadd Cmul Cneg C0 C1 Ci RtoC]; split; apply Rabs_le; lra.
Qed.

Lemma placeholder_solution_is_zero_witness :
  exists Results fourth,
    outcome (_solve_system mu_prime_log (rk_solve_ivp mu_log mu_prime_log heun_scheme)
               1e-5 1000 0.4 999.9 true (mkKwargs 1e-10 1e-10 "DOP853" [])) = inr Results
    /\ nth_error Results 3 = Some fourth
    /\ forall t, sol fourth t = vec4_zero.
Proof.
  destruct (placeholder_solution_is_zero mu_log mu_prime_log heun_scheme
              1e-5 1000 0.4 999.9 true (mkKwargs 1e-10 1e-10 "DOP853" []) 2e9
              scenario_P_bounded)
    as [c [_ [_ [_ [_ [_ [_ Hfourth]]]]]]].
  exact Hfourth.
Defined.

(** A numerical instance: the Euler solver, which evaluates the field at
    the zero state only, returns the zero function for the placeholder
    problem. *)
Lemma euler_placeholder_zero (mu mu_prime : R -> R -> R -> R) (t_span : R * R)
    (args : R * R * R) (d : bool) (kw : solver_kwargs) (t : R) :
  sol (euler_solve_ivp mu mu_prime (mkCall Fn_func t_span vec4_zero args d kw)) t
  = vec4_zero.
Proof.
  destruct args as [[eta_H eta_0] Kappa].
  unfold euler_solve_ivp. cbn [ivp_args ivp_t_span ivp_fun ivp_y0 field_fun sol].
  rewrite func_zero. unfold vec4_zero, vec4_list, vec4_add, vec4_scale.
  cbn [v_0 v_1 v_2 v_3].
  apply (f_equal4 mkVec4); ring.
Qed.

(** * Further properties of the module *)

(** ** The radiation condition, continued *)

(** X1.  For a positive [eta_B], [_q1] returns a square root of
    [1 - 1/eta_B^2], the one with non-positive real part and non-negative
    imaginary part. *)
Theorem q1_dispersion (eta_B : R) (Hpos : 0 < eta_B) :
  exists q,
    _q1 (Scalar eta_B) = inr (Scalar q)
    /\ (q * q)%C = RtoC (1 - 1 / eta_B ^ 2)
    /\ Re q <= 0 /\ 0 <= Im q.
Proof.
  assert (Hinv : 0 < / eta_B ^ 2) by (apply Rinv_0_lt_compat; nra).
  destruct (Rlt_dec 1 eta_B) as [Hgt | Hle].
  - exists (RtoC (- sqrt (1 - 1 / eta_B ^ 2))).
    split; [apply q1_scalar_above; exact Hgt | ].
    assert (Harg : 0 <= 1 - 1 / eta_B ^ 2).
    { assert (/ eta_B ^ 2 < 1); [ | lra].
      rewrite <- Rinv_1. apply Rinv_lt_contravar; nra. }
    pose proof (sqrt_sqrt _ Harg) as Hs. pose proof (sqrt_pos (1 - 1 / eta_B ^ 2)) as Hp.
    split; [ | cbn [Re Im RtoC]; lra].
    apply complex_eq; cbn [Re Im Cmul RtoC]; lra.
  - apply Rnot_lt_le in Hle.
    exists (Ci * RtoC (sqrt (1 / eta_B ^ 2 - 1)))%C.
    split; [apply q1_scalar_below; [exact Hle | lra | lra] | ].
    assert (Harg : 0 <= 1 / eta_B ^ 2 - 1).
    { assert (1 <= / eta_B ^ 2); [ | lra].
      rewrite <- Rinv_1 at 1. apply Rinv_le_contravar; nra. }
    pose proof (sqrt_sqrt _ Harg) as Hs. pose proof (sqrt_pos (1 / eta_B ^ 2 - 1)) as Hp.
    rewrite Ci_times_real.
    split; [ | cbn [Re Im]; lra].
    apply complex_eq; cbn [Re Im Cmul RtoC]; lra.
Qed.

Lemma q1_dispersion_witness :
  exists q,
    _q1 (Scalar 0.5) = inr (Scalar q)
    /\ (q * q)%C = RtoC (1 - 1 / 0.5 ^ 2)
    /\ Re q <= 0 /\ 0 <= Im q.
Proof.
  assert (H : 0 < 0.5) by lra.
  exact (q1_dispersion 0.5 H).
Defined.

Lemma mixed_or_unmixed (l : list R) :
  ((forall r, In r l -> 1 < r) \/ (forall r, In r l -> r <= 1))
  \/ ((exists r, In r l /\ 1 < r) /\ (exists r, In r l /\ r <= 1)).
Proof.
  induction l as [| a l IH].
  - left; left; intros r [].
  - destruct (Rlt_dec 1 a) as [Ha | Ha].
    + destruct IH as [[Hall | Hall] | [Hex1 Hex2]].
      * left; left. intros r [<- | Hr]; [exact Ha | apply Hall, Hr].
      * destruct l as [| b l].
        -- left; left. intros r [<- | []]; exact Ha.
        -- right. split.
           ++ exists a; split; [left; reflexivity | exact Ha].
           ++ exists b; split; [right; left; reflexivity | apply Hall; left; reflexivity].
      * right. split.
        -- exists a; split; [left; reflexivity | exact Ha].
        -- destruct Hex2 as [r [Hr Hr1]]. exists r; split; [right; exact Hr | exact Hr1].
    + apply Rnot_lt_le in Ha.
      destruct IH as [[Hall | Hall] | [Hex1 Hex2]].
      * destruct l as [| b l].
        -- left; right. intros r [<- | []]; exact Ha.
        -- right. split.
           ++ exists b; split; [right; left; reflexivity | apply Hall; left; reflexivity].
           ++ exists a; split; [left; reflexivity | exact Ha].
      * left; right. intros r [<- | Hr]; [exact Ha | apply Hall, Hr].
      * right. split.
        -- destruct Hex1 as [r [Hr Hr1]]. exists r; split; [right; exact Hr | exact Hr1].
        -- exists a; split; [left; reflexivity | exact Ha].
Qed.

(** X2.  On a one-dimensional array of positive entries, [_q1] returns
    exactly when the entries lie all above one or all at most one (the
    empty array included); it then returns the array of its values at the
    entries.  On every other such array it raises [ValueError]. *)
Theorem q1_array_returns_iff_unmixed (l : list R) (Hpos : Forall (fun r => 0 < r) l) :
  ((exists ys, _q1 (Array1 l) = inr (Array1 ys))
   <-> ((forall r, In r l -> 1 < r) \/ (forall r, In r l -> r <= 1)))
  /\ (forall ys, _q1 (Array1 l) = inr ys ->
        exists zs, ys = Array1 zs
                   /\ Forall2 (fun r z => _q1 (Scalar r) = inr (Scalar z)) l zs)
  /\ (forall e, _q1 (Array1 l) = inl e -> exn_cls e = ValueError)
  /\ _q1 (Array1 []) = inr (Array1 []).
Proof.
  rewrite Forall_forall in Hpos.
  destruct (mixed_or_unmixed l) as [Hun | [Hex1 Hex2]].
  - destruct (q1_array_unmixed l Hpos Hun) as [ys [Hys Hall]].
    split; [ | split; [ | split]].
    + split; [intros _; exact Hun | intros _; exists ys; exact Hys].
    + intros ys' H. rewrite Hys in H. injection H as <-. exists ys; split; [reflexivity | exact Hall].
    + intros e H. rewrite Hys in H. discriminate H.
    + reflexivity.
  - pose proof (q1_array_mixed l Hex1 Hex2) as Herr.
    split; [ | split; [ | split]].
    + split.
      * intros [ys H]. rewrite Herr in H. discriminate H.
      * destruct Hex1 as [r1 [Hin1 Hr1]], Hex2 as [r2 [Hin2 Hr2]].
        intros [Hall | Hall].
        -- specialize (Hall r2 Hin2). lra.
        -- specialize (Hall r1 Hin1). lra.
    + intros ys H. rewrite Herr in H. discriminate H.
    + intros e H. rewrite Herr in H. injection H as <-. reflexivity.
    + reflexivity.
Qed.

Lemma q1_array_returns_iff_unmixed_witness :
  exists ys, _q1 (Array1 [0.5; 0.25]) = inr (Array1 ys).
Proof.
  assert (Hpos : Forall (fun r => 0 < r) [0.5; 0.25]).
  { repeat (apply Forall_cons || apply Forall_nil); lra. }
  apply (proj1 (q1_array_returns_iff_unmixed [0.5; 0.25] Hpos)).
  right. intros r [<- | [<- | []]]; lra.
Defined.

(** ** The vector fields, continued *)

Lemma func_single_P (mu mu_prime : R -> R -> R -> R) (eta eta_H eta_0 Kappa : R) (x : vec4) :
  _func mu mu_prime eta (Single (vec4_list x)) eta_H eta_0 Kappa
  = inr (Single (vec4_list (P_times mu mu_prime eta eta_H eta_0 Kappa x))).
Proof. reflexivity. Qed.

Lemma Cadd_0_r (z : complex) : (z + C0)%C = z.
Proof. ring. Qed.

Lemma func1_single_P (mu mu_prime : R -> R -> R -> R) (eta eta_H eta_0 Kappa : R) (x : vec4) :
  _func1 mu mu_prime eta (Single (vec4_list x)) eta_H eta_0 Kappa
  = inr (Single (vec4_list
      (vec4_add (P_times mu mu_prime eta eta_H eta_0 Kappa x)
         (mkVec4 (hd C0 (_S mu_prime eta eta_H eta_0 Kappa)) C0 C0 C0)))).
Proof. reflexivity. Qed.

Lemma func_delta_single_P (mu mu_prime : R -> R -> R -> R) (eta eta_H eta_0 Kappa : R)
    (x : vec4) :
  _func_delta mu mu_prime eta (Single (vec4_list x)) eta_H eta_0 Kappa
  = inr (Single (vec4_list
      (vec4_add (P_times mu mu_prime eta eta_H eta_0 Kappa x)
         (mkVec4 (hd C0 (_S_delta mu_prime eta eta_H eta_0 Kappa)) C0 C0 C0)))).
Proof. reflexivity. Qed.

Lemma P_times_add (mu mu_prime : R -> R -> R -> R) (eta eta_H eta_0 Kappa : R) (x y : vec4) :
  P_times mu mu_prime eta eta_H eta_0 Kappa (vec4_add x y)
  = vec4_add (P_times mu mu_prime eta eta_H eta_0 Kappa x)
             (P_times mu mu_prime eta eta_H eta_0 Kappa y).
Proof.
  unfold P_times, _P, dotp, vec4_add.
  cbn [rows nth vec4_list v_0 v_1 v_2 v_3 zip_with Csum fold_right].
  apply (f_equal4 mkVec4); ring.
Qed.

Lemma P_times_sub (mu mu_prime : R -> R -> R -> R) (eta eta_H eta_0 Kappa : R) (x y : vec4) :
  P_times mu mu_prime eta eta_H eta_0 Kappa (vec4_sub x y)
  = vec4_sub (P_times mu mu_prime eta eta_H eta_0 Kappa x)
             (P_times mu mu_prime eta eta_H eta_0 Kappa y).
Proof.
  unfold P_times, _P, dotp, vec4_sub.
  cbn [rows nth vec4_list v_0 v_1 v_2 v_3 zip_with Csum fold_right].
  apply (f_equal4 mkVec4); ring.
Qed.

Lemma P_times_scale (mu mu_prime : R -> R -> R -> R) (eta eta_H eta_0 Kappa : R)
    (c : complex) (x : vec4) :
  P_times mu mu_prime eta eta_H eta_0 Kappa (vec4_scale c x)
  = vec4_scale c (P_times mu mu_prime eta eta_H eta_0 Kappa x).
Proof.
  unfold P_times, _P, dotp, vec4_scale.
  cbn [rows nth vec4_list v_0 v_1 v_2 v_3 zip_with Csum fold_right].
  apply (f_equal4 mkVec4); ring.
Qed.

Section FieldAlgebra.

Variable mu : R -> R -> R -> R.
Variable mu_prime : R -> R -> R -> R.

(** X3.  Each vector field returns on a single state exactly when the
    state has four entries, and then returns four entries; on a single
    state of another length, and on a batch whose number of rows is not
    four, the product with [P] raises [ValueError]. *)
Theorem field_shape_errors (f : field) (eta eta_H eta_0 Kappa : R) :
  (forall v, length v = 4%nat ->
     exists y, field_fun mu mu_prime f eta (Single v) eta_H eta_0 Kappa = inr (Single y)
               /\ length y = 4%nat)
  /\ (forall v, length v <> 4%nat ->
        exists e, field_fun mu mu_prime f eta (Single v) eta_H eta_0 Kappa = inl e
                  /\ exn_cls e = ValueError)
  /\ (forall a, length (rows a) <> 4%nat ->
        exists e, field_fun mu mu_prime f eta (Batch a) eta_H eta_0 Kappa = inl e
                  /\ exn_cls e = ValueError).
Proof.
  split; [ | split].
  - intros v Hv.
    destruct v as [| a [| b [| c [| d [| e v]]]]]; simpl in Hv; try discriminate.
    destruct f; cbn [field_fun]; eexists; split; reflexivity.
  - intros v Hv. apply Nat.eqb_neq in Hv. rewrite Nat.eqb_sym in Hv.
    destruct f; cbn [field_fun]; unfold _func, _func1, _func_delta, np_dot_vec;
      cbn [ncols _P]; rewrite Hv; eexists; split; reflexivity.
  - intros a Ha. apply Nat.eqb_neq in Ha. rewrite Nat.eqb_sym in Ha.
    destruct f; cbn [field_fun]; unfold _func, _func1, _func_delta, np_dot_mat;
      cbn [ncols _P]; rewrite Ha; eexists; split; reflexivity.
Qed.

(** X4.  The homogeneous field is linear on single states: its value at
    [a*x + b*y] is [a] times its value at [x] plus [b] times its value at
    [y]. *)
Theorem func_linear (eta eta_H eta_0 Kappa : R) (a b : complex) (x y : vec4) :
  exists Px Py,
    _func mu mu_prime eta (Single (vec4_list x)) eta_H eta_0 Kappa
    = inr (Single (vec4_list Px))
    /\ _func mu mu_prime eta (Single (vec4_list y)) eta_H eta_0 Kappa
       = inr (Single (vec4_list Py))
    /\ _func mu mu_prime eta
         (Single (vec4_list (vec4_add (vec4_scale a x) (vec4_scale b y)))) eta_H eta_0 Kappa
       = inr (Single (vec4_list (vec4_add (vec4_scale a Px) (vec4_scale b Py)))).
Proof.
  exists (P_times mu mu_prime eta eta_H eta_0 Kappa x),
         (P_times mu mu_prime eta eta_H eta_0 Kappa y).
  rewrite !func_single_P, P_times_add, !P_times_scale. repeat split.
Qed.

(** X5.  The two forced fields differ from the homogeneous field in the
    first component only, by the first entry of [_S] or of [_S_delta];
    the other entries of the forcings are zero. *)
Theorem forcing_enters_first_component (eta eta_H eta_0 Kappa : R) (x : vec4) :
  exists Px s s_delta,
    _func mu mu_prime eta (Single (vec4_list x)) eta_H eta_0 Kappa
    = inr (Single (vec4_list Px))
    /\ _S mu_prime eta eta_H eta_0 Kappa = [s; C0; C0; C0]
    /\ _S_delta mu_prime eta eta_H eta_0 Kappa = [s_delta; C0; C0; C0]
    /\ _func1 mu mu_prime eta (Single (vec4_list x)) eta_H eta_0 Kappa
       = inr (Single [(v_0 Px + s)%C; v_1 Px; v_2 Px; v_3 Px])
    /\ _func_delta mu mu_prime eta (Single (vec4_list x)) eta_H eta_0 Kappa
       = inr (Single [(v_0 Px + s_delta)%C; v_1 Px; v_2 Px; v_3 Px]).
Proof.
  eexists; eexists; eexists.
  rewrite func_single_P, func1_single_P, func_delta_single_P.
  split; [reflexivity | ]. split; [reflexivity | ]. split; [reflexivity | ].
  unfold vec4_add, vec4_list. cbn [v_0 v_1 v_2 v_3 hd _S _S_delta].
  rewrite !Cadd_0_r. split; reflexivity.
Qed.

End FieldAlgebra.

(** ** The matching system, continued *)

(** The inverse [numpy.linalg.inv] returns is a left inverse as well: a
    solution of the system is the product of the inverse and the
    right-hand side. *)
Lemma inv_3x3_unique (a11 a12 a13 a21 a22 a23 a31 a32 a33 r1 r2 r3 : complex)
    (p : list complex) :
  let A := mkArray2 3 [[a11; a12; a13]; [a21; a22; a23]; [a31; a32; a33]] in
  det3 a11 a12 a13 a21 a22 a23 a31 a32 a33 <> C0 ->
  np_dot_vec A p = inr [r1; r2; r3] ->
  exists inv, np_linalg_inv A = inr inv /\ np_dot_vec inv [r1; r2; r3] = inr p.
Proof.
  intros A Hdet Hp. unfold np_dot_vec in Hp. cbn [A ncols rows map] in Hp.
  destruct p as [| p1 [| p2 [| p3 [| p4 p]]]]; cbn [length Nat.eqb] in Hp;
    try discriminate Hp.
  injection Hp as <- <- <-.
  unfold np_linalg_inv. cbn [A rows ncols length Nat.eqb negb].
  rewrite det_3x3.
  destruct (Ceq_dec _ C0) as [H0 | _]; [contradiction | ].
  eexists. split; [reflexivity | ].
  unfold np_dot_vec. cbn [ncols rows length Nat.eqb map seq].
  f_equal.
  cbn [dotp zip_with Csum fold_right pred minor drop_nth det map seq nth Csign Nat.even Nat.add].
  unfold det3 in *.
  apply f_equal2; [field; exact Hdet | ].
  apply f_equal2; [field; exact Hdet | ].
  apply f_equal2; [field; exact Hdet | reflexivity].
Qed.

Lemma inr_list3_inv (a b c a' b' c' : complex) :
  @inr exn (list complex) [a; b; c] = inr [a'; b'; c'] -> a = a' /\ b = b' /\ c = c'.
Proof. intros H; inversion H; auto. Qed.

(** What a frame returned on the data of four solutions holds. *)
Lemma apply_boundary_condition_returns (z : R) (X1 X2 X3 X4 : OdeResult)
    (b1 b2 b3 : complex) (fr : frame) :
  let m := mkMatching z [X1; X2; X3; X4]
             (np_transpose
                (mkArray2 3 (map (fun X => tl (vec4_list (sol X z))) [X1; X2; X3; X4])))
             [b1; b2; b3] in
  apply_boundary_condition m = inr fr ->
  matching_det m <> C0
  /\ fr_matching fr = m
  /\ (exists p0 p1 p2,
        fr_pars fr = [p0; p1; p2]
        /\ fr_coeffs fr = [C1; (p1 / p0)%C; (p2 / p0)%C; (C1 / p0)%C]
        /\ (v_1 (sol X1 z) * p0 + (v_1 (sol X2 z) * p1 + (v_1 (sol X3 z) * p2 + C0))
            = b1 - v_1 (sol X4 z))%C
        /\ (v_2 (sol X1 z) * p0 + (v_2 (sol X2 z) * p1 + (v_2 (sol X3 z) * p2 + C0))
            = b2 - v_2 (sol X4 z))%C
        /\ (v_3 (sol X1 z) * p0 + (v_3 (sol X2 z) * p1 + (v_3 (sol X3 z) * p2 + C0))
            = b3 - v_3 (sol X4 z))%C)
  /\ (forall p,
        np_dot_vec (drop_last_column (mt_To_apply m)) p
        = np_sub_vec (mt_b m) (last_column (mt_To_apply m)) ->
        p = fr_pars fr).
Proof.
  intros m Hfr.
  destruct (Ceq_dec (matching_det m) C0) as [H0 | Hdet].
  { unfold m in Hfr.
    rewrite (proj1 (apply_boundary_condition_cases z X1 X2 X3 X4 b1 b2 b3) H0) in Hfr.
    discriminate Hfr. }
  split; [exact Hdet | ].
  split; [exact (apply_boundary_condition_matching m fr Hfr) | ].
  revert Hfr Hdet. unfold matching_det, apply_boundary_condition.
  cbn [m mt_To_apply mt_b].
  destruct (to_apply_of_four X1 X2 X3 X4 z) as [-> ->].
  unfold tail3, np_transpose, column.
  cbn [rows ncols map seq nth length vec4_list tl].
  rewrite det_3x3. intros Hfr Hdet.
  destruct (inv_3x3_solves _ _ _ _ _ _ _ _ _
              (b1 - v_1 (sol X4 z))%C (b2 - v_2 (sol X4 z))%C (b3 - v_3 (sol X4 z))%C Hdet)
    as [inv [pars [Hinv [Hpars [Hlen Hsolve]]]]].
  rewrite Hinv in Hfr. unfold np_sub_vec in *. cbn [length Nat.eqb zip_with] in *.
  rewrite Hpars in Hfr. injection Hfr as <-. cbn [fr_pars fr_coeffs].
  split.
  - destruct pars as [| p0 [| p1 [| p2 [| p3 pars]]]]; simpl in Hlen; try discriminate.
    exists p0, p1, p2. split; [reflexivity | ]. split; [reflexivity | ].
    unfold np_dot_vec in Hsolve. cbn [ncols rows length Nat.eqb map dotp zip_with Csum fold_right] in Hsolve.
    apply inr_list3_inv in Hsolve. exact Hsolve.
  - intros p Hp.
    destruct (inv_3x3_unique _ _ _ _ _ _ _ _ _ _ _ _ p Hdet Hp) as [inv' [Hinv' Hp']].
    rewrite Hinv in Hinv'. injection Hinv' as <-.
    rewrite Hpars in Hp'. injection Hp' as <-. reflexivity.
Qed.

Section Matching.

Variable mu : R -> R -> R -> R.
Variable mu_prime : R -> R -> R -> R.
Variable solve_ivp : ivp_call -> OdeResult.

(** A frame [calculate_solution] returns, read through the matching data
    it was computed from. *)
Lemma calculate_solution_returns (eta_0 eta_H eta_B Fr : R) (max_z : option R)
    (Kappa atol rtol : R) (method : string) (kwargs : list (string * pyval)) (fr : frame) :
  valid_parameters eta_0 eta_H eta_B Fr (effective_max_z max_z eta_H) ->
  outcome (calculate_solution mu mu_prime solve_ivp eta_0 eta_H eta_B Fr max_z Kappa
             atol rtol method kwargs) = inr fr ->
  exists X1 X2 X3 X4 b1 b2 b3,
    let z := effective_max_z max_z eta_H in
    let m := mkMatching z [X1; X2; X3; X4]
               (np_transpose
                  (mkArray2 3 (map (fun X => tl (vec4_list (sol X z))) [X1; X2; X3; X4])))
               [b1; b2; b3] in
    outcome (boundary_conditions mu mu_prime solve_ivp eta_0 eta_H eta_B Fr max_z Kappa
               atol rtol method kwargs) = inr m
    /\ [X1; X2; X3; X4]
       = map solve_ivp (solve_system_calls mu_prime eta_0 eta_H 0.4 z true
                          (mkKwargs atol rtol method kwargs))
    /\ apply_boundary_condition m = inr fr.
Proof.
  intros Hvalid Hfr.
  pose proof (boundary_conditions_run mu mu_prime solve_ivp eta_0 eta_H eta_B Fr max_z
                Kappa atol rtol method kwargs Hvalid) as Hrun.
  cbv zeta in Hrun. unfold solve_system_calls in Hrun. cbn [map] in Hrun.
  erewrite calculate_solution_outcome in Hfr by (rewrite Hrun; reflexivity).
  do 7 eexists. cbv zeta. rewrite Hrun at 1. cbn [outcome snd].
  split; [reflexivity | ]. split; [reflexivity | exact Hfr].
Qed.

(** X6.  On valid parameters, when [calculate_solution] returns and the
    array [To_apply[:, :-1]] is not singular, [pars] is the one and only
    solution of [To_apply[:, :-1] . pars = b - To_apply[:, -1]]. *)
Theorem matching_solution_unique (eta_0 eta_H eta_B Fr : R) (max_z : option R)
    (Kappa atol rtol : R) (method : string) (kwargs : list (string * pyval)) (fr : frame)
    (Hvalid : valid_parameters eta_0 eta_H eta_B Fr (effective_max_z max_z eta_H))
    (Hreturns : outcome (calculate_solution mu mu_prime solve_ivp eta_0 eta_H eta_B Fr
                           max_z Kappa atol rtol method kwargs) = inr fr)
    (Hdet : matching_det (fr_matching fr) <> C0) :
  let m := fr_matching fr in
  outcome (boundary_conditions mu mu_prime solve_ivp eta_0 eta_H eta_B Fr max_z Kappa
             atol rtol method kwargs) = inr m
  /\ np_dot_vec (drop_last_column (mt_To_apply m)) (fr_pars fr)
     = np_sub_vec (mt_b m) (last_column (mt_To_apply m))
  /\ forall p,
       np_dot_vec (drop_last_column (mt_To_apply m)) p
       = np_sub_vec (mt_b m) (last_column (mt_To_apply m)) ->
       p = fr_pars fr.
Proof.
  destruct (calculate_solution_returns _ _ _ _ _ _ _ _ _ _ fr Hvalid Hreturns)
    as [X1 [X2 [X3 [X4 [b1 [b2 [b3 [Hm [_ Hfr]]]]]]]]].
  cbv zeta in Hm, Hfr.
  destruct (apply_boundary_condition_returns _ _ _ _ _ _ _ _ fr Hfr)
    as [_ [Hfm [_ Huniq]]].
  cbv zeta. rewrite Hfm in Hdet |- *.
  split; [exact Hm | ].
  split; [ | exact Huniq].
  destruct (proj2 (apply_boundary_condition_cases _ X1 X2 X3 X4 b1 b2 b3) Hdet)
    as [fr' [Hfr' [_ Hsolve]]].
  rewrite Hfr in Hfr'. injection Hfr' as <-. exact Hsolve.
Qed.

(** X7.  On valid parameters, when [calculate_solution] returns with a
    non-zero [pars[0]]: the first coefficient is one, the last, [delta],
    is the inverse of [pars[0]], and the last three components of
    [interpolated_solution(max_z)] are [delta] times the right-hand side
    [b]: the combination meets the boundary conditions the source states,
    [W = i*mu*delta], [St = delta/max_z],
    [Sn = mu^2*(q1 + 1/(eta_H*Fr^2))*delta]. *)
Theorem boundary_conditions_reproduced (eta_0 eta_H eta_B Fr : R) (max_z : option R)
    (Kappa atol rtol : R) (method : string) (kwargs : list (string * pyval)) (fr : frame)
    (Hvalid : valid_parameters eta_0 eta_H eta_B Fr (effective_max_z max_z eta_H))
    (Hreturns : outcome (calculate_solution mu mu_prime solve_ivp eta_0 eta_H eta_B Fr
                           max_z Kappa atol rtol method kwargs) = inr fr)
    (Hpars0 : nth 0 (fr_pars fr) C0 <> C0) :
  let z := effective_max_z max_z eta_H in
  let delta := last (fr_coeffs fr) C0 in
  nth 0 (fr_coeffs fr) C0 = C1
  /\ (delta * nth 0 (fr_pars fr) C0)%C = C1
  /\ tl (vec4_list (interpolated_solution fr z))
     = [(delta * (Ci * RtoC (mu z eta_0 Kappa)))%C;
        (delta * RtoC (1 / z))%C;
        (delta * (RtoC (mu z eta_0 Kappa ^ 2)
                  * (q1_value eta_B + RtoC (1 / (eta_H * Fr ^ 2)))))%C].
Proof.
  intros z delta. subst delta.
  pose proof (boundary_conditions_run mu mu_prime solve_ivp eta_0 eta_H eta_B Fr max_z
                Kappa atol rtol method kwargs Hvalid) as Hrun.
  cbv zeta in Hrun. fold z in Hrun. unfold solve_system_calls in Hrun. cbn [map] in Hrun.
  erewrite calculate_solution_outcome in Hreturns by (rewrite Hrun; reflexivity).
  revert Hreturns.
  generalize (Ci * RtoC (mu z eta_0 Kappa))%C (RtoC (1 / z))
    (RtoC (mu z eta_0 Kappa ^ 2) * (q1_value eta_B + RtoC (1 / (eta_H * Fr ^ 2))))%C.
  intros b1 b2 b3 Hfr.
  destruct (apply_boundary_condition_returns _ _ _ _ _ _ _ _ fr Hfr)
    as [_ [Hfm [[p0 [p1 [p2 [Hp [Hc [E1 [E2 E3]]]]]]] _]]].
  rewrite Hp in Hpars0. cbn [nth] in Hpars0.
  unfold interpolated_solution. rewrite Hfm, Hc, Hp.
  cbn [mt_Results zip_with fold_right nth last].
  split; [reflexivity | ]. split; [field; exact Hpars0 | ].
  assert (Hb1 : b1 = (v_1 (sol (solve_ivp
            (mkCall Fn_func1 (0, z) (mkVec4 (RtoC (- mu_prime 0 eta_0 0.4)) C0 C0 C0)
               (eta_H, eta_0, 0.4) true (mkKwargs atol rtol method kwargs))) z) * p0
          + (v_1 (sol (solve_ivp
            (mkCall Fn_func (0, z) (mkVec4 C0 C0 C1 C0)
               (eta_H, eta_0, 0.4) true (mkKwargs atol rtol method kwargs))) z) * p1
          + (v_1 (sol (solve_ivp
            (mkCall Fn_func (0, z) (mkVec4 C0 C0 C0 C1)
               (eta_H, eta_0, 0.4) true (mkKwargs atol rtol method kwargs))) z) * p2 + C0))
          + v_1 (sol (solve_ivp
            (mkCall Fn_func (0, z) vec4_zero
               (eta_H, eta_0, 0.4) true (mkKwargs atol rtol method kwargs))) z))%C)
    by (rewrite E1; ring).
  assert (Hb2 : b2 = (v_2 (sol (solve_ivp
            (mkCall Fn_func1 (0, z) (mkVec4 (RtoC (- mu_prime 0 eta_0 0.4)) C0 C0 C0)
               (eta_H, eta_0, 0.4) true (mkKwargs atol rtol method kwargs))) z) * p0
          + (v_2 (sol (solve_ivp
            (mkCall Fn_func (0, z) (mkVec4 C0 C0 C1 C0)
               (eta_H, eta_0, 0.4) true (mkKwargs atol rtol method kwargs))) z) * p1
          + (v_2 (sol (solve_ivp
            (mkCall Fn_func (0, z) (mkVec4 C0 C0 C0 C1)
               (eta_H, eta_0, 0.4) true (mkKwargs atol rtol method kwargs))) z) * p2 + C0))
          + v_2 (sol (solve_ivp
            (mkCall Fn_func (0, z) vec4_zero
               (eta_H, eta_0, 0.4) true (mkKwargs atol rtol method kwargs))) z))%C)
    by (rewrite E2; ring).
  assert (Hb3 : b3 = (v_3 (sol (solve_ivp
            (mkCall Fn_func1 (0, z) (mkVec4 (RtoC (- mu_prime 0 eta_0 0.4)) C0 C0 C0)
               (eta_H, eta_0, 0.4) true (mkKwargs atol rtol method kwargs))) z) * p0
          + (v_3 (sol (solve_ivp
            (mkCall Fn_func (0, z) (mkVec4 C0 C0 C1 C0)
               (eta_H, eta_0, 0.4) true (mkKwargs atol rtol method kwargs))) z) * p1
          + (v_3 (sol (solve_ivp
            (mkCall Fn_func (0, z) (mkVec4 C0 C0 C0 C1)
               (eta_H, eta_0, 0.4) true (mkKwargs atol rtol method kwargs))) z) * p2 + C0))
          + v_3 (sol (solve_ivp
            (mkCall Fn_func (0, z) vec4_zero
               (eta_H, eta_0, 0.4) true (mkKwargs atol rtol method kwargs))) z))%C)
    by (rewrite E3; ring).
  rewrite Hb1, Hb2, Hb3.
  unfold vec4_add, vec4_scale, vec4_zero. cbn [vec4_list tl v_0 v_1 v_2 v_3].
  apply f_equal2; [field; exact Hpars0 | ].
  apply f_equal2; [field; exact Hpars0 | ].
  apply f_equal2; [field; exact Hpars0 | reflexivity].
Qed.

End Matching.

Lemma scenario_mu_positive : 0 < mu_log (effective_max_z None 1000) 1e-5 0.4.
Proof.
  unfold mu_log, effective_max_z.
  apply Rmult_lt_0_compat; [lra | ].
  rewrite <- ln_1. apply ln_increasing; lra.
Qed.

(** In the scenario of the specification, with the Euler solver,
    [To_apply[:, :-1]] is not singular, [calculate_solution] returns, and
    [pars[0]] is not zero. *)
Lemma euler_scenario_returns :
  exists fr,
    outcome (calculate_solution mu_log mu_prime_log (euler_solve_ivp mu_log mu_prime_log)
               1e-5 1000 0.5 1 None 0.4 1e-10 1e-10 "DOP853" []) = inr fr
    /\ nth 0 (fr_pars fr) C0 <> C0
    /\ matching_det (fr_matching fr) <> C0.
Proof.
  destruct (euler_matching_det mu_log mu_prime_log 1e-5 1000 0.5 1 None 0.4 1e-10 1e-10
              "DOP853" [] scenario_valid) as [m [Hm Hdet]].
  pose proof Hm as Hm'.
  rewrite boundary_conditions_run in Hm' by exact scenario_valid.
  cbn [outcome snd] in Hm'.
  injection Hm' as Hm'. unfold solve_system_calls in Hm'. cbn [map] in Hm'.
  assert (Hnz : matching_det m <> C0) by (rewrite Hdet; exact scenario_det_nonzero).
  rewrite <- Hm' in Hnz.
  destruct (proj2 (apply_boundary_condition_cases _ _ _ _ _ _ _ _) Hnz) as [fr [Hfr [Hfm _]]].
  exists fr. split; [ | split].
  - rewrite (calculate_solution_outcome _ _ _ _ _ _ _ _ _ _ _ _ _ m Hm).
    rewrite <- Hm'. exact Hfr.
  - destruct (apply_boundary_condition_returns _ _ _ _ _ _ _ _ fr Hfr)
      as [_ [_ [[p0 [p1 [p2 [Hp [_ [E1 _]]]]]] _]]].
    rewrite Hp. cbn [nth]. intros ->.
    apply (f_equal Im) in E1. revert E1.
    unfold euler_solve_ivp.
    cbn [ivp_args ivp_t_span fst ivp_fun ivp_y0 field_fun sol].
    unfold _func1, _func, _P, _S, np_dot_vec, np_add_vec, np_squeeze, dotp.
    cbn [ncols rows length vec4_list Nat.eqb map zip_with
         vec4_add vec4_scale v_0 v_1 v_2 v_3 vec4_zero Csum fold_right].
    cbn [Re Im Cadd Cmul Csub Cneg C0 C1 Ci RtoC].
    pose proof scenario_mu_positive as Hmu. intros E1. ring_simplify in E1.
    unfold effective_max_z in Hmu. lra.
  - rewrite Hfm. exact Hnz.
Qed.

(** ** Derivatives of combinations *)

Lemma complex_derivative_add (x y : R -> complex) (t : R) (d e : complex) :
  complex_derivative x t d -> complex_derivative y t e ->
  complex_derivative (fun s => (x s + y s)%C) t (d + e)%C.
Proof.
  intros [Hxr Hxi] [Hyr Hyi]. split; cbn [Re Im Cadd].
  - apply (derivable_pt_lim_plus (fun s => Re (x s)) (fun s => Re (y s))); assumption.
  - apply (derivable_pt_lim_plus (fun s => Im (x s)) (fun s => Im (y s))); assumption.
Qed.

Lemma complex_derivative_sub (x y : R -> complex) (t : R) (d e : complex) :
  complex_derivative x t d -> complex_derivative y t e ->
  complex_derivative (fun s => (x s - y s)%C) t (d - e)%C.
Proof.
  intros [Hxr Hxi] [Hyr Hyi]. split; cbn [Re Im Csub].
  - apply (derivable_pt_lim_minus (fun s => Re (x s)) (fun s => Re (y s))); assumption.
  - apply (derivable_pt_lim_minus (fun s => Im (x s)) (fun s => Im (y s))); assumption.
Qed.

Lemma derivable_pt_lim_times_const (f : R -> R) (t d k : R) :
  derivable_pt_lim f t d -> derivable_pt_lim (fun s => f s * k) t (d * k).
Proof.
  intros H. replace (d * k) with (d * k + f t * 0) by ring.
  apply (derivable_pt_lim_mult f (fun _ => k)); [exact H | apply derivable_pt_lim_const].
Qed.

Lemma complex_derivative_scale (x : R -> complex) (t : R) (d c : complex) :
  complex_derivative x t d ->
  complex_derivative (fun s => (x s * c)%C) t (d * c)%C.
Proof.
  intros [Hr Hi]. split; cbn [Re Im Cmul].
  - apply (derivable_pt_lim_minus (fun s => Re (x s) * Re c) (fun s => Im (x s) * Im c));
      apply derivable_pt_lim_times_const; assumption.
  - apply (derivable_pt_lim_plus (fun s => Re (x s) * Im c) (fun s => Im (x s) * Re c));
      apply derivable_pt_lim_times_const; assumption.
Qed.

Lemma complex_derivative_const (c : complex) (t : R) :
  complex_derivative (fun _ => c) t C0.
Proof. split; cbn [Re Im C0 RtoC]; apply derivable_pt_lim_const. Qed.

Lemma vec4_derivative_add (X Y : R -> vec4) (t : R) (D E : vec4) :
  vec4_derivative X t D -> vec4_derivative Y t E ->
  vec4_derivative (fun s => vec4_add (X s) (Y s)) t (vec4_add D E).
Proof.
  intros [X0 [X1 [X2 X3]]] [Y0 [Y1 [Y2 Y3]]].
  unfold vec4_derivative, vec4_add; cbn [v_0 v_1 v_2 v_3].
  split; [ | split; [ | split]].
  - exact (complex_derivative_add (fun s => v_0 (X s)) (fun s => v_0 (Y s)) t _ _ X0 Y0).
  - exact (complex_derivative_add (fun s => v_1 (X s)) (fun s => v_1 (Y s)) t _ _ X1 Y1).
  - exact (complex_derivative_add (fun s => v_2 (X s)) (fun s => v_2 (Y s)) t _ _ X2 Y2).
  - exact (complex_derivative_add (fun s => v_3 (X s)) (fun s => v_3 (Y s)) t _ _ X3 Y3).
Qed.

Lemma vec4_derivative_sub (X Y : R -> vec4) (t : R) (D E : vec4) :
  vec4_derivative X t D -> vec4_derivative Y t E ->
  vec4_derivative (fun s => vec4_sub (X s) (Y s)) t (vec4_sub D E).
Proof.
  intros [X0 [X1 [X2 X3]]] [Y0 [Y1 [Y2 Y3]]].
  unfold vec4_derivative, vec4_sub; cbn [v_0 v_1 v_2 v_3].
  split; [ | split; [ | split]].
  - exact (complex_derivative_sub (fun s => v_0 (X s)) (fun s => v_0 (Y s)) t _ _ X0 Y0).
  - exact (complex_derivative_sub (fun s => v_1 (X s)) (fun s => v_1 (Y s)) t _ _ X1 Y1).
  - exact (complex_derivative_sub (fun s => v_2 (X s)) (fun s => v_2 (Y s)) t _ _ X2 Y2).
  - exact (complex_derivative_sub (fun s => v_3 (X s)) (fun s => v_3 (Y s)) t _ _ X3 Y3).
Qed.

Lemma vec4_derivative_scale (c : complex) (X : R -> vec4) (t : R) (D : vec4) :
  vec4_derivative X t D ->
  vec4_derivative (fun s => vec4_scale c (X s)) t (vec4_scale c D).
Proof.
  intros [X0 [X1 [X2 X3]]].
  unfold vec4_derivative, vec4_scale; cbn [v_0 v_1 v_2 v_3].
  split; [ | split; [ | split]].
  - exact (complex_derivative_scale (fun s => v_0 (X s)) t _ c X0).
  - exact (complex_derivative_scale (fun s => v_1 (X s)) t _ c X1).
  - exact (complex_derivative_scale (fun s => v_2 (X s)) t _ c X2).
  - exact (complex_derivative_scale (fun s => v_3 (X s)) t _ c X3).
Qed.

Lemma vec4_derivative_const (x : vec4) (t : R) :
  vec4_derivative (fun _ => x) t vec4_zero.
Proof.
  unfold vec4_derivative, vec4_zero; cbn [v_0 v_1 v_2 v_3].
  split; [ | split; [ | split]]; apply complex_derivative_const.
Qed.

Lemma single_vec4_inv (x y : vec4) :
  @inr exn state_array (Single (vec4_list x)) = inr (Single (vec4_list y)) -> x = y.
Proof. intros H. apply vec4_list_inj. congruence. Qed.

(** The field a call carries, on a single state. *)
Lemma field_fun_single (mu mu_prime : R -> R -> R -> R) (f : field)
    (eta eta_H eta_0 Kappa : R) (x : vec4) :
  field_fun mu mu_prime f eta (Single (vec4_list x)) eta_H eta_0 Kappa
  = inr (Single (vec4_list
      (vec4_add (P_times mu mu_prime eta eta_H eta_0 Kappa x)
         (mkVec4 (match f with
                  | Fn_func => C0
                  | Fn_func1 => hd C0 (_S mu_prime eta eta_H eta_0 Kappa)
                  | Fn_func_delta => hd C0 (_S_delta mu_prime eta eta_H eta_0 Kappa)
                  end) C0 C0 C0)))).
Proof.
  destruct f; cbn [field_fun].
  - rewrite func_single_P. do 2 f_equal.
    unfold vec4_add, vec4_list; cbn [v_0 v_1 v_2 v_3]. rewrite !Cadd_0_r. reflexivity.
  - apply func1_single_P.
  - apply func_delta_single_P.
Qed.

Lemma P_times_zero (mu mu_prime : R -> R -> R -> R) (eta eta_H eta_0 Kappa : R) :
  P_times mu mu_prime eta eta_H eta_0 Kappa vec4_zero = vec4_zero.
Proof.
  unfold P_times, _P, dotp, vec4_zero.
  cbn [rows nth vec4_list v_0 v_1 v_2 v_3 zip_with Csum fold_right].
  apply (f_equal4 mkVec4); ring.
Qed.

Section Superposition.

Variable mu : R -> R -> R -> R.
Variable mu_prime : R -> R -> R -> R.
Variable solve_ivp : ivp_call -> OdeResult.

(** X8.  Superposition.  On valid parameters, when [calculate_solution]
    returns: at a height where the dense output of each call satisfies the
    differential equation of its call, the combination
    [interpolated_solution] satisfies the forced equation of [_func1], with
    the constant [0.4]: the forcing [_S] enters once, through the first
    solution, whose coefficient is one. *)
Theorem interpolated_solution_satisfies_forced_field
    (eta_0 eta_H eta_B Fr : R) (max_z : option R)
    (Kappa atol rtol : R) (method : string) (kwargs : list (string * pyval)) (fr : frame)
    (t : R)
    (Hvalid : valid_parameters eta_0 eta_H eta_B Fr (effective_max_z max_z eta_H))
    (Hreturns : outcome (calculate_solution mu mu_prime solve_ivp eta_0 eta_H eta_B Fr
                           max_z Kappa atol rtol method kwargs) = inr fr)
    (Hfield : Forall (fun c => satisfies_field_at mu mu_prime c (sol (solve_ivp c)) t)
                (calls (calculate_solution mu mu_prime solve_ivp eta_0 eta_H eta_B Fr
                          max_z Kappa atol rtol method kwargs))) :
  exists D,
    _func1 mu mu_prime t (Single (vec4_list (interpolated_solution fr t))) eta_H eta_0 0.4
    = inr (Single (vec4_list D))
    /\ vec4_derivative (interpolated_solution fr) t D.
Proof.
  rewrite calculate_solution_calls in Hfield. unfold solve_system_calls in Hfield.
  apply Forall_cons_iff in Hfield as [[D1 [F1 H1]] Hfield].
  apply Forall_cons_iff in Hfield as [[D2 [F2 H2]] Hfield].
  apply Forall_cons_iff in Hfield as [[D3 [F3 H3]] Hfield].
  apply Forall_cons_iff in Hfield as [[D4 [F4 H4]] _].
  cbn [ivp_fun ivp_args fst snd] in F1, F2, F3, F4.
  rewrite field_fun_single in F1, F2, F3, F4.
  apply single_vec4_inv in F1, F2, F3, F4.
  destruct (calculate_solution_returns mu mu_prime solve_ivp _ _ _ _ _ _ _ _ _ _ fr
              Hvalid Hreturns)
    as [X1 [X2 [X3 [X4 [b1 [b2 [b3 [_ [HX Hfr]]]]]]]]].
  cbv zeta in HX, Hfr.
  destruct (apply_boundary_condition_returns _ _ _ _ _ _ _ _ fr Hfr)
    as [_ [Hfm [[p0 [p1 [p2 [_ [Hc _]]]]] _]]].
  unfold solve_system_calls in HX. cbn [map] in HX.
  injection HX as -> -> -> ->.
  eexists. split; [apply func1_single_P | ].
  unfold interpolated_solution. rewrite Hfm, Hc.
  cbn [mt_Results zip_with fold_right].
  rewrite !P_times_add, !P_times_scale, P_times_zero.
  match goal with |- vec4_derivative _ _ ?D =>
    replace D with
      (vec4_add (vec4_scale C1 D1)
         (vec4_add (vec4_scale (p1 / p0)%C D2)
            (vec4_add (vec4_scale (p2 / p0)%C D3)
               (vec4_add (vec4_scale (C1 / p0)%C D4) vec4_zero))))
  end.
  - repeat (apply vec4_derivative_add; [apply vec4_derivative_scale; assumption | ]).
    apply vec4_derivative_const.
  - rewrite <- F1, <- F2, <- F3, <- F4.
    unfold vec4_add, vec4_scale, vec4_zero. cbn [v_0 v_1 v_2 v_3].
    apply (f_equal4 mkVec4); ring.
Qed.

(** X9.  On valid parameters, when [calculate_solution] returns and the
    dense output of each call starts from the initial condition of its
    call, [interpolated_solution(0)] is
    [[-mu_prime(0, eta_0, 0.4), 0, coeffs[1], coeffs[2]]]: the two free
    components of the state at the ground are the coefficients of the two
    homogeneous solutions, and the last coefficient plays no part. *)
Theorem interpolated_solution_initial_state
    (eta_0 eta_H eta_B Fr : R) (max_z : option R)
    (Kappa atol rtol : R) (method : string) (kwargs : list (string * pyval)) (fr : frame)
    (Hvalid : valid_parameters eta_0 eta_H eta_B Fr (effective_max_z max_z eta_H))
    (Hreturns : outcome (calculate_solution mu mu_prime solve_ivp eta_0 eta_H eta_B Fr
                           max_z Kappa atol rtol method kwargs) = inr fr)
    (Hstart : Forall (fun c => sol (solve_ivp c) (fst (ivp_t_span c)) = ivp_y0 c)
                (calls (calculate_solution mu mu_prime solve_ivp eta_0 eta_H eta_B Fr
                          max_z Kappa atol rtol method kwargs))) :
  interpolated_solution fr 0
  = mkVec4 (RtoC (- mu_prime 0 eta_0 0.4)) C0
           (nth 1 (fr_coeffs fr) C0) (nth 2 (fr_coeffs fr) C0).
Proof.
  rewrite calculate_solution_calls in Hstart. unfold solve_system_calls in Hstart.
  apply Forall_cons_iff in Hstart as [S1 Hstart].
  apply Forall_cons_iff in Hstart as [S2 Hstart].
  apply Forall_cons_iff in Hstart as [S3 Hstart].
  apply Forall_cons_iff in Hstart as [S4 _].
  cbn [ivp_t_span ivp_y0 fst] in S1, S2, S3, S4.
  destruct (calculate_solution_returns mu mu_prime solve_ivp _ _ _ _ _ _ _ _ _ _ fr
              Hvalid Hreturns)
    as [X1 [X2 [X3 [X4 [b1 [b2 [b3 [_ [HX Hfr]]]]]]]]].
  cbv zeta in HX, Hfr.
  destruct (apply_boundary_condition_returns _ _ _ _ _ _ _ _ fr Hfr)
    as [_ [Hfm [[p0 [p1 [p2 [_ [Hc _]]]]] _]]].
  unfold solve_system_calls in HX. cbn [map] in HX.
  injection HX as -> -> -> ->.
  unfold interpolated_solution. rewrite Hfm, Hc.
  cbn [mt_Results zip_with fold_right nth].
  rewrite S1, S2, S3, S4.
  unfold vec4_add, vec4_scale, vec4_zero. cbn [v_0 v_1 v_2 v_3].
  apply (f_equal4 mkVec4); ring.
Qed.

End Superposition.

(** ** The Euler solver of the sample environment *)

Lemma derivable_pt_lim_affine (f : R -> R) (a b t : R) :
  (forall s, f s = a + b * s) -> derivable_pt_lim f t b.
Proof.
  intros Hf eps Heps. exists (mkposreal 1 Rlt_0_1). intros h Hh _.
  rewrite !Hf.
  replace ((a + b * (t + h) - (a + b * t)) / h - b) with 0 by (field; exact Hh).
  rewrite Rabs_R0; exact Heps.
Qed.

Lemma complex_derivative_affine (a b : complex) (t0 t : R) :
  complex_derivative (fun s => (a + b * RtoC (s - t0))%C) t b.
Proof.
  split.
  - apply (derivable_pt_lim_affine _ (Re a - Re b * t0)).
    intros s. cbn [Re Im Cadd Cmul RtoC]. ring.
  - apply (derivable_pt_lim_affine _ (Im a - Im b * t0)).
    intros s. cbn [Re Im Cadd Cmul RtoC]. ring.
Qed.

(** The dense output of the Euler solver starts from the initial
    condition, and is tangent there to the vector field. *)
Lemma euler_starts_at_initial_condition (mu mu_prime : R -> R -> R -> R) (c : ivp_call) :
  sol (euler_solve_ivp mu mu_prime c) (fst (ivp_t_span c)) = ivp_y0 c.
Proof.
  destruct c as [f [t0 t1] y0 [[eta_H eta_0] Kappa] d kw].
  unfold euler_solve_ivp. cbn [ivp_args ivp_t_span ivp_fun ivp_y0 fst sol].
  rewrite field_fun_single. cbn [vec4_list].
  destruct y0 as [a0 a1 a2 a3].
  unfold vec4_add, vec4_scale. cbn [v_0 v_1 v_2 v_3].
  apply (f_equal4 mkVec4); apply complex_eq; cbn [Re Im Cadd Cmul RtoC]; ring.
Qed.

Lemma euler_satisfies_field_at_start (mu mu_prime : R -> R -> R -> R) (c : ivp_call) :
  satisfies_field_at mu mu_prime c (sol (euler_solve_ivp mu mu_prime c)) (fst (ivp_t_span c)).
Proof.
  unfold satisfies_field_at. rewrite euler_starts_at_initial_condition.
  destruct c as [f [t0 t1] y0 [[eta_H eta_0] Kappa] d kw].
  unfold euler_solve_ivp. cbn [ivp_args ivp_t_span ivp_fun ivp_y0 fst snd sol].
  rewrite field_fun_single. cbn [vec4_list].
  eexists. split; [reflexivity | ].
  unfold vec4_derivative, vec4_add, vec4_scale. cbn [v_0 v_1 v_2 v_3].
  split; [ | split; [ | split]]; apply complex_derivative_affine.
Qed.

Lemma matching_solution_unique_witness :
  exists fr,
    outcome (calculate_solution mu_log mu_prime_log (euler_solve_ivp mu_log mu_prime_log)
               1e-5 1000 0.5 1 None 0.4 1e-10 1e-10 "DOP853" []) = inr fr
    /\ matching_det (fr_matching fr) <> C0
    /\ (let m := fr_matching fr in
        outcome (boundary_conditions mu_log mu_prime_log (euler_solve_ivp mu_log mu_prime_log)
                   1e-5 1000 0.5 1 None 0.4 1e-10 1e-10 "DOP853" []) = inr m
        /\ np_dot_vec (drop_last_column (mt_To_apply m)) (fr_pars fr)
           = np_sub_vec (mt_b m) (last_column (mt_To_apply m))
        /\ forall p,
             np_dot_vec (drop_last_column (mt_To_apply m)) p
             = np_sub_vec (mt_b m) (last_column (mt_To_apply m)) ->
             p = fr_pars fr).
Proof.
  destruct euler_scenario_returns as [fr [Hfr [_ Hdet]]].
  exists fr. split; [exact Hfr | ]. split; [exact Hdet | ].
  exact (matching_solution_unique mu_log mu_prime_log (euler_solve_ivp mu_log mu_prime_log)
           1e-5 1000 0.5 1 None 0.4 1e-10 1e-10 "DOP853" [] fr scenario_valid Hfr Hdet).
Defined.

Lemma boundary_conditions_reproduced_witness :
  exists fr,
    outcome (calculate_solution mu_log mu_prime_log (euler_solve_ivp mu_log mu_prime_log)
               1e-5 1000 0.5 1 None 0.4 1e-10 1e-10 "DOP853" []) = inr fr
    /\ nth 0 (fr_pars fr) C0 <> C0
    /\ (let z := effective_max_z None 1000 in
        let delta := last (fr_coeffs fr) C0 in
        nth 0 (fr_coeffs fr) C0 = C1
        /\ (delta * nth 0 (fr_pars fr) C0)%C = C1
        /\ tl (vec4_list (interpolated_solution fr z))
           = [(delta * (Ci * RtoC (mu_log z 1e-5 0.4)))%C;
              (delta * RtoC (1 / z))%C;
              (delta * (RtoC (mu_log z 1e-5 0.4 ^ 2)
                        * (q1_value 0.5 + RtoC (1 / (1000 * 1 ^ 2)))))%C]).
Proof.
  destruct euler_scenario_returns as [fr [Hfr [Hp0 _]]].
  exists fr. split; [exact Hfr | ]. split; [exact Hp0 | ].
  exact (boundary_conditions_reproduced mu_log mu_prime_log
           (euler_solve_ivp mu_log mu_prime_log)
           1e-5 1000 0.5 1 None 0.4 1e-10 1e-10 "DOP853" [] fr scenario_valid Hfr Hp0).
Defined.

Lemma euler_scenario_calls_field :
  Forall (fun c => satisfies_field_at mu_log mu_prime_log c
                     (sol (euler_solve_ivp mu_log mu_prime_log c)) 0)
    (calls (calculate_solution mu_log mu_prime_log (euler_solve_ivp mu_log mu_prime_log)
              1e-5 1000 0.5 1 None 0.4 1e-10 1e-10 "DOP853" [])).
Proof.
  rewrite calculate_solution_calls. unfold solve_system_calls.
  repeat (apply Forall_cons || apply Forall_nil).
  all: match goal with
       | |- satisfies_field_at _ _ ?c _ _ =>
           exact (euler_satisfies_field_at_start mu_log mu_prime_log c)
       end.
Qed.

Lemma euler_scenario_calls_start :
  Forall (fun c => sol (euler_solve_ivp mu_log mu_prime_log c) (fst (ivp_t_span c))
                   = ivp_y0 c)
    (calls (calculate_solution mu_log mu_prime_log (euler_solve_ivp mu_log mu_prime_log)
              1e-5 1000 0.5 1 None 0.4 1e-10 1e-10 "DOP853" [])).
Proof.
  apply Forall_forall. intros c _. apply euler_starts_at_initial_condition.
Qed.

Lemma interpolated_solution_satisfies_forced_field_witness :
  exists fr,
    outcome (calculate_solution mu_log mu_prime_log (euler_solve_ivp mu_log mu_prime_log)
               1e-5 1000 0.5 1 None 0.4 1e-10 1e-10 "DOP853" []) = inr fr
    /\ exists D,
         _func1 mu_log mu_prime_log 0 (Single (vec4_list (interpolated_solution fr 0)))
           1000 1e-5 0.4
         = inr (Single (vec4_list D))
         /\ vec4_derivative (interpolated_solution fr) 0 D.
Proof.
  destruct euler_scenario_returns as [fr [Hfr _]].
  exists fr. split; [exact Hfr | ].
  exact (interpolated_solution_satisfies_forced_field mu_log mu_prime_log
           (euler_solve_ivp mu_log mu_prime_log)
           1e-5 1000 0.5 1 None 0.4 1e-10 1e-10 "DOP853" [] fr 0 scenario_valid Hfr
           euler_scenario_calls_field).
Defined.

Lemma interpolated_solution_initial_state_witness :
  exists fr,
    outcome (calculate_solution mu_log mu_prime_log (euler_solve_ivp mu_log mu_prime_log)
               1e-5 1000 0.5 1 None 0.4 1e-10 1e-10 "DOP853" []) = inr fr
    /\ interpolated_solution fr 0
       = mkVec4 (RtoC (- mu_prime_log 0 1e-5 0.4)) C0
                (nth 1 (fr_coeffs fr) C0) (nth 2 (fr_coeffs fr) C0).
Proof.
  destruct euler_scenario_returns as [fr [Hfr _]].
  exists fr. split; [exact Hfr | ].
  exact (interpolated_solution_initial_state mu_log mu_prime_log
           (euler_solve_ivp mu_log mu_prime_log)
           1e-5 1000 0.5 1 None 0.4 1e-10 1e-10 "DOP853" [] fr scenario_valid Hfr
           euler_scenario_calls_start).
Defined.

(** ** Uniqueness for the four problems *)

Lemma vec4_sub_zero (x y : vec4) : vec4_sub x y = vec4_zero -> x = y.
Proof.
  destruct x as [a0 a1 a2 a3], y as [b0 b1 b2 b3].
  unfold vec4_sub, vec4_zero. cbn [v_0 v_1 v_2 v_3].
  intros H.
  assert (H0 := f_equal v_0 H). assert (H1 := f_equal v_1 H).
  assert (H2 := f_equal v_2 H). assert (H3 := f_equal v_3 H).
  cbn [v_0 v_1 v_2 v_3] in H0, H1, H2, H3.
  apply (f_equal4 mkVec4).
  - replace a0 with ((a0 - b0) + b0)%C by ring. rewrite H0. ring.
  - replace a1 with ((a1 - b1) + b1)%C by ring. rewrite H1. ring.
  - replace a2 with ((a2 - b2) + b2)%C by ring. rewrite H2. ring.
  - replace a3 with ((a3 - b3) + b3)%C by ring. rewrite H3. ring.
Qed.

Section Uniqueness.

Variable mu : R -> R -> R -> R.
Variable mu_prime : R -> R -> R -> R.
Variable solve_ivp : ivp_call -> OdeResult.

(** X10.  Each problem [_solve_system] hands to the solver has at most one
    exact solution on [[0, max_z]] where the matrix [P] is bounded there:
    two exact solutions of the same call coincide, the forcing cancelling
    in their difference. *)
Theorem solve_system_problems_have_one_solution
    (eta_0 eta_H Kappa max_z : R) (dense_output : bool) (kwargs : solver_kwargs) (B : R)
    (c : ivp_call) (X Y : R -> vec4)
    (Hbounded : forall t, 0 <= t <= max_z ->
                  entries_bounded B (_P mu mu_prime t eta_H eta_0 Kappa))
    (Hcall : In c (calls (_solve_system mu_prime solve_ivp eta_0 eta_H Kappa max_z
                            dense_output kwargs)))
    (HX : solves_ivp mu mu_prime c X)
    (HY : solves_ivp mu mu_prime c Y) :
  forall t, 0 <= t <= max_z -> X t = Y t.
Proof.
  intros t Ht. apply vec4_sub_zero.
  assert (Hshape : ivp_t_span c = (0, max_z) /\ ivp_args c = (eta_H, eta_0, Kappa)).
  { rewrite solve_system_run in Hcall. unfold calls, solve_system_calls in Hcall.
    cbn [fst] in Hcall.
    destruct Hcall as [<- | [<- | [<- | [<- | []]]]]; split; reflexivity. }
  destruct Hshape as [Hspan Hargs].
  destruct HX as [X0 HX], HY as [Y0 HY].
  rewrite Hspan, Hargs in HX, HY. rewrite Hspan in X0, Y0.
  cbn [fst snd] in HX, HY, X0, Y0.
  apply (homogeneous_zero_unique mu mu_prime eta_H eta_0 Kappa max_z B
           (fun s => vec4_sub (X s) (Y s)) Hbounded); [ | | exact Ht].
  - rewrite X0, Y0. unfold vec4_sub, vec4_zero. apply (f_equal4 mkVec4); ring.
  - intros s Hs.
    destruct (HX s Hs) as [DX [FX dX]]. destruct (HY s Hs) as [DY [FY dY]].
    rewrite field_fun_single in FX, FY.
    apply single_vec4_inv in FX, FY.
    exists (vec4_sub DX DY). split.
    + rewrite func_single_P, P_times_sub.
      replace (vec4_sub DX DY)
        with (vec4_sub (P_times mu mu_prime s eta_H eta_0 Kappa (X s))
                (P_times mu mu_prime s eta_H eta_0 Kappa (Y s))); [reflexivity | ].
      rewrite <- FX, <- FY.
      unfold vec4_sub, vec4_add. cbn [v_0 v_1 v_2 v_3].
      apply (f_equal4 mkVec4); ring.
    + apply vec4_derivative_sub; assumption.
Qed.

End Uniqueness.

(** The Euler solver returns an exact solution of the fourth problem. *)
Lemma euler_solves_placeholder (mu mu_prime : R -> R -> R -> R) (t_span : R * R)
    (args : R * R * R) (d : bool) (kw : solver_kwargs) :
  solves_ivp mu mu_prime (mkCall Fn_func t_span vec4_zero args d kw)
    (sol (euler_solve_ivp mu mu_prime (mkCall Fn_func t_span vec4_zero args d kw))).
Proof.
  split; [apply euler_placeholder_zero | ].
  intros t _. exists vec4_zero. rewrite euler_placeholder_zero.
  cbn [ivp_fun field_fun]. split; [apply func_zero | ].
  unfold vec4_derivative, complex_derivative.
  repeat split; apply (derivable_pt_lim_affine _ 0 0); intros s;
    rewrite euler_placeholder_zero; cbn [vec4_zero v_0 v_1 v_2 v_3 Re Im C0 RtoC]; ring.
Qed.

Lemma solve_system_problems_have_one_solution_witness :
  0 <= 500 <= 999.9
  /\ vec4_zero
     = sol (euler_solve_ivp mu_log mu_prime_log
              (mkCall Fn_func (0, 999.9) vec4_zero (1000, 1e-5, 0.4) true
                 (mkKwargs 1e-10 1e-10 "DOP853" []))) 500.
Proof.
  assert (Ht : 0 <= 500 <= 999.9) by lra.
  split; [exact Ht | ].
  refine (solve_system_problems_have_one_solution mu_log mu_prime_log
            (euler_solve_ivp mu_log mu_prime_log)
            1e-5 1000 0.4 999.9 true (mkKwargs 1e-10 1e-10 "DOP853" []) 2e9
            (mkCall Fn_func (0, 999.9) vec4_zero (1000, 1e-5, 0.4) true
               (mkKwargs 1e-10 1e-10 "DOP853" []))
            (fun _ => vec4_zero) _ _ _ _ _ 500 Ht).
  - exact scenario_P_bounded.
  - rewrite solve_system_run. unfold calls, solve_system_calls. cbn [fst].
    right; right; right; left; reflexivity.
  - apply zero_solves_homogeneous.
  - apply euler_solves_placeholder.
Defined.

(** ** The stream function above the boundary layer *)

Lemma Cexp_1j (k : R) : Cexp (Ci * RtoC k) = mkC (cos k) (sin k).
Proof.
  unfold Cexp. cbn [Re Im Cmul Ci RtoC].
  replace (0 * k - 1 * 0) with 0 by ring.
  replace (0 * 0 + 1 * k) with k by ring.
  rewrite exp_0. apply complex_eq; cbn [Re Im]; ring.
Qed.

(** [W/(-1j*eta_H)]: the imaginary units cancel. *)
Lemma top_velocity_over_height (m eta_H : R) (d : complex) :
  eta_H <> 0 ->
  (Ci * RtoC m * d / (- Ci * RtoC eta_H))%C = (RtoC (- (m / eta_H)) * d)%C.
Proof.
  intros HH. destruct d as [dr di].
  apply complex_eq; unfold Cdiv, Cinv, Cnorm2;
    cbn [Re Im Cmul Cneg Ci RtoC]; field; nra.
Qed.

Lemma streamfunction_FA_entries (mu : R -> R -> R -> R) (mu_default_Kappa : R)
    (eta_0 eta_H : R) (fr : frame) (eta_FA k_x : list R) (k_xi : R) :
  eta_H <> 0 ->
  streamfunction_FA mu mu_default_Kappa eta_0 eta_H fr eta_FA k_x k_xi
  = map (fun e =>
           map (fun k => mu eta_H eta_0 mu_default_Kappa * (e / eta_H - 1)
                         - k_xi * (mu eta_H eta_0 mu_default_Kappa / eta_H)
                           * (cos k * Re (last (fr_coeffs fr) C0)
                              - sin k * Im (last (fr_coeffs fr) C0)))
               k_x)
        eta_FA.
Proof.
  intros HH. unfold streamfunction_FA.
  rewrite map_map. apply map_ext. intros e. apply map_ext. intros k.
  rewrite Cexp_1j, (top_velocity_over_height _ eta_H _ HH).
  cbn [Re Im Cadd Cmul RtoC]. field. exact HH.
Qed.

Section StreamFunction.

Variable mu : R -> R -> R -> R.
Variable mu_prime : R -> R -> R -> R.
Variable solve_ivp : ivp_call -> OdeResult.
Variable mu_default_Kappa : R.

(** X11.  On valid parameters, when [calculate_solution] returns, the
    stream function is, at the height [e] and the phase [k],
    [mu_H*(e/eta_H - 1) - k_xi*(mu_H/eta_H)*(cos k * Re delta - sin k * Im delta)],
    where [mu_H = mu(eta_H, eta_0)] and [delta = coeffs[-1]]: the imaginary
    units of [W] and of [-1j*eta_H] cancel, and the result has one row for
    each height and one column for each phase. *)
Theorem streamfunction_FA_closed_form (eta_0 eta_H eta_B Fr : R) (max_z : option R)
    (Kappa atol rtol : R) (method : string) (kwargs : list (string * pyval)) (fr : frame)
    (eta_FA k_x : list R) (k_xi : R)
    (Hvalid : valid_parameters eta_0 eta_H eta_B Fr (effective_max_z max_z eta_H))
    (Hreturns : outcome (calculate_solution mu mu_prime solve_ivp eta_0 eta_H eta_B Fr
                           max_z Kappa atol rtol method kwargs) = inr fr) :
  let mu_H := mu eta_H eta_0 mu_default_Kappa in
  let delta := last (fr_coeffs fr) C0 in
  streamfunction_FA mu mu_default_Kappa eta_0 eta_H fr eta_FA k_x k_xi
  = map (fun e =>
           map (fun k => mu_H * (e / eta_H - 1)
                         - k_xi * (mu_H / eta_H) * (cos k * Re delta - sin k * Im delta))
               k_x)
        eta_FA.
Proof.
  intros mu_H delta.
  assert (HH : eta_H <> 0) by (destruct Hvalid as [_ [H _]]; lra).
  exact (streamfunction_FA_entries mu mu_default_Kappa eta_0 eta_H fr eta_FA k_x k_xi HH).
Qed.

(** X12.  On valid parameters, when [calculate_solution] returns, the
    stream function has the period [2*PI] in the phases, and over half a
    period the perturbation changes sign: the values at [k] and [k + PI]
    average to the background [mu_H*(e/eta_H - 1)]. *)
Theorem streamfunction_FA_periodic (eta_0 eta_H eta_B Fr : R) (max_z : option R)
    (Kappa atol rtol : R) (method : string) (kwargs : list (string * pyval)) (fr : frame)
    (eta_FA k_x : list R) (k_xi : R)
    (Hvalid : valid_parameters eta_0 eta_H eta_B Fr (effective_max_z max_z eta_H))
    (Hreturns : outcome (calculate_solution mu mu_prime solve_ivp eta_0 eta_H eta_B Fr
                           max_z Kappa atol rtol method kwargs) = inr fr) :
  let Psi := streamfunction_FA mu mu_default_Kappa eta_0 eta_H fr in
  Psi eta_FA (map (fun k => k + 2 * PI) k_x) k_xi = Psi eta_FA k_x k_xi
  /\ forall e k,
       exists p q,
         Psi [e] [k] k_xi = [[p]] /\ Psi [e] [k + PI] k_xi = [[q]]
         /\ (p + q) / 2 = mu eta_H eta_0 mu_default_Kappa * (e / eta_H - 1).
Proof.
  intros Psi. subst Psi. split.
  - unfold streamfunction_FA. apply map_ext. intros p.
    rewrite map_map. apply map_ext. intros k.
    rewrite !Cexp_1j.
    replace (k + 2 * PI) with (k + 2 * INR 1 * PI) by (simpl; ring).
    rewrite cos_period, sin_period. reflexivity.
  - intros e k.
    assert (HH : eta_H <> 0) by (destruct Hvalid as [_ [H _]]; lra).
    rewrite !(streamfunction_FA_entries mu mu_default_Kappa eta_0 eta_H fr _ _ k_xi HH).
    cbn [map]. do 2 eexists. split; [reflexivity | ]. split; [reflexivity | ].
    rewrite neg_cos, neg_sin. field. exact HH.
Qed.

End StreamFunction.

Lemma streamfunction_FA_closed_form_witness :
  exists fr,
    outcome (calculate_solution mu_log mu_prime_log (euler_solve_ivp mu_log mu_prime_log)
               1e-5 1000 0.5 1 None 0.4 1e-10 1e-10 "DOP853" []) = inr fr
    /\ (let mu_H := mu_log 1000 1e-5 0.4 in
        let delta := last (fr_coeffs fr) C0 in
        streamfunction_FA mu_log 0.4 1e-5 1000 fr [1000; 1100] [0; 1] 0.01
        = map (fun e =>
                 map (fun k => mu_H * (e / 1000 - 1)
                               - 0.01 * (mu_H / 1000)
                                 * (cos k * Re delta - sin k * Im delta))
                     [0; 1])
              [1000; 1100]).
Proof.
  destruct euler_scenario_returns as [fr [Hfr _]].
  exists fr. split; [exact Hfr | ].
  exact (streamfunction_FA_closed_form mu_log mu_prime_log
           (euler_solve_ivp mu_log mu_prime_log) 0.4
           1e-5 1000 0.5 1 None 0.4 1e-10 1e-10 "DOP853" [] fr [1000; 1100] [0; 1] 0.01
           scenario_valid Hfr).
Defined.

Lemma streamfunction_FA_periodic_witness :
  exists fr,
    outcome (calculate_solution mu_log mu_prime_log (euler_solve_ivp mu_log mu_prime_log)
               1e-5 1000 0.5 1 None 0.4 1e-10 1e-10 "DOP853" []) = inr fr
    /\ (let Psi := streamfunction_FA mu_log 0.4 1e-5 1000 fr in
        Psi [1000; 1100] (map (fun k => k + 2 * PI) [0; 1]) 0.01
        = Psi [1000; 1100] [0; 1] 0.01
        /\ forall e k,
             exists p q,
               Psi [e] [k] 0.01 = [[p]] /\ Psi [e] [k + PI] 0.01 = [[q]]
               /\ (p + q) / 2 = mu_log 1000 1e-5 0.4 * (e / 1000 - 1)).
Proof.
  destruct euler_scenario_returns as [fr [Hfr _]].
  exists fr. split; [exact Hfr | ].
  exact (streamfunction_FA_periodic mu_log mu_prime_log
           (euler_solve_ivp mu_log mu_prime_log) 0.4
           1e-5 1000 0.5 1 None 0.4 1e-10 1e-10 "DOP853" [] fr [1000; 1100] [0; 1] 0.01
           scenario_valid Hfr).
Defined.

(** ** What the integrations depend on *)

Section Independence.

Variable mu : R -> R -> R -> R.
Variable mu_prime : R -> R -> R -> R.
Variable solve_ivp : ivp_call -> OdeResult.

(** X13.  The integrations read neither [eta_B], nor [Fr], nor [Kappa]:
    two calls of [calculate_solution] on valid parameters that differ in
    these three only make the same calls of the solver, over the same
    span, and build the same list [Results] and the same array [To_apply];
    of the data of the matching, the right-hand side [b] alone can
    differ. *)
Theorem integrations_ignore_stratification (eta_0 eta_H : R) (max_z : option R)
    (eta_B Fr Kappa eta_B' Fr' Kappa' atol rtol : R)
    (method : string) (kwargs : list (string * pyval))
    (Hvalid : valid_parameters eta_0 eta_H eta_B Fr (effective_max_z max_z eta_H))
    (Hvalid' : valid_parameters eta_0 eta_H eta_B' Fr' (effective_max_z max_z eta_H)) :
  calls (calculate_solution mu mu_prime solve_ivp eta_0 eta_H eta_B Fr max_z Kappa
           atol rtol method kwargs)
  = calls (calculate_solution mu mu_prime solve_ivp eta_0 eta_H eta_B' Fr' max_z Kappa'
             atol rtol method kwargs)
  /\ exists z Results To_apply b b',
       outcome (boundary_conditions mu mu_prime solve_ivp eta_0 eta_H eta_B Fr max_z Kappa
                  atol rtol method kwargs) = inr (mkMatching z Results To_apply b)
       /\ outcome (boundary_conditions mu mu_prime solve_ivp eta_0 eta_H eta_B' Fr' max_z
                     Kappa' atol rtol method kwargs) = inr (mkMatching z Results To_apply b').
Proof.
  split.
  - rewrite !calculate_solution_calls. reflexivity.
  - rewrite (boundary_conditions_run _ _ _ _ _ _ _ _ _ _ _ _ _ Hvalid),
      (boundary_conditions_run _ _ _ _ _ _ _ _ _ _ _ _ _ Hvalid').
    cbn [outcome snd].
    do 5 eexists. split; reflexivity.
Qed.

End Independence.

Lemma scenario_valid_other :
  valid_parameters 1e-5 1000 2 3 (effective_max_z None 1000).
Proof. unfold valid_parameters, effective_max_z. lra. Qed.

Lemma integrations_ignore_stratification_witness :
  calls (calculate_solution mu_log mu_prime_log (euler_solve_ivp mu_log mu_prime_log)
           1e-5 1000 0.5 1 None 0.4 1e-10 1e-10 "DOP853" [])
  = calls (calculate_solution mu_log mu_prime_log (euler_solve_ivp mu_log mu_prime_log)
             1e-5 1000 2 3 None 0.41 1e-10 1e-10 "DOP853" [])
  /\ exists z Results To_apply b b',
       outcome (boundary_conditions mu_log mu_prime_log (euler_solve_ivp mu_log mu_prime_log)
                  1e-5 1000 0.5 1 None 0.4 1e-10 1e-10 "DOP853" [])
       = inr (mkMatching z Results To_apply b)
       /\ outcome (boundary_conditions mu_log mu_prime_log
                     (euler_solve_ivp mu_log mu_prime_log)
                     1e-5 1000 2 3 None 0.41 1e-10 1e-10 "DOP853" [])
          = inr (mkMatching z Results To_apply b').
Proof.
  exact (integrations_ignore_stratification mu_log mu_prime_log
           (euler_solve_ivp mu_log mu_prime_log) 1e-5 1000 None
           0.5 1 0.4 2 3 0.41 1e-10 1e-10 "DOP853" [] scenario_valid scenario_valid_other).
Defined.
